(** * nolpy: stream wrappers over process pipes and sockets

    A shallow embedding of [nolpy/proc.py] (class [ProcessProxy]) and
    [nolpy/sock.py] (class [FlushProxy]), together with the part of the
    Python standard library the two classes lean on: file objects, the
    [selectors] wait primitive and the response state machine of
    [http.client].

    Python methods mutate objects and may raise.  They are embedded as
    state transformers that return an outcome next to the state reached,
    so that whatever a method did before raising is still visible. *)

From Stdlib Require Import String.
From Stdlib Require Import List ZArith Bool Lia Arith.
From Stdlib Require Import Strings.Byte.
Import ListNotations.

Set Implicit Arguments.

(** ** Bytes *)

Definition bytes := list byte.

Definition byte_val (b : byte) : Z := Z.of_N (Byte.to_N b).

Definition len (b : bytes) : Z := Z.of_nat (length b).

(** ** Exceptions *)

Inductive exn : Type :=
| ValueError
| UnicodeEncodeError
| TypeError
| AttributeError
| OSError
| BlockingIOError
| TimeoutError
| ProcessLookupError
| TimeoutExpired
| HTTPException
| IncompleteRead
| BadStatusLine
| LineTooLong
| RemoteDisconnected
| UnknownProtocol
| KeyboardInterrupt.

(** [isinstance(e, OSError)]; [IOError] and [socket.error] are aliases of
    [OSError]. *)
Definition is_OSError (e : exn) : bool :=
  match e with
  | OSError | BlockingIOError | TimeoutError | ProcessLookupError
  | RemoteDisconnected => true
  | _ => false
  end.

(** [isinstance(e, ValueError)]. *)
Definition is_ValueError (e : exn) : bool :=
  match e with
  | ValueError | UnicodeEncodeError => true
  | _ => false
  end.

(** [isinstance(e, Exception)]: everything but the [BaseException]-only
    classes. *)
Definition is_Exception (e : exn) : bool :=
  match e with
  | KeyboardInterrupt => false
  | _ => true
  end.

Definition is_ProcessLookupError (e : exn) : bool :=
  match e with ProcessLookupError => true | _ => false end.

Definition is_TimeoutExpired (e : exn) : bool :=
  match e with TimeoutExpired => true | _ => false end.

Definition is_IncompleteRead (e : exn) : bool :=
  match e with IncompleteRead => true | _ => false end.

(** ** Outcomes and the state monad *)

(** [Hang]: the call blocks for ever in a blocking read.
    [Fuel]: a loop of the model used up its step budget. *)
Inductive outcome (A : Type) : Type :=
| Ret (a : A)
| Exc (e : exn)
| Hang
| Fuel.

Arguments Ret {A} a.
Arguments Exc {A} e.
Arguments Hang {A}.
Arguments Fuel {A}.

Definition M (S A : Type) : Type := S -> outcome A * S.

Definition ret {S A} (a : A) : M S A := fun s => (Ret a, s).

Definition raise {S A} (e : exn) : M S A := fun s => (Exc e, s).

Definition bind {S A B} (m : M S A) (k : A -> M S B) : M S B :=
  fun s =>
    match m s with
    | (Ret a, s') => k a s'
    | (Exc e, s') => (Exc e, s')
    | (Hang, s') => (Hang, s')
    | (Fuel, s') => (Fuel, s')
    end.

Definition gets {S A} (f : S -> A) : M S A := fun s => (Ret (f s), s).

Definition modify {S} (f : S -> S) : M S unit := fun s => (Ret tt, f s).

(** [try: m  except <classes>: h] *)
Definition try_except {S A} (m : M S A) (classes : exn -> bool)
    (h : M S A) : M S A :=
  fun s =>
    match m s with
    | (Exc e, s') => if classes e then h s' else (Exc e, s')
    | r => r
    end.

(** [try: m  finally: fin].  An exception raised by [fin] replaces the
    pending outcome of [m]. *)
Definition try_finally {S A} (m : M S A) (fin : M S unit) : M S A :=
  fun s =>
    match m s with
    | (Ret a, s') => bind fin (fun _ => ret a) s'
    | (Exc e, s') => bind fin (fun _ => raise e) s'
    | (Hang, s') => (Hang, s')
    | (Fuel, s') => (Fuel, s')
    end.

Declare Scope py_scope.
Delimit Scope py_scope with py.
Notation "x <- m ;; k" := (bind m (fun x => k))
  (at level 61, m at next level, right associativity) : py_scope.
Notation "m ;; k" := (bind m (fun _ => k))
  (at level 61, right associativity) : py_scope.
Open Scope py_scope.

(** What [read] and [readline] hand back: a bytes object or [None]. *)
Inductive pyval : Type :=
| PBytes (b : bytes)
| PNone.

(** Python truth value: [None] and [b""] are false. *)
Definition truthy (v : pyval) : bool :=
  match v with
  | PBytes (_ :: _) => true
  | _ => false
  end.

(** What is written to a file object or a sink. *)
Inductive io_op : Type :=
| Wrote (b : bytes)
| Flushed.

(** The argument of [write]: [Union[bytes, str, bytearray]].  A [str] is a
    sequence of code points. *)
Inductive pydata : Type :=
| Str (cps : list N)
| Bytes (b : bytes)
| ByteArray (b : bytes).

(** [s.encode("latin-1")]: every code point below 256 is one byte, any
    other one raises [UnicodeEncodeError]. *)
Fixpoint encode_latin1 (cps : list N) : option bytes :=
  match cps with
  | [] => Some []
  | c :: rest =>
      match Byte.of_N c, encode_latin1 rest with
      | Some b, Some bs => Some (b :: bs)
      | _, _ => None
      end
  end.

(** The three-way [isinstance] dispatch at the head of both [write]s. *)
Definition to_bytes {S} (data : pydata) : M S bytes :=
  match data with
  | Str cps =>
      match encode_latin1 cps with
      | Some b => ret b
      | None => raise UnicodeEncodeError
      end
  | ByteArray b => ret b
  | Bytes b => ret b
  end.

(** What [write] sends for its argument, when it can be encoded. *)
Definition as_bytes (data : pydata) : option bytes :=
  match data with
  | Str cps => encode_latin1 cps
  | Bytes b => Some b
  | ByteArray b => Some b
  end.

(** ** Relations that a computation keeps

    [keeps R m]: whatever [m] does, and however it ends, the state it
    leaves is related by [R] to the state it found. *)

Definition keeps {S A} (R : S -> S -> Prop) (m : M S A) : Prop :=
  forall s, R s (snd (m s)).

Definition preorder {S} (R : S -> S -> Prop) : Prop :=
  (forall s, R s s) /\ (forall s1 s2 s3, R s1 s2 -> R s2 s3 -> R s1 s3).

(** ** [nolpy/proc.py] *)

Module Proc.

(** *** Pipes

    [sh] and [ex] spawn the child with [bufsize=0], so the three streams
    of the [Popen] object are raw [FileIO] objects over pipe ends.  What
    the child does is not the wrapper's business: the answers of the
    operating system to the coming [read] calls are part of the state, in
    the order in which they will be given. *)

Inductive answer : Type :=
| Gives (b : bytes)
| Fails (e : exn).

Record fileio : Type := mkFileIO {
  closed : bool;          (* the file object was closed *)
  fd_valid : bool;        (* the descriptor is still open in the kernel *)
  flags : Z;              (* file status flags of the descriptor *)
  feed : list answer;     (* answers to the coming reads *)
  log : list io_op        (* what was written and flushed *)
}.

Definition O_NONBLOCK : Z := 2048.

Definition nonblocking (f : fileio) : bool :=
  negb (Z.land (flags f) O_NONBLOCK =? 0)%Z.

Definition with_closed (c : bool) (f : fileio) : fileio :=
  mkFileIO c (fd_valid f) (flags f) (feed f) (log f).

Definition with_flags (fl : Z) (f : fileio) : fileio :=
  mkFileIO (closed f) (fd_valid f) fl (feed f) (log f).

Definition with_feed (a : list answer) (f : fileio) : fileio :=
  mkFileIO (closed f) (fd_valid f) (flags f) a (log f).

Definition with_log (l : list io_op) (f : fileio) : fileio :=
  mkFileIO (closed f) (fd_valid f) (flags f) (feed f) l.

(** [stream.fileno()] *)
Definition fileno : M fileio unit :=
  fun f => if closed f then (Exc ValueError, f) else (Ret tt, f).

(** [fcntl.fcntl(fd, fcntl.F_GETFL)] *)
Definition fcntl_getfl : M fileio Z :=
  fun f => if fd_valid f then (Ret (flags f), f) else (Exc OSError, f).

(** [fcntl.fcntl(fd, fcntl.F_SETFL, fl)] *)
Definition fcntl_setfl (fl : Z) : M fileio unit :=
  fun f => if fd_valid f then (Ret tt, with_flags fl f) else (Exc OSError, f).

(** [stream.read(n)].  With nothing left to answer, a descriptor in
    non-blocking mode gives [None] and a blocking one never returns.  The
    size [n] bounds the answer and does not choose it. *)
Definition fileio_read (n : Z) : M fileio pyval :=
  fun f =>
    if closed f then (Exc ValueError, f)
    else if negb (fd_valid f) then (Exc OSError, f)
    else match feed f with
         | Gives b :: rest => (Ret (PBytes b), with_feed rest f)
         | Fails e :: rest => (Exc e, with_feed rest f)
         | [] => if nonblocking f then (Ret PNone, f) else (Hang, f)
         end.

(** [stream.readline(limit)].  A raw [FileIO] has no [peek], so the loop
    of [IOBase.readline] asks [read] for one byte at a time and every
    request takes the next answer.  It ends at an empty answer, behind a
    line feed, or with [limit] bytes gathered; an answer that is not
    bytes is an [OSError], and an exception of [read] loses what was
    gathered.  A turn that goes on has used up an answer, so one turn
    more than there are answers is enough. *)
Fixpoint readline_loop (turns : nat) (limit : Z) (buffer : bytes)
    : M fileio pyval :=
  match turns with
  | O => fun f => (Fuel, f)
  | S k =>
      if ((limit <? 0) || (len buffer <? limit))%Z then
        v <- fileio_read 1 ;;
        match v with
        | PNone => raise OSError
        | PBytes [] => ret (PBytes buffer)
        | PBytes (b :: bs) =>
            if Byte.eqb (last (b :: bs) b) x0a
            then ret (PBytes (buffer ++ b :: bs))
            else readline_loop k limit (buffer ++ b :: bs)
        end
      else ret (PBytes buffer)
  end.

Definition fileio_readline (limit : Z) : M fileio pyval :=
  fun f => readline_loop (S (length (feed f))) limit [] f.

(** [stream.write(data)] *)
Definition fileio_write (data : bytes) : M fileio Z :=
  fun f =>
    if closed f then (Exc ValueError, f)
    else if negb (fd_valid f) then (Exc OSError, f)
    else (Ret (len data), with_log (log f ++ [Wrote data]) f).

(** [stream.flush()] *)
Definition fileio_flush : M fileio unit :=
  fun f =>
    if closed f then (Exc ValueError, f)
    else (Ret tt, with_log (log f ++ [Flushed]) f).

(** [stream.close()]: closing twice is allowed. *)
Definition fileio_close : M fileio unit :=
  fun f => (Ret tt, mkFileIO true false (flags f) (feed f) (log f)).

(** *** The child process *)

Inductive signal : Type := SIGTERM | SIGKILL.

Record popen : Type := mkPopen {
  returncode : option Z;   (* [None] while the child runs *)
  term_exits : bool;       (* the child exits within the 0.1 s that [close] waits *)
  sent : list signal
}.

(** *** The objects a [ProcessProxy] reaches

    [_stdin] and [_stdout] alias [proc.stdin] and [proc.stdout]; [print]
    writes to [sys.stdout.buffer] and [sys.stderr.buffer]. *)

Record ProcessProxy : Type := mkProxy {
  _stdin : option fileio;
  _stdout : option fileio;
  stderr : option fileio;
  _proc : popen;
  _auto_drain : bool;
  _closed : bool;
  sys_stdout : list io_op;
  sys_stderr : list io_op
}.

Inductive stream_name : Type := Stdin | Stdout | Stderr.

Definition stream_eqb (a b : stream_name) : bool :=
  match a, b with
  | Stdin, Stdin | Stdout, Stdout | Stderr, Stderr => true
  | _, _ => false
  end.

Definition get_stream (fd : stream_name) (w : ProcessProxy) : option fileio :=
  match fd with
  | Stdin => _stdin w
  | Stdout => _stdout w
  | Stderr => stderr w
  end.

Definition set_stream (fd : stream_name) (f : option fileio)
    (w : ProcessProxy) : ProcessProxy :=
  match fd with
  | Stdin => mkProxy f (_stdout w) (stderr w) (_proc w) (_auto_drain w)
               (_closed w) (sys_stdout w) (sys_stderr w)
  | Stdout => mkProxy (_stdin w) f (stderr w) (_proc w) (_auto_drain w)
                (_closed w) (sys_stdout w) (sys_stderr w)
  | Stderr => mkProxy (_stdin w) (_stdout w) f (_proc w) (_auto_drain w)
                (_closed w) (sys_stdout w) (sys_stderr w)
  end.

Definition set_proc (p : popen) (w : ProcessProxy) : ProcessProxy :=
  mkProxy (_stdin w) (_stdout w) (stderr w) p (_auto_drain w) (_closed w)
    (sys_stdout w) (sys_stderr w).

Definition set_closed (c : bool) (w : ProcessProxy) : ProcessProxy :=
  mkProxy (_stdin w) (_stdout w) (stderr w) (_proc w) (_auto_drain w) c
    (sys_stdout w) (sys_stderr w).

(** Run a method of one of the stream objects. *)
Definition on {A} (fd : stream_name) (m : M fileio A) : M ProcessProxy A :=
  fun w =>
    match get_stream fd w with
    | Some f => let (o, f') := m f in (o, set_stream fd (Some f') w)
    | None => (Exc AttributeError, w)
    end.

Definition is_some {A} (o : option A) : bool :=
  match o with Some _ => true | None => false end.

(** *** [ProcessProxy.write] *)
Definition write (data : pydata) : M ProcessProxy Z :=
  s <- gets _stdin ;;
  c <- gets _closed ;;
  if negb (is_some s) || c then ret 0%Z
  else
    d <- to_bytes data ;;
    n <- on Stdin (fileio_write d) ;;
    on Stdin fileio_flush ;;
    ret n.

(** *** [ProcessProxy.read] *)
Definition read (n : Z) : M ProcessProxy pyval :=
  s <- gets _stdout ;;
  c <- gets _closed ;;
  if negb (is_some s) || c then ret (PBytes [])
  else on Stdout (fileio_read n).

(** *** [ProcessProxy.readline] *)
Definition readline (limit : Z) : M ProcessProxy pyval :=
  s <- gets _stdout ;;
  c <- gets _closed ;;
  if negb (is_some s) || c then ret (PBytes [])
  else on Stdout (fileio_readline limit).

(** *** [ProcessProxy.drain] *)

(** [while True: if not stream.read(4096): break].  Every turn uses up
    one answer of the feed, which bounds the number of turns. *)
Fixpoint read_until_falsy (turns : nat) : M fileio unit :=
  match turns with
  | O => fun f => (Fuel, f)
  | S k =>
      data <- fileio_read 4096 ;;
      if truthy data then read_until_falsy k else ret tt
  end.

Definition drain_reads : M fileio unit :=
  fun f => read_until_falsy (S (length (feed f))) f.

Definition IOError_or_ValueError (e : exn) : bool :=
  is_OSError e || is_ValueError e.

Definition _drain_stream (fd : stream_name) : M ProcessProxy unit :=
  s <- gets (get_stream fd) ;;
  if negb (is_some s) then ret tt
  else
    try_except
      (on fd fileno ;;
       fl <- on fd fcntl_getfl ;;
       on fd (fcntl_setfl (Z.lor fl O_NONBLOCK)) ;;
       try_finally
         (try_except (on fd drain_reads) IOError_or_ValueError (ret tt))
         (on fd (fcntl_setfl fl)))
      IOError_or_ValueError
      (ret tt).

Definition drain : M ProcessProxy unit :=
  c <- gets _closed ;;
  if c then ret tt
  else
    _drain_stream Stdout ;;
    _drain_stream Stderr.

(** *** [ProcessProxy.print] *)

Definition _make_nonblocking (fd : stream_name) : M ProcessProxy unit :=
  s <- gets (get_stream fd) ;;
  if negb (is_some s) then ret tt
  else
    on fd fileno ;;
    fl <- on fd fcntl_getfl ;;
    on fd (fcntl_setfl (Z.lor fl O_NONBLOCK)).

Definition mem (fd : stream_name) (l : list stream_name) : bool :=
  existsb (stream_eqb fd) l.

(** [sel.unregister(fileobj)] *)
Definition unregister (fd : stream_name) (sel : list stream_name) :
    list stream_name :=
  filter (fun x => negb (stream_eqb fd x)) sel.

(** [fds_active.remove(fileobj)]: drops the first occurrence. *)
Fixpoint list_remove (fd : stream_name) (l : list stream_name) :
    list stream_name :=
  match l with
  | [] => []
  | x :: rest => if stream_eqb fd x then rest else x :: list_remove fd rest
  end.

(** The sink registered as [key.data]. *)
Definition sink_write (fd : stream_name) (data : bytes) : M ProcessProxy unit :=
  fun w =>
    match fd with
    | Stderr =>
        (Ret tt, mkProxy (_stdin w) (_stdout w) (stderr w) (_proc w)
                   (_auto_drain w) (_closed w) (sys_stdout w)
                   (sys_stderr w ++ [Wrote data]))
    | _ =>
        (Ret tt, mkProxy (_stdin w) (_stdout w) (stderr w) (_proc w)
                   (_auto_drain w) (_closed w) (sys_stdout w ++ [Wrote data])
                   (sys_stderr w))
    end.

Definition sink_flush (fd : stream_name) : M ProcessProxy unit :=
  fun w =>
    match fd with
    | Stderr =>
        (Ret tt, mkProxy (_stdin w) (_stdout w) (stderr w) (_proc w)
                   (_auto_drain w) (_closed w) (sys_stdout w)
                   (sys_stderr w ++ [Flushed]))
    | _ =>
        (Ret tt, mkProxy (_stdin w) (_stdout w) (stderr w) (_proc w)
                   (_auto_drain w) (_closed w) (sys_stdout w ++ [Flushed])
                   (sys_stderr w))
    end.

(** [sel.select(timeout=timeout)].  [ready] lists the streams that become
    readable before the timeout runs out; the selector reports those it
    has registered, each one once. *)
Fixpoint dedup (seen l : list stream_name) : list stream_name :=
  match l with
  | [] => []
  | x :: rest =>
      if mem x seen then dedup seen rest else x :: dedup (x :: seen) rest
  end.

Definition select (sel ready : list stream_name) : list stream_name :=
  filter (fun fd => mem fd sel) (dedup [] ready).

(** The body of [for key, _ in events].  [sel] and [fds_active] are
    locals of [print] and are passed along. *)
Definition handle_event (fd : stream_name) (sel active : list stream_name) :
    M ProcessProxy (list stream_name * list stream_name) :=
  data <- try_except (on fd (fileio_read 4096)) is_Exception (ret PNone) ;;
  match data with
  | PBytes (b :: bs) =>
      sink_write fd (b :: bs) ;;
      sink_flush fd ;;
      ret (sel, active)
  | _ =>
      let sel' := unregister fd sel in
      ret (sel', if mem fd active then list_remove fd active else active)
  end.

Fixpoint for_events (events sel active : list stream_name) :
    M ProcessProxy (list stream_name * list stream_name) :=
  match events with
  | [] => ret (sel, active)
  | fd :: rest =>
      st <- handle_event fd sel active ;;
      for_events rest (fst st) (snd st)
  end.

(** [self._proc.poll()] *)
Definition poll : M ProcessProxy (option Z) :=
  gets (fun w => returncode (_proc w)).

(** [while fds_active: ...].  One element of [script] per call of
    [select]: the streams becoming readable within that wait.  When the
    script is used up nothing becomes readable any more and [select]
    times out. *)
Fixpoint print_loop (script : list (list stream_name))
    (sel active : list stream_name) : M ProcessProxy unit :=
  match active with
  | [] => ret tt
  | _ :: _ =>
      match script with
      | [] => ret tt
      | ready :: later =>
          match select sel ready with
          | [] => ret tt
          | events =>
              st <- for_events events sel active ;;
              rc <- poll ;;
              match rc, snd st with
              | Some _, [] => ret tt
              | _, _ => print_loop later (fst st) (snd st)
              end
          end
      end
  end.

(** The two [if stream: ...] blocks in front of the loop. *)
Definition register (fd : stream_name) (sel active : list stream_name) :
    M ProcessProxy (list stream_name * list stream_name) :=
  s <- gets (get_stream fd) ;;
  if is_some s then
    _make_nonblocking fd ;;
    on fd fileno ;;
    ret (sel ++ [fd], active ++ [fd])
  else ret (sel, active).

Definition print (script : list (list stream_name)) : M ProcessProxy unit :=
  c <- gets _closed ;;
  if c then ret tt
  else
    st1 <- register Stdout [] [] ;;
    st2 <- register Stderr (fst st1) (snd st1) ;;
    try_finally (print_loop script (fst st2) (snd st2)) (ret tt).

(** *** [ProcessProxy.close] *)

Definition close_stream (fd : stream_name) : M ProcessProxy unit :=
  s <- gets (get_stream fd) ;;
  if is_some s then on fd fileio_close else ret tt.

(** [Popen.terminate()] does nothing once the return code is known. *)
Definition terminate : M ProcessProxy unit :=
  modify (fun w =>
    match returncode (_proc w) with
    | Some _ => w
    | None =>
        set_proc (mkPopen None (term_exits (_proc w))
                    (sent (_proc w) ++ [SIGTERM])) w
    end).

Definition kill : M ProcessProxy unit :=
  modify (fun w =>
    match returncode (_proc w) with
    | Some _ => w
    | None =>
        set_proc (mkPopen None (term_exits (_proc w))
                    (sent (_proc w) ++ [SIGKILL])) w
    end).

(** [Popen.wait(timeout=0.1)] *)
Definition wait_timeout : M ProcessProxy unit :=
  fun w =>
    match returncode (_proc w) with
    | Some _ => (Ret tt, w)
    | None =>
        if term_exits (_proc w)
        then (Ret tt, set_proc (mkPopen (Some (-15)%Z) true (sent (_proc w))) w)
        else (Exc TimeoutExpired, w)
    end.

Definition TimeoutExpired_or_ProcessLookupError (e : exn) : bool :=
  is_TimeoutExpired e || is_ProcessLookupError e.

Definition close : M ProcessProxy unit :=
  c <- gets _closed ;;
  if c then ret tt
  else
    ad <- gets _auto_drain ;;
    (if ad then drain else ret tt) ;;
    close_stream Stdin ;;
    close_stream Stdout ;;
    close_stream Stderr ;;
    try_except
      (rc <- poll ;;
       match rc with
       | None => terminate ;; wait_timeout
       | Some _ => ret tt
       end)
      TimeoutExpired_or_ProcessLookupError
      (try_except
         (rc <- poll ;;
          match rc with
          | None => kill
          | Some _ => ret tt
          end)
         is_ProcessLookupError
         (ret tt)) ;;
    modify (set_closed true).

(** *** What [drain] and [print] come to *)

(** The drain loop takes answers as long as they are data; the first
    answer that is none ends it and is used up as well. *)
Fixpoint after_drain (a : list answer) : list answer :=
  match a with
  | [] => []
  | Gives (_ :: _) :: rest => after_drain rest
  | Gives [] :: rest => rest
  | Fails _ :: rest => rest
  end.

(** How the loop ends: by itself, or on the error of a read. *)
Fixpoint drain_end (a : list answer) : outcome unit :=
  match a with
  | [] => Ret tt
  | Gives (_ :: _) :: rest => drain_end rest
  | Gives [] :: _ => Ret tt
  | Fails e :: _ => Exc e
  end.

Definition usable (f : fileio) : bool := negb (closed f) && fd_valid f.

(** A stream after [_drain_stream]: a closed or invalid one is left
    alone. *)
Definition drained_stream (s : option fileio) : option fileio :=
  match s with
  | Some f =>
      if usable f then Some (with_feed (after_drain (feed f)) f) else Some f
  | None => None
  end.

Definition drained (w : ProcessProxy) : ProcessProxy :=
  if _closed w then w
  else
    set_stream Stderr (drained_stream (stderr w))
      (set_stream Stdout (drained_stream (_stdout w)) w).

(** The reads of a stream fail with nothing but errors of the classes
    [cls]. *)
Definition fails_within (cls : exn -> bool) (s : option fileio) : bool :=
  match s with
  | Some f =>
      forallb (fun a => match a with Fails e => cls e | Gives _ => true end)
        (feed f)
  | None => true
  end.

(** The reads that reach the descriptor of a stream fail with nothing
    but errors of the classes [cls].  On a closed file or an invalid
    descriptor no read gets that far. *)
Definition read_errors_within (cls : exn -> bool) (s : option fileio) : bool :=
  match s with
  | Some f => negb (usable f) || fails_within cls (Some f)
  | None => true
  end.

(** The streams that [print] registers can be registered: each is
    missing, or open over a valid descriptor. *)
Definition registrable (w : ProcessProxy) : bool :=
  match _stdout w with Some f => usable f | None => true end
  && match stderr w with Some f => usable f | None => true end.

(** The next read of a stream gives no data: an error, an empty result,
    or nothing at all. *)
Definition next_read_falsy (s : option fileio) : bool :=
  match s with
  | Some f =>
      closed f || negb (fd_valid f)
      || match feed f with
         | Gives (_ :: _) :: _ => false
         | Gives [] :: _ => true
         | Fails e :: _ => is_Exception e
         | [] => nonblocking f
         end
  | None => true
  end.

(** *** Notions used to state what the methods do *)

(** An outcome of the drain loop as [_drain_stream] passes it on. *)
Definition absorb (o : outcome unit) : outcome unit :=
  match o with
  | Exc e => if IOError_or_ValueError e then Ret tt else Exc e
  | o => o
  end.

Definition flags_of (fd : stream_name) (w : ProcessProxy) : option Z :=
  option_map flags (get_stream fd w).

Definition same_flags (w w' : ProcessProxy) : Prop :=
  forall fd, flags_of fd w' = flags_of fd w.

Definition stdout_flags_kept (w w' : ProcessProxy) : Prop :=
  flags_of Stdout w' = flags_of Stdout w.

(** What [print] has read and written: the answers still to come on the
    two streams, and the two sinks. *)
Definition traffic (w : ProcessProxy) :=
  (option_map feed (_stdout w), option_map feed (stderr w),
   sys_stdout w, sys_stderr w).

Definition same_traffic (w w' : ProcessProxy) : Prop :=
  traffic w' = traffic w.

(** The read of [handle_event] with its [except Exception]. *)
Definition guarded_read (fd : stream_name) : M ProcessProxy pyval :=
  try_except (on fd (fileio_read 4096)) is_Exception (ret PNone).

Definition calm (s : option fileio) : Prop :=
  match s with
  | Some f => nonblocking f = true /\ fails_within is_Exception (Some f) = true
  | None => True
  end.

Definition all_calm (sel : list stream_name) (w : ProcessProxy) : Prop :=
  forall fd, mem fd sel = true -> calm (get_stream fd w).

Definition untouched (fd : stream_name) (w w' : ProcessProxy) : Prop :=
  get_stream fd w' = get_stream fd w.

End Proc.

(** ** Text helpers of the Python runtime

    [http.client] decodes what it reads as ISO-8859-1, one character per
    byte, so text is kept as bytes here. *)

Definition lit (s : string) : bytes := list_byte_of_string s.

Definition CR : byte := x0d.
Definition LF : byte := x0a.
Definition CRLF : bytes := [CR; LF].

Definition in_range (lo hi : Z) (b : byte) : bool :=
  ((lo <=? byte_val b) && (byte_val b <=? hi))%Z.

Fixpoint bytes_eqb (a b : bytes) : bool :=
  match a, b with
  | [], [] => true
  | x :: a', y :: b' => Byte.eqb x y && bytes_eqb a' b'
  | _, _ => false
  end.

(** [s.startswith(prefix)] *)
Fixpoint startswith (prefix s : bytes) : bool :=
  match prefix, s with
  | [], _ => true
  | x :: p', y :: s' => Byte.eqb x y && startswith p' s'
  | _ :: _, [] => false
  end.

Fixpoint dropwhile (p : byte -> bool) (s : bytes) : bytes :=
  match s with
  | [] => []
  | b :: rest => if p b then dropwhile p rest else s
  end.

Fixpoint takewhile (p : byte -> bool) (s : bytes) : bytes :=
  match s with
  | [] => []
  | b :: rest => if p b then b :: takewhile p rest else []
  end.

Definition lstrip (p : byte -> bool) (s : bytes) : bytes := dropwhile p s.

Definition rstrip (p : byte -> bool) (s : bytes) : bytes :=
  rev (dropwhile p (rev s)).

(** The C-level [Py_ISSPACE]: what [int()] skips around a [bytes]
    argument. *)
Definition c_isspace (b : byte) : bool :=
  in_range 9 13 b || Byte.eqb b x20.

(** What [int()] skips around a [str] argument: the non-ASCII spaces are
    turned into blanks first, the ASCII separators 0x1c to 0x1f are not. *)
Definition int_str_space (b : byte) : bool :=
  c_isspace b || Byte.eqb b x85 || Byte.eqb b xa0.

(** [str.isspace] on the characters below 256: what [str.split()] splits
    at. *)
Definition str_isspace (b : byte) : bool :=
  c_isspace b || in_range 28 31 b || Byte.eqb b x85 || Byte.eqb b xa0.

(** [c.lower()] on ASCII.  The other characters below 256 stay outside
    ASCII when lowered, so comparing a lowered text with an ASCII word
    needs no more. *)
Definition lower_byte (b : byte) : byte :=
  if in_range 65 90 b
  then match Byte.of_N (Byte.to_N b + 32) with Some c => c | None => b end
  else b.

Definition lower (s : bytes) : bytes := map lower_byte s.

(** Digit value of a character in [int()], for bases up to 36. *)
Definition digit_value (b : byte) : option Z :=
  if in_range 48 57 b then Some (byte_val b - 48)%Z
  else if in_range 97 122 b then Some (byte_val b - 87)%Z
  else if in_range 65 90 b then Some (byte_val b - 55)%Z
  else None.

Definition underscore : byte := x5f.

(** The digit scan of [int()]: digits below [base], single underscores
    allowed between two digits only. *)
Fixpoint scan_digits (base : Z) (s : bytes) (acc : Z) (after_digit : bool) :
    option Z :=
  match s with
  | [] => if after_digit then Some acc else None
  | b :: rest =>
      if Byte.eqb b underscore then
        if after_digit then
          match rest with
          | [] => None
          | _ :: _ => scan_after_underscore base rest acc
          end
        else None
      else
        match digit_value b with
        | Some d =>
            if (d <? base)%Z then scan_digits base rest (acc * base + d)%Z true
            else None
        | None => None
        end
  end
with scan_after_underscore (base : Z) (s : bytes) (acc : Z) : option Z :=
  match s with
  | [] => None
  | b :: rest =>
      match digit_value b with
      | Some d =>
          if (d <? base)%Z then scan_digits base rest (acc * base + d)%Z true
          else None
      | None => None
      end
  end.

(** [int(s, base)] for base 10 and base 16: surrounding white space, one
    sign, for base 16 an optional [0x] or [0X] (which one underscore may
    follow), then the digits.  [None] stands for [ValueError]. *)
Definition py_int (space : byte -> bool) (base : Z) (s : bytes) : option Z :=
  let body := rstrip space (lstrip space s) in
  let (negative, unsigned) :=
    match body with
    | b :: rest =>
        if Byte.eqb b x2d then (true, rest)
        else if Byte.eqb b x2b then (false, rest)
        else (false, body)
    | [] => (false, body)
    end in
  let digits :=
    match unsigned with
    | z :: x :: rest =>
        if (base =? 16)%Z && Byte.eqb z x30 && (Byte.eqb x x78 || Byte.eqb x x58)
        then match rest with
             | u :: rest' => if Byte.eqb u underscore then rest' else rest
             | [] => rest
             end
        else unsigned
    | _ => unsigned
    end in
  match scan_digits base digits 0 false with
  | Some v => Some (if negative then (- v)%Z else v)
  | None => None
  end.

(** ** [http.client.HTTPResponse]

    [read_http_res] hands the framing to the standard library:
    [HTTPResponse.begin] reads the status line and the headers,
    [HTTPResponse.read] the body.  The functions below follow
    [Lib/http/client.py] and, for the header block, the [email] feed
    parser behind [parse_headers].  The response object is created with
    [method=None] and debug level 0, and it only ever calls [readline] and
    [read] of the file it is given; [close] of that file does nothing. *)

Module HttpClient.

Definition _MAXLINE : Z := 65536.
Definition _MAXHEADERS : nat := 100.

(** *** The header block as the [email] package sees it *)

(** The lines of a text, line ends kept, as [StringIO(newline="")] cracks
    them: after LF, after CR LF, and after a CR that no LF follows. *)
Fixpoint crack (cur : bytes) (s : bytes) : list bytes :=
  match s with
  | [] => match cur with [] => [] | _ => [cur] end
  | b :: rest =>
      if Byte.eqb b LF then (cur ++ [b]) :: crack [] rest
      else if Byte.eqb b CR then
        match rest with
        | c :: rest' =>
            if Byte.eqb c LF then (cur ++ [b; c]) :: crack [] rest'
            else (cur ++ [b]) :: crack [] rest
        | [] => [cur ++ [b]]
        end
      else crack (cur ++ [b]) rest
  end.

Definition is_blank (b : byte) : bool := Byte.eqb b x20 || Byte.eqb b x09.

Definition is_CRLF (b : byte) : bool := Byte.eqb b CR || Byte.eqb b LF.

Definition is_colon (b : byte) : bool := Byte.eqb b x3a.

(** The class [\041-\071\073-\176] of [headerRE]. *)
Definition is_ftext (b : byte) : bool :=
  in_range 33 57 b || in_range 59 126 b.

Definition starts_blank (line : bytes) : bool :=
  match line with
  | b :: _ => is_blank b
  | [] => false
  end.

(** [headerRE.match(line)] *)
Definition headerRE_match (line : bytes) : bool :=
  startswith (lit "From ") line
  || match dropwhile is_ftext line with
     | b :: _ => is_colon b
     | [] => false
     end
  || starts_blank line.

(** The lines [_parsegen] collects: up to the first one that does not
    look like a header. *)
Fixpoint collect_headers (lines : list bytes) : list bytes :=
  match lines with
  | [] => []
  | line :: rest =>
      if headerRE_match line then line :: collect_headers rest else []
  end.

(** [compat32.header_source_parse] *)
Definition header_source_parse (sourcelines : list bytes) : bytes * bytes :=
  match sourcelines with
  | [] => ([], [])
  | first :: more =>
      let name := takewhile (fun b => negb (is_colon b)) first in
      let value := tl (dropwhile (fun b => negb (is_colon b)) first) in
      (name, rstrip is_CRLF (lstrip is_blank value ++ concat more))
  end.

Definition flush_header (lastvalue : list bytes)
    (headers : list (bytes * bytes)) : list (bytes * bytes) :=
  match lastvalue with
  | [] => headers
  | _ :: _ => headers ++ [header_source_parse lastvalue]
  end.

(** [FeedParser._parse_headers]; [lastvalue] is empty exactly when
    [lastheader] is. *)
Fixpoint _parse_headers (lines : list bytes) (lastvalue : list bytes)
    (headers : list (bytes * bytes)) : list (bytes * bytes) :=
  match lines with
  | [] => flush_header lastvalue headers
  | line :: rest =>
      if starts_blank line then
        match lastvalue with
        | [] => _parse_headers rest [] headers
        | _ :: _ => _parse_headers rest (lastvalue ++ [line]) headers
        end
      else
        let headers' := flush_header lastvalue headers in
        if startswith (lit "From ") line then _parse_headers rest [] headers'
        else
          match line with
          | b :: _ =>
              if is_colon b then _parse_headers rest [] headers'
              else _parse_headers rest [line] headers'
          | [] => _parse_headers rest [] headers'
          end
  end.

(** [email.parser.Parser().parsestr(hstring)], headers only. *)
Definition parsestr (hstring : bytes) : list (bytes * bytes) :=
  _parse_headers (collect_headers (crack [] hstring)) [] [].

(** [Message.get(name)] for a lower-case [name]. *)
Fixpoint get (name : bytes) (headers : list (bytes * bytes)) : option bytes :=
  match headers with
  | [] => None
  | (k, v) :: rest => if bytes_eqb (lower k) name then Some v else get name rest
  end.

(** [line.split(None, 2)] with the fall-back to [line.split(None, 1)] of
    [_read_status]: the version and the status text.  With fewer than two
    words the version is empty. *)
Definition split_status (line : bytes) : bytes * bytes :=
  let word := fun b => negb (str_isspace b) in
  let s1 := lstrip str_isspace line in
  let version := takewhile word s1 in
  let s2 := lstrip str_isspace (dropwhile word s1) in
  let s3 := lstrip str_isspace (dropwhile word s2) in
  match s2, s3 with
  | [], _ => ([], [])
  | _ :: _, [] => (version, s2)
  | _ :: _, _ :: _ => (version, takewhile word s2)
  end.

(** The fields of the response object that steer [read]. *)
Record HTTPResponse : Type := mkResponse {
  status : Z;
  chunked : bool;
  length_ : option Z
}.

Section Response.

Context {S : Type}.

(** [self.fp.readline] and [self.fp.read] *)
Variable fp_readline : Z -> M S bytes.
Variable fp_read : Z -> M S bytes.

(** The loops below that have no bound of their own take at least one
    byte from the file in every turn; [turns_of] says how many turns the
    bytes at hand allow. *)
Variable turns_of : S -> nat.

Definition out_of_fuel {A} : M S A := fun s => (Fuel, s).

Definition with_turns {A} (loop : nat -> M S A) : M S A :=
  fun s => loop (turns_of s) s.

(** [_read_headers(fp)]: [room] is [_MAXHEADERS + 1 - len(headers)]. *)
Fixpoint read_header_lines (room : nat) (headers : list bytes) :
    M S (list bytes) :=
  line <- fp_readline (_MAXLINE + 1) ;;
  if (len line >? _MAXLINE)%Z then raise LineTooLong
  else
    match room with
    | O => raise HTTPException
    | Datatypes.S room' =>
        if bytes_eqb line CRLF || bytes_eqb line [LF] || bytes_eqb line []
        then ret (headers ++ [line])
        else read_header_lines room' (headers ++ [line])
    end.

Definition _read_headers : M S (list bytes) :=
  read_header_lines _MAXHEADERS [].

(** [parse_headers(fp)] *)
Definition parse_headers : M S (list (bytes * bytes)) :=
  headers <- _read_headers ;;
  ret (parsestr (concat headers)).

(** [HTTPResponse._read_status] *)
Definition _read_status : M S (bytes * Z) :=
  line <- fp_readline (_MAXLINE + 1) ;;
  if (len line >? _MAXLINE)%Z then raise LineTooLong
  else
    match line with
    | [] => raise RemoteDisconnected
    | _ :: _ =>
        let (version, status_text) := split_status line in
        if negb (startswith (lit "HTTP/") version) then raise BadStatusLine
        else
          match py_int int_str_space 10 status_text with
          | Some st =>
              if (st <? 100)%Z || (st >? 999)%Z then raise BadStatusLine
              else ret (version, st)
          | None => raise BadStatusLine
          end
    end.

(** The loop at the head of [begin]: read status lines until one is not
    [100 Continue]. *)
Fixpoint read_final_status (turns : nat) : M S (bytes * Z) :=
  match turns with
  | O => out_of_fuel
  | Datatypes.S k =>
      vs <- _read_status ;;
      if (snd vs =? 100)%Z then _read_headers ;; read_final_status k
      else ret vs
  end.

(** [HTTPResponse.begin].  [will_close] is left out: it has no part in
    what [read] reads. *)
Definition begin : M S HTTPResponse :=
  vs <- with_turns read_final_status ;;
  let version := fst vs in
  let st := snd vs in
  (if bytes_eqb version (lit "HTTP/1.0") || bytes_eqb version (lit "HTTP/0.9")
      || startswith (lit "HTTP/1.") version
   then ret tt else raise UnknownProtocol) ;;
  headers <- parse_headers ;;
  let is_chunked :=
    match get (lit "transfer-encoding") headers with
    | Some (b :: tr_enc) => bytes_eqb (lower (b :: tr_enc)) (lit "chunked")
    | _ => false
    end in
  let length :=
    match get (lit "content-length") headers with
    | Some (b :: l) =>
        if is_chunked then None
        else
          match py_int int_str_space 10 (b :: l) with
          | Some n => if (n <? 0)%Z then None else Some n
          | None => None
          end
    | _ => None
    end in
  let length :=
    if (st =? 204)%Z || (st =? 304)%Z || ((100 <=? st)%Z && (st <? 200)%Z)
    then Some 0%Z else length in
  ret (mkResponse st is_chunked length).

(** [HTTPResponse._safe_read] *)
Definition _safe_read (amt : Z) : M S bytes :=
  data <- fp_read amt ;;
  if (len data <? amt)%Z then raise IncompleteRead else ret data.

(** [HTTPResponse._read_next_chunk_size]; [None] of [py_int] is the
    [ValueError] of [int(line, 16)]. *)
Definition _read_next_chunk_size : M S Z :=
  line <- fp_readline (_MAXLINE + 1) ;;
  if (len line >? _MAXLINE)%Z then raise LineTooLong
  else
    let line := takewhile (fun b => negb (Byte.eqb b x3b)) line in
    match py_int c_isspace 16 line with
    | Some n => ret n
    | None => raise ValueError
    end.

(** [HTTPResponse._read_and_discard_trailer] *)
Fixpoint _read_and_discard_trailer (turns : nat) : M S unit :=
  match turns with
  | O => out_of_fuel
  | Datatypes.S k =>
      line <- fp_readline (_MAXLINE + 1) ;;
      if (len line >? _MAXLINE)%Z then raise LineTooLong
      else if bytes_eqb line CRLF || bytes_eqb line [LF] || bytes_eqb line []
      then ret tt
      else _read_and_discard_trailer k
  end.

(** [HTTPResponse._get_chunk_left]; the result is also the new value of
    [self.chunk_left]. *)
Definition _get_chunk_left (chunk_left : option Z) : M S (option Z) :=
  let next :=
    n <- try_except _read_next_chunk_size is_ValueError (raise IncompleteRead) ;;
    if (n =? 0)%Z then with_turns _read_and_discard_trailer ;; ret None
    else ret (Some n) in
  match chunk_left with
  | None => next
  | Some c => if (c =? 0)%Z then _safe_read 2 ;; next else ret (Some c)
  end.

(** [HTTPResponse._read_chunked] with [amt=None]; an [IncompleteRead] is
    raised again as an [IncompleteRead]. *)
Fixpoint _read_chunked (turns : nat) (chunk_left : option Z) (value : bytes) :
    M S bytes :=
  match turns with
  | O => out_of_fuel
  | Datatypes.S k =>
      left <- _get_chunk_left chunk_left ;;
      match left with
      | None => ret value
      | Some n =>
          data <- _safe_read n ;;
          _read_chunked k (Some 0%Z) (value ++ data)
      end
  end.

(** [HTTPResponse.read()] *)
Definition read (r : HTTPResponse) : M S bytes :=
  if chunked r then with_turns (fun turns => _read_chunked turns None [])
  else
    match length_ r with
    | None => fp_read (-1)
    | Some n => _safe_read n
    end.

End Response.

End HttpClient.

(** ** [nolpy/sock.py] *)

Module Sock.

(** *** The socket file

    [sock_open] wraps [sock.makefile(mode="rwb", buffering=0)]: an
    unbuffered file over the socket.  [pending] are the bytes that have
    arrived and were not read yet; [at_eof] tells whether the peer has
    closed behind them.  When it has not, nothing more arrives. *)

Record sockfile : Type := mkSock {
  pending : bytes;
  at_eof : bool;
  closed : bool;
  timeout : option Z;       (* [None]: blocking; [Some 0]: non-blocking *)
  has_settimeout : bool;    (* what [drain] reaches has [settimeout] *)
  log : list io_op
}.

Definition with_pending (b : bytes) (f : sockfile) : sockfile :=
  mkSock b (at_eof f) (closed f) (timeout f) (has_settimeout f) (log f).

Definition with_timeout (t : option Z) (f : sockfile) : sockfile :=
  mkSock (pending f) (at_eof f) (closed f) t (has_settimeout f) (log f).

Definition with_log (l : list io_op) (f : sockfile) : sockfile :=
  mkSock (pending f) (at_eof f) (closed f) (timeout f) (has_settimeout f) l.

(** A read that finds nothing pending on an open connection: it waits
    for ever, gives up at once, or times out. *)
Definition starved (partial : pyval) : M sockfile pyval :=
  fun f =>
    match timeout f with
    | None => (Hang, f)
    | Some t => if (t =? 0)%Z then (Ret partial, f) else (Exc TimeoutError, f)
    end.

(** [obj.read(n)]: one [recv] for [n >= 0], all up to the end of the
    stream for [n < 0]. *)
Definition sock_read (n : Z) : M sockfile pyval :=
  fun f =>
    if closed f then (Exc ValueError, f)
    else if (n <? 0)%Z then
      if at_eof f then (Ret (PBytes (pending f)), with_pending [] f)
      else
        starved (match pending f with [] => PNone | _ => PBytes (pending f) end)
          (with_pending [] f)
    else
      match pending f with
      | [] =>
          if (n =? 0)%Z || at_eof f then (Ret (PBytes []), f)
          else starved PNone f
      | _ :: _ =>
          (Ret (PBytes (firstn (Z.to_nat n) (pending f))),
           with_pending (skipn (Z.to_nat n) (pending f)) f)
      end.

(** The loop of [IOBase.readline] over what is pending: the line read,
    what stays, and whether the loop ended by itself (newline seen or
    limit reached) rather than by running dry. *)
Fixpoint take_line (limit : option nat) (s : bytes) : bytes * bytes * bool :=
  match limit with
  | Some O => ([], s, true)
  | _ =>
      match s with
      | [] => ([], [], false)
      | b :: rest =>
          if Byte.eqb b LF then ([b], rest, true)
          else
            let '(l, r, done) := take_line (option_map pred limit) rest in
            (b :: l, r, done)
      end
  end.

(** [obj.readline(limit)] *)
Definition sock_readline (limit : Z) : M sockfile pyval :=
  fun f =>
    if closed f then (Exc ValueError, f)
    else
      let cap := if (limit <? 0)%Z then None else Some (Z.to_nat limit) in
      let '(line, rest, done) := take_line cap (pending f) in
      if done || at_eof f then (Ret (PBytes line), with_pending rest f)
      else starved (PBytes line) (with_pending rest f).

(** [obj.write(data)] *)
Definition sock_write (data : bytes) : M sockfile Z :=
  fun f =>
    if closed f then (Exc ValueError, f)
    else (Ret (len data), with_log (log f ++ [Wrote data]) f).

(** [obj.flush()] *)
Definition sock_flush : M sockfile unit :=
  fun f =>
    if closed f then (Exc ValueError, f)
    else (Ret tt, with_log (log f ++ [Flushed]) f).

(** [obj.close()] *)
Definition sock_close : M sockfile unit :=
  fun f =>
    (Ret tt, mkSock (pending f) (at_eof f) true (timeout f)
               (has_settimeout f) (log f)).

(** [raw_sock.gettimeout()] *)
Definition gettimeout : M sockfile (option Z) := gets timeout.

(** [raw_sock.settimeout(t)] *)
Definition settimeout (t : option Z) : M sockfile unit :=
  fun f => if closed f then (Exc OSError, f) else (Ret tt, with_timeout t f).

(** *** [FlushProxy] *)

Record FlushProxy : Type := mkFlush {
  _obj : sockfile;
  _auto_drain : bool;
  _closed : bool
}.

Definition on_obj {A} (m : M sockfile A) : M FlushProxy A :=
  fun w => let (o, f') := m (_obj w) in (o, mkFlush f' (_auto_drain w) (_closed w)).

(** [FlushProxy.write] *)
Definition write (data : pydata) : M FlushProxy Z :=
  d <- to_bytes data ;;
  n <- on_obj (sock_write d) ;;
  on_obj sock_flush ;;
  ret n.

(** [FlushProxy.read] *)
Definition read (n : Z) : M FlushProxy pyval := on_obj (sock_read n).

(** [FlushProxy.readline] *)
Definition readline (limit : Z) : M FlushProxy pyval :=
  on_obj (sock_readline limit).

(** [while True: if not self._obj.read(4096): break].  Every turn but the
    last takes at least one pending byte. *)
Fixpoint read_until_falsy (turns : nat) : M sockfile unit :=
  match turns with
  | O => fun f => (Fuel, f)
  | S k =>
      data <- sock_read 4096 ;;
      if truthy data then read_until_falsy k else ret tt
  end.

Definition drain_reads : M sockfile unit :=
  fun f => read_until_falsy (S (length (pending f))) f.

(** [FlushProxy.drain] *)
Definition drain : M FlushProxy unit :=
  try_except
    (hs <- gets (fun w => has_settimeout (_obj w)) ;;
     if hs then
       original_timeout <- on_obj gettimeout ;;
       on_obj (settimeout (Some 0%Z)) ;;
       try_finally
         (try_except (on_obj drain_reads) is_OSError (ret tt))
         (on_obj (settimeout original_timeout))
     else ret tt)
    is_Exception
    (ret tt).

(** [FlushProxy.close] *)
Definition close : M FlushProxy unit :=
  c <- gets _closed ;;
  if c then ret tt
  else
    ad <- gets _auto_drain ;;
    (if ad then drain else ret tt) ;;
    on_obj sock_close ;;
    modify (fun w => mkFlush (_obj w) (_auto_drain w) true).

(** The file after [drain]: when the loop runs, it leaves nothing
    pending. *)
Definition drained (w : FlushProxy) : FlushProxy :=
  if has_settimeout (_obj w) && negb (closed (_obj w))
  then mkFlush (with_pending [] (_obj w)) (_auto_drain w) (_closed w)
  else w.

(** *** [RecordingFile], local to [read_http_res] *)

Record RecordingFile : Type := mkRec {
  fp : sockfile;
  recorded : bytes
}.

Definition on_fp {A} (m : M sockfile A) : M RecordingFile A :=
  fun r => let (o, f') := m (fp r) in (o, mkRec f' (recorded r)).

(** [self.recorded += chunk]; adding [None] to bytes is a [TypeError]. *)
Definition record (chunk : pyval) : M RecordingFile bytes :=
  match chunk with
  | PBytes b => fun r => (Ret b, mkRec (fp r) (recorded r ++ b))
  | PNone => raise TypeError
  end.

Definition rec_read (n : Z) : M RecordingFile bytes :=
  chunk <- on_fp (sock_read n) ;;
  record chunk.

Definition rec_readline (limit : Z) : M RecordingFile bytes :=
  chunk <- on_fp (sock_readline limit) ;;
  record chunk.

(** A loop that takes a byte per turn cannot make more turns than there
    are bytes pending, plus the one in which it finds none. *)
Definition turns_of (r : RecordingFile) : nat :=
  Datatypes.S (length (pending (fp r))).

(** *** [FlushProxy.read_http_res] *)
Definition read_http_res : M FlushProxy bytes :=
  fun w =>
    let recorder := mkRec (_obj w) [] in
    let (o, recorder') :=
      (resp <- HttpClient.begin rec_readline turns_of ;;
       HttpClient.read rec_readline rec_read turns_of resp ;;
       gets recorded) recorder in
    (o, mkFlush (fp recorder') (_auto_drain w) (_closed w)).

End Sock.

(** ** HTTP/1.x responses on the wire

    The messages that the framing theorems range over, built from their
    parts and rendered to bytes: a status line, header fields of the form
    [name ":" OWS value CRLF], a blank line, and a body that is either as
    long as [Content-Length] says or chunked. *)

Module Wire.

Definition SP : byte := x20.
Definition colon : byte := x3a.
Definition semicolon : byte := x3b.

Record field : Type := mkField {
  name : bytes;
  ows : bytes;
  value : bytes
}.

Definition render_field (f : field) : bytes :=
  name f ++ [colon] ++ ows f ++ value f ++ CRLF.

Record chunk : Type := mkChunk {
  size_text : bytes;
  ext : bytes;
  data : bytes
}.

Definition render_chunk (c : chunk) : bytes :=
  size_text c ++ ext c ++ CRLF ++ data c ++ CRLF.

Inductive framing : Type :=
| Fixed (content : bytes)
| Chunked (chunks : list chunk) (last_size last_ext : bytes)
    (trailer : list field).

Record message : Type := mkMessage {
  version : bytes;
  code : bytes;
  reason : bytes;
  fields : list field;
  body : framing
}.

Definition render_status_line (m : message) : bytes :=
  version m ++ [SP] ++ code m ++ [SP] ++ reason m ++ CRLF.

Definition render_head (m : message) : bytes :=
  render_status_line m ++ concat (map render_field (fields m)) ++ CRLF.

Definition render_body (b : framing) : bytes :=
  match b with
  | Fixed content => content
  | Chunked chunks last_size last_ext trailer =>
      concat (map render_chunk chunks)
      ++ last_size ++ last_ext ++ CRLF
      ++ concat (map render_field trailer) ++ CRLF
  end.

Definition render (m : message) : bytes :=
  render_head m ++ render_body (body m).

(** The number a digit string stands for. *)
Definition digits_value (base : Z) (s : bytes) : Z :=
  fold_left
    (fun acc b =>
       (acc * base + match digit_value b with Some d => d | None => 0 end)%Z)
    s 0%Z.

Definition is_digit (b : byte) : bool := in_range 48 57 b.

Definition is_hexdigit (b : byte) : bool :=
  in_range 48 57 b || in_range 97 102 b || in_range 65 70 b.

Definition nonempty (s : bytes) : bool :=
  match s with [] => false | _ :: _ => true end.

(** [reason-phrase = *( HTAB / SP / VCHAR / obs-text )] *)
Definition is_reason_char (b : byte) : bool :=
  Byte.eqb b x09 || in_range 32 126 b || in_range 128 255 b.

Definition no_LF (s : bytes) : bool :=
  forallb (fun b => negb (Byte.eqb b LF)) s.

Definition no_CRLF (s : bytes) : bool :=
  forallb (fun b => negb (HttpClient.is_CRLF b)) s.

(** [field-name ":" OWS field-value CRLF], the value starting and the
    line ending without optional white space. *)
Definition field_syntax (f : field) : bool :=
  nonempty (name f)
  && forallb HttpClient.is_ftext (name f)
  && forallb HttpClient.is_blank (ows f)
  && no_CRLF (value f)
  && negb (HttpClient.starts_blank (value f)).

(** A chunk extension, when there is one, starts with a semicolon and
    stays on the line. *)
Definition wf_ext (e : bytes) : bool :=
  match e with
  | [] => true
  | b :: rest => Byte.eqb b semicolon && no_LF rest
  end.

(** [chunk-size [ chunk-ext ] CRLF chunk-data CRLF] with as many data
    bytes as the size says, and at least one. *)
Definition chunk_syntax (c : chunk) : bool :=
  nonempty (size_text c)
  && forallb is_hexdigit (size_text c)
  && (digits_value 16 (size_text c) =? len (data c))%Z
  && nonempty (data c)
  && wf_ext (ext c).

Definition chunk_line (c : chunk) : bytes := size_text c ++ ext c ++ CRLF.

(** The header fields as name and value pairs. *)
Definition pairs (fs : list field) : list (bytes * bytes) :=
  map (fun f => (name f, value f)) fs.

(** The first [Transfer-Encoding] field says [chunked], in any case of
    letters. *)
Definition says_chunked (fs : list field) : bool :=
  match HttpClient.get (lit "transfer-encoding") (pairs fs) with
  | Some v => bytes_eqb (lower v) (lit "chunked")
  | None => false
  end.

(** The first [Content-Length] field is a plain decimal number. *)
Definition declared_length (fs : list field) : option Z :=
  match HttpClient.get (lit "content-length") (pairs fs) with
  | Some v =>
      if nonempty v && forallb is_digit v then Some (digits_value 10 v)
      else None
  | None => None
  end.

(** The body is framed by what the head announces: not chunked and as
    long as [Content-Length] says, or chunked and ending in a chunk of
    size zero with its trailer. *)
Definition framing_syntax (m : message) : bool :=
  match body m with
  | Fixed content =>
      negb (says_chunked (fields m))
      && match declared_length (fields m) with
         | Some n => (n =? len content)%Z
         | None => false
         end
  | Chunked chunks last_size last_ext trailer =>
      says_chunked (fields m)
      && forallb chunk_syntax chunks
      && nonempty last_size
      && forallb (fun b => Byte.eqb b x30) last_size
      && wf_ext last_ext
      && forallb field_syntax trailer
  end.

Definition status_syntax (m : message) : bool :=
  (bytes_eqb (version m) (lit "HTTP/1.0") || bytes_eqb (version m) (lit "HTTP/1.1"))
  && (length (code m) =? 3)%nat
  && forallb is_digit (code m)
  && (100 <=? digits_value 10 (code m))%Z
  && forallb is_reason_char (reason m).

(** A well-formed head: status line, header fields, blank line. *)
Definition well_formed_head (m : message) : bool :=
  status_syntax m && forallb field_syntax (fields m).

(** One well-formed HTTP/1.x response: status line, header fields, blank
    line, and a body framed by [Content-Length] or by chunks. *)
Definition well_formed (m : message) : bool :=
  well_formed_head m && framing_syntax m.

(** A head that announces no body framing: no [Content-Length] field and
    no [Transfer-Encoding] that says [chunked]. *)
Definition unframed (m : message) : bool :=
  negb (says_chunked (fields m))
  && match HttpClient.get (lit "content-length") (pairs (fields m)) with
     | Some _ => false
     | None => true
     end.

(** Lines longer than [_MAXLINE] are refused by the reader. *)
Definition fits (line : bytes) : bool :=
  (len line <=? HttpClient._MAXLINE)%Z.

(** The limits of the reader: no line of the head or of the chunk
    framing longer than [_MAXLINE], fewer than [_MAXHEADERS] fields. *)
Definition head_within_limits (m : message) : bool :=
  fits (render_status_line m)
  && forallb (fun f => fits (render_field f)) (fields m)
  && (length (fields m) <? HttpClient._MAXHEADERS)%nat.

Definition within_limits (m : message) : bool :=
  head_within_limits m
  && match body m with
     | Fixed _ => true
     | Chunked chunks last_size last_ext trailer =>
         forallb (fun c => fits (chunk_line c)) chunks
         && fits (last_size ++ last_ext ++ CRLF)
         && forallb (fun f => fits (render_field f)) trailer
     end.

(** Status codes whose responses never carry a body. *)
Definition bodiless (st : Z) : bool :=
  ((st =? 204) || (st =? 304) || ((100 <=? st) && (st <? 200)))%Z.

(** One well-formed response with its body: the syntax above, under a
    status that lets a response have a body at all. *)
Definition well_formed_response (m : message) : bool :=
  well_formed m && negb (bodiless (digits_value 10 (code m))).

(** The reader looks for the body that the head announces: always for a
    chunked one unless the status is [100], and for one of a given length
    unless the status has no body. *)
Definition expects_body (m : message) : bool :=
  match body m with
  | Fixed _ => negb (bodiless (digits_value 10 (code m)))
  | Chunked _ _ _ _ => negb (digits_value 10 (code m) =? 100)%Z
  end.

(** *** Bodies that end too early or lose the framing

    As the chunk reader sees what is left of a chunked body: the next
    line, what follows it, whether the line ended by itself, and the size
    it states. *)

Definition next_line (s : bytes) : bytes * bytes * bool :=
  Sock.take_line (Some (Z.to_nat (HttpClient._MAXLINE + 1))) s.

Definition size_field (line : bytes) : option Z :=
  py_int c_isspace 16 (takewhile (fun b => negb (Byte.eqb b x3b)) line).

Inductive fault (eof : bool) (tail : bytes) : Prop :=
| bad_size line rest done :
    (* the chunk-size line is not a hexadecimal number *)
    next_line tail = (line, rest, done) ->
    done || eof = true ->
    size_field line = None ->
    fault eof tail
| short_data line rest done n :
    (* the stream closes before the chunk has its declared bytes *)
    next_line tail = (line, rest, done) ->
    eof = true ->
    size_field line = Some n ->
    (n < 0 \/ len rest < n)%Z ->
    fault eof tail
| short_end line rest done n :
    (* the stream closes inside the CR LF that ends the chunk *)
    next_line tail = (line, rest, done) ->
    eof = true ->
    size_field line = Some n ->
    (0 < n <= len rest)%Z ->
    (length (skipn (Z.to_nat n) rest) < 2)%nat ->
    fault eof tail.

(** An error of the framing, as [http.client] raises it. *)
Definition framing_error {A} (o : outcome A) : Prop :=
  o = Exc IncompleteRead \/ o = Exc LineTooLong.

(** *** Auxiliary notions of the proofs *)

Definition wf_field (f : field) : bool :=
  field_syntax f && fits (render_field f).

Definition wf_chunk (c : chunk) : bool :=
  chunk_syntax c && fits (chunk_line c).

Definition field_content (f : field) : bytes :=
  name f ++ [colon] ++ ows f ++ value f.

Definition word (b : byte) : bool := negb (str_isspace b).

Definition digit_below (base : Z) (b : byte) : bool :=
  match digit_value b with
  | Some d => (d <? base)%Z
  | None => false
  end.

Definition wf_head (m : message) : bool :=
  status_syntax m
  && fits (render_status_line m)
  && forallb wf_field (fields m)
  && (length (fields m) <? HttpClient._MAXHEADERS)%nat.

(** What is left of the body when [begin] has returned [resp] can not be
    framed: it is shorter than the declared length, or, after some whole
    chunks, the chunk framing fails. *)
Inductive body_fault (resp : HttpClient.HTTPResponse) (eof : bool)
    (body : bytes) : Prop :=
| fixed_fault n :
    HttpClient.chunked resp = false ->
    HttpClient.length_ resp = Some n ->
    (len body < n)%Z ->
    eof = true ->
    body_fault resp eof body
| chunked_fault chunks tail :
    HttpClient.chunked resp = true ->
    forallb wf_chunk chunks = true ->
    body = concat (map render_chunk chunks) ++ tail ->
    fault eof tail ->
    body_fault resp eof body.

(** The body length that [begin] arrives at. *)
Definition head_length (m : message) : option Z :=
  if bodiless (digits_value 10 (code m)) then Some 0%Z
  else if says_chunked (fields m) then None
  else
    match HttpClient.get (lit "content-length") (pairs (fields m)) with
    | Some (b :: v) =>
        match py_int int_str_space 10 (b :: v) with
        | Some n => if (n <? 0)%Z then None else Some n
        | None => None
        end
    | _ => None
    end.

(** What the recorder may do to its state: take bytes from the front of
    the file and write them down, in order and without loss. *)
Definition advanced (r r' : Sock.RecordingFile) : Prop :=
  Sock.fp r' = Sock.with_pending (Sock.pending (Sock.fp r')) (Sock.fp r)
  /\ Sock.recorded r ++ Sock.pending (Sock.fp r)
     = Sock.recorded r' ++ Sock.pending (Sock.fp r').

Definition preserves {A} (m : M Sock.RecordingFile A) : Prop :=
  forall r a r', m r = (Ret a, r') -> advanced r r'.

(** Between two chunks the reader is either at the very start of the body
    or in front of the CR LF that ends the chunk just read. *)
Inductive between : option Z -> bytes -> Prop :=
| at_start : between None []
| after_chunk : between (Some 0%Z) CRLF.

(** A byte that [int(s, 16)] can make sense of somewhere in [s]. *)
Definition hexish (b : byte) : bool :=
  c_isspace b || digit_below 16 b || Byte.eqb b underscore
  || Byte.eqb b x2d || Byte.eqb b x2b || Byte.eqb b x78 || Byte.eqb b x58.

End Wire.

(** ** Sample streams

    Concrete messages, sockets and children on which the statements
    below are run. *)

Module Sample.
Import Wire.

(** The chunked response of the test suite:
    [HTTP/1.1 200 OK / Transfer-Encoding: chunked / / 5 / hello / 0 / /]. *)
Definition hello_chunked : message :=
  mkMessage (lit "HTTP/1.1") (lit "200") (lit "OK")
    [mkField (lit "Transfer-Encoding") [SP] (lit "chunked")]
    (Chunked [mkChunk (lit "5") [] (lit "hello")] (lit "0") [] []).

(** A response of five body bytes behind one hundred header fields. *)
Definition hundred_fields : message :=
  mkMessage (lit "HTTP/1.1") (lit "200") (lit "OK")
    (repeat (mkField (lit "X") [SP] (lit "y")) 99
     ++ [mkField (lit "Content-Length") [SP] (lit "5")])
    (Fixed (lit "hello")).

(** A head with neither [Content-Length] nor [Transfer-Encoding]. *)
Definition no_framing : message :=
  mkMessage (lit "HTTP/1.1") (lit "200") (lit "OK")
    [mkField (lit "X") [SP] (lit "y")]
    (Fixed []).

(** A response that announces ten body bytes. *)
Definition ten_bytes : message :=
  mkMessage (lit "HTTP/1.1") (lit "200") (lit "OK")
    [mkField (lit "Content-Length") [SP] (lit "10")]
    (Fixed (lit "0123456789")).

(** The socket file as [sock_open] wraps it by default, with a timeout
    of ten seconds, on which [p] has arrived. *)
Definition arrived (p : bytes) (eof : bool) : Sock.FlushProxy :=
  Sock.mkFlush (Sock.mkSock p eof false (Some 10%Z) false []) true false.

(** An open pipe in blocking mode. *)
Definition pipe (answers : list Proc.answer) : Proc.fileio :=
  Proc.mkFileIO false true 0 answers [].

(** A running child with its three pipes. *)
Definition child (out err : list Proc.answer) : Proc.ProcessProxy :=
  Proc.mkProxy (Some (pipe [])) (Some (pipe out)) (Some (pipe err))
    (Proc.mkPopen None true []) true false [] [].

End Sample.

(** ** [nolpy/proc.py]: the other methods of [ProcessProxy] *)

Module ProcMethods.
Import Proc.

(** [ProcessProxy.send] *)
Definition send (data : pydata) : M ProcessProxy Z := write data.

(** [ProcessProxy.sendall] *)
Definition sendall (data : pydata) : M ProcessProxy unit :=
  write data ;; ret tt.

(** [ProcessProxy.recv] *)
Definition recv (n : Z) : M ProcessProxy pyval := read n.

(** [ProcessProxy.__enter__] returns the wrapper itself. *)
Definition __enter__ : M ProcessProxy unit := ret tt.

(** [ProcessProxy.__exit__] returns [None], so that an exception of the
    block is raised again. *)
Definition __exit__ : M ProcessProxy unit := close.

(** [with p: body] *)
Definition with_ {A} (body : M ProcessProxy A) : M ProcessProxy A :=
  __enter__ ;;
  try_finally body __exit__.

(** [ProcessProxy.__del__] *)
Definition __del__ : M ProcessProxy unit :=
  try_except
    (c <- gets _closed ;;
     if negb c then close else ret tt)
    is_Exception
    (ret tt).

(** *** Notions used to state what the methods do *)

(** The answers still to come on a stream, and the sink that [print]
    gives it. *)
Definition feed_of (fd : stream_name) (w : ProcessProxy) : list answer :=
  match get_stream fd w with
  | Some f => feed f
  | None => []
  end.

Definition sink_of (fd : stream_name) (w : ProcessProxy) : list io_op :=
  match fd with
  | Stderr => sys_stderr w
  | _ => sys_stdout w
  end.

(** What [print] does with the answer of a read: data is written and
    flushed, anything else leaves no trace. *)
Definition emitted (a : answer) : list io_op :=
  match a with
  | Gives (b :: bs) => [Wrote (b :: bs); Flushed]
  | _ => []
  end.

(** From [w] to [w'] some answers of the stream were used up, and what
    they gave is what the sink has received since. *)
Definition forwarded (fd : stream_name) (w w' : ProcessProxy) : Prop :=
  exists used,
    feed_of fd w = used ++ feed_of fd w'
    /\ sink_of fd w' = sink_of fd w ++ flat_map emitted used.

Definition forwards (w w' : ProcessProxy) : Prop :=
  forwarded Stdout w w' /\ forwarded Stderr w w'.

(** A stream after [stream.close()]. *)
Definition shut (s : option fileio) : option fileio :=
  option_map (fun f => mkFileIO true false (flags f) (feed f) (log f)) s.

(** The child after the last part of [close]: left alone when it has
    exited, terminated when it goes within the wait, killed otherwise. *)
Definition signalled (p : popen) : popen :=
  match returncode p with
  | Some _ => p
  | None =>
      if term_exits p
      then mkPopen (Some (-15)%Z) true (sent p ++ [SIGTERM])
      else mkPopen None false (sent p ++ [SIGTERM; SIGKILL])
  end.

(** The wrapper after [close], [w1] being the wrapper after the drain. *)
Definition after_close (w1 : ProcessProxy) : ProcessProxy :=
  mkProxy (shut (_stdin w1)) (shut (_stdout w1)) (shut (stderr w1))
    (signalled (_proc w1)) (_auto_drain w1) true
    (sys_stdout w1) (sys_stderr w1).

(** The file object is closed, or its descriptor is still open: nobody
    has closed the descriptor behind its back. *)
Definition intact (s : option fileio) : bool :=
  match s with
  | Some f => closed f || fd_valid f
  | None => true
  end.

(** What [print] leaves alone: the standard input, the child, the two
    flags of the wrapper, and of the two output streams everything but
    the answers to come and the status flags. *)
Definition kept_open (s s' : option fileio) : Prop :=
  option_map (fun f => (closed f, fd_valid f, log f)) s'
  = option_map (fun f => (closed f, fd_valid f, log f)) s.

Definition only_reads (w w' : ProcessProxy) : Prop :=
  _stdin w' = _stdin w
  /\ _proc w' = _proc w
  /\ _auto_drain w' = _auto_drain w
  /\ _closed w' = _closed w
  /\ kept_open (_stdout w) (_stdout w')
  /\ kept_open (stderr w) (stderr w').

End ProcMethods.

(** ** [nolpy/sock.py]: the other methods of [FlushProxy] *)

Module SockMethods.
Import Sock.

(** [FlushProxy.send] *)
Definition send (data : pydata) : M FlushProxy Z := write data.

(** [FlushProxy.sendall] *)
Definition sendall (data : pydata) : M FlushProxy unit :=
  write data ;; ret tt.

(** [FlushProxy.recv] *)
Definition recv (n : Z) : M FlushProxy pyval := read n.

(** [FlushProxy.__enter__] returns the wrapper itself. *)
Definition __enter__ : M FlushProxy unit := ret tt.

(** [FlushProxy.__exit__] returns [None], so that an exception of the
    block is raised again. *)
Definition __exit__ : M FlushProxy unit := close.

(** [with s: body] *)
Definition with_ {A} (body : M FlushProxy A) : M FlushProxy A :=
  __enter__ ;;
  try_finally body __exit__.

(** [FlushProxy.__del__] *)
Definition __del__ : M FlushProxy unit :=
  try_except close is_Exception (ret tt).

(** *** Notions used to state what the methods do *)

(** From [f] to [f'] bytes were taken from the front of what is pending
    and nothing else of the file has changed. *)
Definition consumed (f f' : sockfile) : Prop :=
  (exists out, pending f = out ++ pending f')
  /\ f' = with_pending (pending f') f.

Definition only_consumes (w w' : FlushProxy) : Prop :=
  consumed (_obj w) (_obj w')
  /\ _auto_drain w' = _auto_drain w
  /\ _closed w' = _closed w.

Definition rec_consumed (r r' : RecordingFile) : Prop :=
  consumed (fp r) (fp r').

(** A head of status [100 Continue], which [http.client] reads and
    drops before the response proper. *)
Definition interim (m : Wire.message) : bool :=
  Wire.well_formed_head m
  && Wire.head_within_limits m
  && (Wire.digits_value 10 (Wire.code m) =? 100)%Z.

End SockMethods.

(** ** [nolpy/proc.py]: starting a child

    [subprocess.Popen] is the operating system's business.  What it is
    asked to start is written down, and what it answers is part of the
    state. *)

Module Spawn.
Import Proc.

(** [env]: a dictionary of names and values. *)
Definition environment : Type := list (bytes * bytes).

(** The first argument of [Popen]: a command line for the shell, or an
    argument vector. *)
Inductive command : Type :=
| Shell (cmd : list N)
| Argv (argv : list bytes).

Record launch : Type := mkLaunch {
  l_args : command;
  l_executable : option bytes;
  l_shell : bool;
  l_env : environment
}.

(** [Popen(...)] gives a process with its three pipes or raises;
    [null_byte] says whether the text of the exception has the words
    [null byte] in it. *)
Inductive popen_answer : Type :=
| Started (p : popen) (stdin stdout stderr : fileio)
| Refused (e : exn) (null_byte : bool).

Record os : Type := mkOs {
  environ : environment;
  Popen : launch -> popen_answer;
  started : list launch
}.

(** What [sh] and [ex] come to: a wrapper, a [ProcessError], or another
    exception. *)
Inductive spawned : Type :=
| Proxy (w : ProcessProxy)
| ProcessError
| Raises (e : exn).

(** [env or os.environ.copy()]: an empty dictionary is false. *)
Definition env_or_environ (env : option environment) (o : os) : environment :=
  match env with
  | Some (kv :: rest) => kv :: rest
  | _ => environ o
  end.

(** The [try: proc = Popen(...); return ProcessProxy(proc, auto_drain)
    except ValueError as e: ...] of [sh] and [ex]. *)
Definition spawn (l : launch) (auto_drain : bool) (o : os) : spawned * os :=
  match Popen o l with
  | Started p stdin stdout stderr =>
      (Proxy (mkProxy (Some stdin) (Some stdout) (Some stderr) p auto_drain
                false [] []),
       mkOs (environ o) (Popen o) (started o ++ [l]))
  | Refused e null_byte =>
      (if is_ValueError e
       then if null_byte then ProcessError else Raises e
       else Raises e,
       o)
  end.

(** [sh] *)
Definition sh (cmd : list N) (env : option environment) (auto_drain : bool)
    (o : os) : spawned * os :=
  spawn (mkLaunch (Shell cmd) None true (env_or_environ env o)) auto_drain o.

(** [_to_bytes], local to [ex]; [None] is the [UnicodeEncodeError] of
    [s.encode("latin-1")]. *)
Definition _to_bytes (s : pydata) : option bytes :=
  match s with
  | ByteArray b => Some b
  | Str cps => encode_latin1 cps
  | Bytes b => Some b
  end.

(** [[_to_bytes(a) for a in args]] *)
Fixpoint all_to_bytes (args : list pydata) : option (list bytes) :=
  match args with
  | [] => Some []
  | a :: rest =>
      match _to_bytes a with
      | Some b =>
          match all_to_bytes rest with
          | Some bs => Some (b :: bs)
          | None => None
          end
      | None => None
      end
  end.

Definition slash : byte := x2f.

(** [os.path.basename(p)]: [p[p.rfind(b"/") + 1:]] *)
Definition basename (p : bytes) : bytes :=
  rev (takewhile (fun b => negb (Byte.eqb b slash)) (rev p)).

(** [ex] *)
Definition ex (path : pydata) (args : list pydata) (argv0 : option pydata)
    (env : option environment) (auto_drain : bool) (o : os) : spawned * os :=
  match _to_bytes path with
  | None => (Raises UnicodeEncodeError, o)
  | Some bin_path =>
      let argv0 :=
        match argv0 with
        | None => Bytes (basename bin_path)
        | Some a => a
        end in
      match all_to_bytes (argv0 :: args) with
      | None => (Raises UnicodeEncodeError, o)
      | Some cmd_args =>
          spawn (mkLaunch (Argv cmd_args) (Some bin_path) false
                   (env_or_environ env o))
            auto_drain o
      end
  end.

(** [wine_exec]: the code points of ["wine"] are 119, 105, 110, 101. *)
Definition wine_exec (path : pydata) (args : list pydata)
    (env : option environment) (auto_drain : bool) (o : os) : spawned * os :=
  ex (Str [119; 105; 110; 101]%N) (path :: args) None env auto_drain o.

(** *** Notions used to state what the functions do *)

Definition has_nul (b : bytes) : bool := existsb (Byte.eqb x00) b.

(** A null byte in what is to be run. *)
Definition nul_in (l : launch) : bool :=
  match l_args l with
  | Shell cmd => existsb (N.eqb 0) cmd
  | Argv argv => existsb has_nul argv
  end
  || match l_executable l with
     | Some e => has_nul e
     | None => false
     end.

(** No name of the environment has an equals sign or a null byte in it,
    and no value a null byte. *)
Definition env_legal (env : environment) : bool :=
  forallb
    (fun kv =>
       negb (existsb (Byte.eqb x3d) (fst kv))
       && negb (has_nul (fst kv)) && negb (has_nul (snd kv)))
    env.

(** [Popen] as CPython has it: under a legal environment, a null byte in
    the command, an argument or the executable is a [ValueError] that
    says [embedded null byte]. *)
Definition refuses_nul (o : os) : Prop :=
  forall l,
    env_legal (l_env l) = true -> nul_in l = true ->
    Popen o l = Refused ValueError true.

(** The wrapper of a child just started. *)
Definition fresh (p : popen) (stdin stdout stderr : fileio)
    (auto_drain : bool) : ProcessProxy :=
  mkProxy (Some stdin) (Some stdout) (Some stderr) p auto_drain false [] [].

End Spawn.

(** ** [sock_open]

    The function comes twice: [nolpy/sock.py] returns a [FlushProxy],
    [pysock_url.py] is a context manager that yields the socket file.
    Both start from [urllib.parse.urlparse(url)], of which [scheme],
    [hostname] and [port] are read; the network is the operating system's
    business, so what it is asked is written down and what it answers is
    part of the state. *)

Module Net.

(** [parsed.port]: missing, a number from 0 to 65535, or a [ValueError]
    for anything else behind the colon. *)
Inductive port_attr : Type :=
| NoPort
| Port (n : Z)
| BadPort.

(** [parsed.hostname] is [None] or a non-empty name. *)
Record url : Type := mkUrl {
  scheme : bytes;
  hostname : option bytes;
  port : port_attr
}.

Inductive net_op : Type :=
| Connect (host : bytes) (port : Z) (timeout : Z)
| ConnectFailed (host : bytes) (port : Z) (timeout : Z)
| SetNoDelay
| Handshake (server_hostname : bytes) (verified : bool)
| MakeFile
| CloseFile
| CloseSock.

(** A failed handshake is an [ssl.SSLError] or something else. *)
Inductive handshake_failure : Type :=
| SSLError
| Other (e : exn).

Record net : Type := mkNet {
  connect_answer : option exn;      (* [None]: the connection is made *)
  nodelay_answer : option exn;
  handshake_answer : option handshake_failure;
  incoming : bytes;                 (* what the peer has sent *)
  peer_closed : bool;
  ops : list net_op
}.

Definition did (op : list net_op) (n : net) : net :=
  mkNet (connect_answer n) (nodelay_answer n) (handshake_answer n)
    (incoming n) (peer_closed n) (ops n ++ op).

Inductive url_error : Type :=
| InvalidURL
| FailedToConnect
| HandshakeFailed
| UnsupportedScheme.

(** [scheme in ("tls", "ssl")] and [scheme != "tcp"] on the lowered
    scheme. *)
Definition is_tls (s : bytes) : bool :=
  bytes_eqb (lower s) (lit "tls") || bytes_eqb (lower s) (lit "ssl").

Definition is_tcp (s : bytes) : bool := bytes_eqb (lower s) (lit "tcp").

(** The file that [sock.makefile(mode="rwb", buffering=0)] gives: a
    [SocketIO] over the socket, which has the timeout of the
    connection. *)
Definition makefile (timeout : Z) (n : net) : Sock.sockfile :=
  Sock.mkSock (incoming n) (peer_closed n) false (Some timeout) false [].

(** Whether a socket is open after the operations [l], [open] saying
    whether one was before. *)
Fixpoint open_after (open : bool) (l : list net_op) : bool :=
  match l with
  | [] => open
  | Connect _ _ _ :: rest => open_after true rest
  | CloseSock :: rest => open_after false rest
  | _ :: rest => open_after open rest
  end.

End Net.

(** *** [nolpy/sock.py] *)

Module Open.
Import Net.

Inductive opened : Type :=
| Opened (w : Sock.FlushProxy)
| SocketURLError (why : url_error)
| Raises (e : exn).

(** The second [try] of [sock_open], with its [except Exception:
    sock.close(); raise]: a [SocketURLError] is an [Exception] too. *)
Definition secure_and_wrap (u : url) (host : bytes) (timeout : Z)
    (auto_drain verify : bool) (n : net) : opened * net :=
  if is_tls (scheme u) then
    match handshake_answer n with
    | None =>
        (Opened (Sock.mkFlush (makefile timeout n) auto_drain false),
         did [Handshake host verify; MakeFile] n)
    | Some SSLError =>
        (SocketURLError HandshakeFailed,
         did [Handshake host verify; CloseSock; CloseSock] n)
    | Some (Other e) =>
        (Raises e,
         did (Handshake host verify
              :: if is_Exception e then [CloseSock] else []) n)
    end
  else if negb (is_tcp (scheme u)) then
    (SocketURLError UnsupportedScheme, did [CloseSock; CloseSock] n)
  else
    (Opened (Sock.mkFlush (makefile timeout n) auto_drain false),
     did [MakeFile] n).

(** [sock_open(url, timeout, auto_drain, verify)] *)
Definition sock_open (u : url) (timeout : Z) (auto_drain verify : bool)
    (n : net) : opened * net :=
  match port u with
  | BadPort => (Raises ValueError, n)
  | NoPort => (SocketURLError InvalidURL, n)
  | Port p =>
      match hostname u with
      | None => (SocketURLError InvalidURL, n)
      | Some host =>
          match connect_answer n with
          | Some e =>
              (if is_OSError e then SocketURLError FailedToConnect
               else Raises e,
               did [ConnectFailed host p timeout] n)
          | None =>
              match nodelay_answer n with
              | Some e =>
                  (if is_OSError e then SocketURLError FailedToConnect
                   else Raises e,
                   did [Connect host p timeout; SetNoDelay] n)
              | None =>
                  secure_and_wrap u host timeout auto_drain verify
                    (did [Connect host p timeout; SetNoDelay] n)
              end
          end
      end
  end.

End Open.

(** *** [pysock_url.py] *)

Module PysockUrl.
Import Net.

(** How a [with sock_open(url) as f: body] ends. *)
Inductive ended (A : Type) : Type :=
| Done (a : A)
| SocketURLError (why : url_error)
| Raises (e : exn)
| Blocked.

Arguments Done {A} a.
Arguments SocketURLError {A} why.
Arguments Raises {A} e.
Arguments Blocked {A}.

(** From [yield file_obj] to the end of the [finally] clause.  [Fuel]
    stands for a body that does not come back either. *)
Definition yield_ {A} (body : M Sock.sockfile A) (f : Sock.sockfile)
    (n : net) : ended A * (net * option Sock.sockfile) :=
  match body f with
  | (Ret a, f') =>
      (Done a, (did [CloseFile; CloseSock] n, Some (snd (Sock.sock_close f'))))
  | (Exc e, f') =>
      (Raises e, (did [CloseFile; CloseSock] n, Some (snd (Sock.sock_close f'))))
  | (Hang, f') => (Blocked, (n, Some f'))
  | (Fuel, f') => (Blocked, (n, Some f'))
  end.

(** [with sock_open(url, timeout) as file_obj: body].  The state is the
    network and the file object, once there is one. *)
Definition sock_open {A} (u : url) (timeout : Z) (body : M Sock.sockfile A)
    (n : net) : ended A * (net * option Sock.sockfile) :=
  match port u with
  | BadPort => (Raises ValueError, (n, None))
  | NoPort => (SocketURLError InvalidURL, (n, None))
  | Port p =>
      match hostname u with
      | None => (SocketURLError InvalidURL, (n, None))
      | Some host =>
          if (p =? 0)%Z then (SocketURLError InvalidURL, (n, None))
          else
            match connect_answer n with
            | Some e =>
                (if is_OSError e then SocketURLError FailedToConnect
                 else Raises e,
                 (did [ConnectFailed host p timeout] n, None))
            | None =>
                let n1 := did [Connect host p timeout] n in
                if is_tls (scheme u) then
                  match handshake_answer n with
                  | None =>
                      yield_ body (makefile timeout n)
                        (did [Handshake host true; MakeFile] n1)
                  | Some SSLError =>
                      (SocketURLError HandshakeFailed,
                       (did [Handshake host true; CloseSock; CloseSock] n1,
                        None))
                  | Some (Other e) =>
                      (Raises e,
                       (did [Handshake host true; CloseSock] n1, None))
                  end
                else if negb (is_tcp (scheme u)) then
                  (SocketURLError UnsupportedScheme,
                   (did [CloseSock; CloseSock] n1, None))
                else yield_ body (makefile timeout n) (did [MakeFile] n1)
            end
      end
  end.

End PysockUrl.

(** ** More sample inputs *)

Module Cases.
Import Wire.

(** An interim response. *)
Definition continue_ : message :=
  mkMessage (lit "HTTP/1.1") (lit "100") (lit "Continue") [] (Fixed []).

(** A response whose [Content-Length] is negative. *)
Definition minus_five : message :=
  mkMessage (lit "HTTP/1.1") (lit "200") (lit "OK")
    [mkField (lit "Content-Length") [SP] (lit "-5")]
    (Fixed []).

(** An operating system that starts whatever it is asked to, unless
    there is a null byte in it. *)
Definition a_pipe : Proc.fileio := Proc.mkFileIO false true 0 [] [].

Definition an_os : Spawn.os :=
  Spawn.mkOs [(lit "PATH", lit "/bin")]
    (fun l =>
       if Spawn.env_legal (Spawn.l_env l) && Spawn.nul_in l
       then Spawn.Refused ValueError true
       else Spawn.Started (Proc.mkPopen None true []) a_pipe a_pipe a_pipe)
    [].

(** A network on which every connection is made and the peer has sent
    five bytes. *)
Definition a_net : Net.net :=
  Net.mkNet None None None (lit "hello") false [].

Definition tcp_url : Net.url :=
  Net.mkUrl (lit "tcp") (Some (lit "example.com")) (Net.Port 80%Z).

Definition gopher_url : Net.url :=
  Net.mkUrl (lit "gopher") (Some (lit "example.com")) (Net.Port 70%Z).

Definition port0_url : Net.url :=
  Net.mkUrl (lit "tcp") (Some (lit "example.com")) (Net.Port 0%Z).

End Cases.

(** * Properties *)

Unset Implicit Arguments.

Ltac byte_cases b := destruct b; try reflexivity; try discriminate.

(** ** The monad *)

Module MonadFacts.

Lemma bind_Ret {S A B} (m : M S A) (k : A -> M S B) s a s' :
  m s = (Ret a, s') -> bind m k s = k a s'.
Proof. intros H. unfold bind. rewrite H. reflexivity. Qed.

Lemma bind_Exc {S A B} (m : M S A) (k : A -> M S B) s e s' :
  m s = (Exc e, s') -> bind m k s = (Exc e, s').
Proof. intros H. unfold bind. rewrite H. reflexivity. Qed.

Lemma bind_Ret_inv {S A B} (m : M S A) (k : A -> M S B) s b s2 :
  bind m k s = (Ret b, s2) ->
  exists a s1, m s = (Ret a, s1) /\ k a s1 = (Ret b, s2).
Proof.
  unfold bind. destruct (m s) as [[a| | |] s1]; try discriminate. eauto.
Qed.

Lemma bind_ext {S A B} (m : M S A) (k1 k2 : A -> M S B) s :
  (forall a s', k1 a s' = k2 a s') -> bind m k1 s = bind m k2 s.
Proof.
  intros H. unfold bind. destruct (m s) as [[a|e| |] s']; auto.
Qed.

Lemma try_except_Ret {S A} (m : M S A) cls hdl s a s' :
  m s = (Ret a, s') -> try_except m cls hdl s = (Ret a, s').
Proof. intros H. unfold try_except. rewrite H. reflexivity. Qed.

Lemma try_finally_Ret {S} (m : M S unit) s :
  fst (m s) = Ret tt -> fst (try_finally m (ret tt) s) = Ret tt.
Proof.
  unfold try_finally. destruct (m s) as [[[]|e| |] s']; cbn; congruence.
Qed.

Lemma keeps_ret {S A} (R : S -> S -> Prop) (a : A) :
  preorder R -> keeps R (ret a).
Proof. intros [Hr _] s. apply Hr. Qed.

Lemma keeps_raise {S A} (R : S -> S -> Prop) e :
  preorder R -> keeps R (@raise S A e).
Proof. intros [Hr _] s. apply Hr. Qed.

Lemma keeps_gets {S A} (R : S -> S -> Prop) (f : S -> A) :
  preorder R -> keeps R (gets f).
Proof. intros [Hr _] s. apply Hr. Qed.

Lemma keeps_bind {S A B} (R : S -> S -> Prop) (m : M S A) (k : A -> M S B) :
  preorder R -> keeps R m -> (forall a, keeps R (k a)) -> keeps R (bind m k).
Proof.
  intros [Hr Ht] Hm Hk s. unfold bind. specialize (Hm s).
  destruct (m s) as [[a|e| |] s1]; cbn [snd] in *; auto.
  eapply Ht; [exact Hm | apply Hk].
Qed.

Lemma keeps_try_except {S A} (R : S -> S -> Prop) (m h : M S A) cls :
  preorder R -> keeps R m -> keeps R h -> keeps R (try_except m cls h).
Proof.
  intros [Hr Ht] Hm Hh s. unfold try_except. specialize (Hm s).
  destruct (m s) as [[a|e| |] s1]; cbn [snd] in *; auto.
  destruct (cls e); cbn [snd]; auto.
  eapply Ht; [exact Hm | apply Hh].
Qed.

Lemma keeps_try_finally {S A} (R : S -> S -> Prop) (m : M S A) (fin : M S unit) :
  preorder R -> keeps R m -> keeps R fin -> keeps R (try_finally m fin).
Proof.
  intros HR Hm Hf s. unfold try_finally. specialize (Hm s).
  destruct (m s) as [[a|e| |] s1]; cbn [snd] in *; auto;
    (eapply (proj2 HR); [exact Hm|]);
    apply (keeps_bind R fin _ HR Hf); intros;
    first [apply keeps_ret | apply keeps_raise]; exact HR.
Qed.

Lemma keeps_weaken {S A} (R R' : S -> S -> Prop) (m : M S A) :
  (forall s s', R s s' -> R' s s') -> keeps R m -> keeps R' m.
Proof. intros H Hm s. apply H, Hm. Qed.

End MonadFacts.

(** ** [http.client] over the recording file *)

Module HttpFacts.
Import MonadFacts Sock HttpClient Wire.

Lemma take_line_hit : forall l rest cap,
  no_LF l = true ->
  match cap with Some n => (length l < n)%nat | None => True end ->
  take_line cap (l ++ LF :: rest) = (l ++ [LF], rest, true).
Proof.
  induction l as [|b l IH]; intros rest cap Hl Hcap; simpl.
  - destruct cap as [[|n]|]; simpl in *; try lia; reflexivity.
  - simpl in Hl. apply andb_true_iff in Hl. destruct Hl as [Hb Hl].
    apply negb_true_iff in Hb.
    destruct cap as [[|n]|]; simpl in *; try lia.
    + rewrite Hb. rewrite (IH rest (Some n)); auto. simpl. lia.
    + rewrite Hb. rewrite (IH rest None); auto.
Qed.

Lemma len_app a b : len (a ++ b) = (len a + len b)%Z.
Proof. unfold len. rewrite length_app. lia. Qed.

Lemma sock_readline_line e t h l content rest :
  no_LF content = true ->
  (len (content ++ [LF]) <= _MAXLINE)%Z ->
  sock_readline (_MAXLINE + 1) (mkSock (content ++ LF :: rest) e false t h l)
  = (Ret (PBytes (content ++ [LF])), mkSock rest e false t h l).
Proof.
  intros Hc Hlen. unfold sock_readline. cbn [closed pending at_eof].
  destruct (Z.ltb_spec (_MAXLINE + 1) 0) as [Hneg|_].
  { unfold _MAXLINE in Hneg. lia. }
  rewrite take_line_hit; auto.
  rewrite len_app in Hlen. unfold len in Hlen. cbn [length] in Hlen. lia.
Qed.

Lemma rec_readline_line e t h l rec content rest :
  no_LF content = true ->
  (len (content ++ [LF]) <= _MAXLINE)%Z ->
  rec_readline (_MAXLINE + 1)
    (mkRec (mkSock (content ++ LF :: rest) e false t h l) rec)
  = (Ret (content ++ [LF]),
     mkRec (mkSock rest e false t h l) (rec ++ content ++ [LF])).
Proof.
  intros Hc Hlen. unfold rec_readline, on_fp, bind. cbn [fp recorded].
  rewrite sock_readline_line; auto.
Qed.

(** *** Lists of bytes *)

Lemma dropwhile_all p a b :
  forallb p a = true -> dropwhile p (a ++ b) = dropwhile p b.
Proof.
  induction a as [|x a IH]; simpl; intros H; auto.
  apply andb_true_iff in H. destruct H as [Hx Ha]. rewrite Hx. auto.
Qed.

Lemma dropwhile_none p a :
  forallb (fun b => negb (p b)) a = true -> dropwhile p a = a.
Proof.
  destruct a as [|x a]; simpl; intros H; auto.
  apply andb_true_iff in H. destruct H as [Hx _].
  apply negb_true_iff in Hx. rewrite Hx. reflexivity.
Qed.

Lemma dropwhile_stop p a x b :
  forallb p a = true -> p x = false -> dropwhile p (a ++ x :: b) = x :: b.
Proof.
  intros Ha Hx. rewrite dropwhile_all by assumption. simpl. rewrite Hx. reflexivity.
Qed.

Lemma takewhile_stop p a x b :
  forallb p a = true -> p x = false -> takewhile p (a ++ x :: b) = a.
Proof.
  induction a as [|y a IH]; simpl; intros Ha Hx.
  - rewrite Hx. reflexivity.
  - apply andb_true_iff in Ha. destruct Ha as [Hy Ha]. rewrite Hy.
    f_equal. auto.
Qed.

Lemma takewhile_all p a :
  forallb p a = true -> takewhile p a = a.
Proof.
  induction a as [|y a IH]; simpl; intros Ha; auto.
  apply andb_true_iff in Ha. destruct Ha as [Hy Ha]. rewrite Hy. f_equal. auto.
Qed.

Lemma dropwhile_nil_all p a :
  dropwhile p a = [] -> forallb p a = true.
Proof.
  induction a as [|y a IH]; simpl; auto.
  destruct (p y); simpl; auto. discriminate.
Qed.

Lemma forallb_rev {A} (p : A -> bool) l :
  forallb p (rev l) = forallb p l.
Proof.
  induction l as [|x l IH]; simpl; auto.
  rewrite forallb_app, IH. simpl. rewrite andb_true_r. apply andb_comm.
Qed.

Lemma forallb_impl {A} (p q : A -> bool) l :
  (forall x, p x = true -> q x = true) ->
  forallb p l = true -> forallb q l = true.
Proof.
  intros Hpq. induction l as [|x l IH]; simpl; auto.
  intros H. apply andb_true_iff in H. destruct H as [Hx Hl].
  rewrite (Hpq _ Hx). auto.
Qed.

Lemma rstrip_all p a ws :
  forallb (fun b => negb (p b)) a = true -> forallb p ws = true ->
  rstrip p (a ++ ws) = a.
Proof.
  intros Ha Hws. unfold rstrip. rewrite rev_app_distr.
  rewrite dropwhile_all by (rewrite forallb_rev; assumption).
  rewrite dropwhile_none by (rewrite forallb_rev; assumption).
  apply rev_involutive.
Qed.

Lemma bytes_eqb_refl a : bytes_eqb a a = true.
Proof.
  induction a as [|x a IH]; simpl; auto.
  rewrite (Byte.byte_dec_lb eq_refl). auto.
Qed.

Lemma bytes_eqb_eq a b : bytes_eqb a b = true -> a = b.
Proof.
  revert b. induction a as [|x a IH]; destruct b as [|y b]; simpl;
    try discriminate; auto.
  intros H. apply andb_true_iff in H. destruct H as [Hx Hab].
  apply Byte.byte_dec_bl in Hx. subst. f_equal. auto.
Qed.

(** *** Digits *)

Lemma digit_not_underscore b d :
  digit_value b = Some d -> Byte.eqb b underscore = false.
Proof. byte_cases b. Qed.

Lemma scan_digits_plain base ds : forall acc after,
  forallb (fun b => match digit_value b with
                    | Some d => (d <? base)%Z
                    | None => false
                    end) ds = true ->
  (ds <> [] \/ after = true) ->
  scan_digits base ds acc after
  = Some (fold_left
            (fun a b => (a * base + match digit_value b with
                                    | Some d => d
                                    | None => 0
                                    end)%Z) ds acc).
Proof.
  induction ds as [|b ds IH]; intros acc after Hds Hne; simpl.
  - destruct Hne as [Hne|Hne]; [congruence | subst; reflexivity].
  - simpl in Hds. apply andb_true_iff in Hds. destruct Hds as [Hb Hds].
    destruct (digit_value b) as [d|] eqn:Hd; [|discriminate].
    rewrite (digit_not_underscore _ _ Hd). rewrite Hb.
    apply IH; auto.
Qed.

Lemma is_digit_below b : is_digit b = true -> digit_below 10 b = true.
Proof. byte_cases b. Qed.

Lemma is_hexdigit_below b : is_hexdigit b = true -> digit_below 16 b = true.
Proof. byte_cases b. Qed.

Lemma digit_below_16_props b :
  digit_below 16 b = true ->
  c_isspace b = false /\ Byte.eqb b x2d = false /\ Byte.eqb b x2b = false
  /\ Byte.eqb b x78 = false /\ Byte.eqb b x58 = false
  /\ Byte.eqb b semicolon = false /\ Byte.eqb b LF = false.
Proof. byte_cases b; intros _; repeat split. Qed.

Lemma digit_below_10_props b :
  digit_below 10 b = true ->
  int_str_space b = false /\ str_isspace b = false
  /\ Byte.eqb b x2d = false /\ Byte.eqb b x2b = false /\ Byte.eqb b LF = false.
Proof. byte_cases b; intros _; repeat split. Qed.

(** [int()] of a plain digit string that white space follows. *)
Lemma py_int_digits space base ds ws :
  (base = 10 \/ base = 16)%Z ->
  ds <> [] ->
  forallb (digit_below base) ds = true ->
  forallb (fun b => negb (space b)) ds = true ->
  forallb (fun b => negb (Byte.eqb b x2d || Byte.eqb b x2b || Byte.eqb b x78 || Byte.eqb b x58)) ds = true ->
  forallb space ws = true ->
  py_int space base (ds ++ ws) = Some (digits_value base ds).
Proof.
  intros Hbase Hne Hdig Hsp Hsign Hws. unfold py_int, lstrip.
  assert (Hhead : dropwhile space (ds ++ ws) = ds ++ ws).
  { destruct ds as [|b ds]; [congruence|]. simpl in *.
    apply andb_true_iff in Hsp. destruct Hsp as [Hb _].
    apply negb_true_iff in Hb. rewrite Hb. reflexivity. }
  rewrite Hhead.
  rewrite rstrip_all by assumption.
  destruct ds as [|b ds]; [congruence|].
  simpl in Hsign. apply andb_true_iff in Hsign. destruct Hsign as [Hb Hrest].
  apply negb_true_iff in Hb. apply orb_false_iff in Hb. destruct Hb as [Hb Hb4].
  apply orb_false_iff in Hb. destruct Hb as [Hb Hb3].
  apply orb_false_iff in Hb. destruct Hb as [Hb1 Hb2].
  rewrite Hb1, Hb2.
  unfold digits_value.
  destruct ds as [|x rest].
  - cbv beta iota.
    rewrite scan_digits_plain; [reflexivity | assumption | left; discriminate].
  - simpl in Hrest. apply andb_true_iff in Hrest. destruct Hrest as [Hx _].
    apply negb_true_iff in Hx. apply orb_false_iff in Hx. destruct Hx as [Hx Hx4].
    apply orb_false_iff in Hx. destruct Hx as [Hx Hx3].
    cbv beta iota. rewrite Hx3, Hx4. rewrite andb_false_r.
    rewrite scan_digits_plain; [reflexivity | assumption | left; discriminate].
Qed.

(** *** Reading lines that end in CR LF *)

Lemma no_LF_app a b : no_LF (a ++ b) = no_LF a && no_LF b.
Proof. apply forallb_app. Qed.

Lemma rec_readline_crlf e t h l rec content rest :
  no_LF content = true ->
  fits (content ++ CRLF) = true ->
  rec_readline (_MAXLINE + 1)
    (mkRec (mkSock ((content ++ CRLF) ++ rest) e false t h l) rec)
  = (Ret (content ++ CRLF),
     mkRec (mkSock rest e false t h l) (rec ++ content ++ CRLF)).
Proof.
  intros Hc Hfit. unfold fits in Hfit. apply Z.leb_le in Hfit.
  replace ((content ++ CRLF) ++ rest) with ((content ++ [CR]) ++ LF :: rest)
    by (unfold CRLF; repeat rewrite <- app_assoc; reflexivity).
  replace (content ++ CRLF) with ((content ++ [CR]) ++ [LF]) in *
    by (unfold CRLF; repeat rewrite <- app_assoc; reflexivity).
  apply rec_readline_line; auto.
  rewrite no_LF_app, Hc. reflexivity.
Qed.

Lemma fits_gtb line : fits line = true -> (len line >? _MAXLINE)%Z = false.
Proof.
  unfold fits. intros H. apply Z.leb_le in H.
  destruct (Z.gtb_spec (len line) _MAXLINE); auto. lia.
Qed.

(** *** The status line *)

Lemma reason_space b :
  is_reason_char b = true -> str_isspace b = true -> int_str_space b = true.
Proof. byte_cases b. Qed.

Lemma reason_no_LF b : is_reason_char b = true -> negb (Byte.eqb b LF) = true.
Proof. byte_cases b. Qed.

Lemma digit_no_LF b : is_digit b = true -> negb (Byte.eqb b LF) = true.
Proof. byte_cases b. Qed.

Lemma digit_word b : is_digit b = true -> word b = true.
Proof. byte_cases b. Qed.

Lemma digit_not_int_space b :
  is_digit b = true -> negb (int_str_space b) = true.
Proof. byte_cases b. Qed.

Lemma digit_no_sign b :
  is_digit b = true ->
  negb (Byte.eqb b x2d || Byte.eqb b x2b || Byte.eqb b x78 || Byte.eqb b x58)
  = true.
Proof. byte_cases b. Qed.

Lemma split_status_wf v code reason :
  v <> [] -> forallb word v = true ->
  code <> [] -> forallb is_digit code = true ->
  forallb is_reason_char reason = true ->
  exists txt,
    split_status (v ++ [SP] ++ code ++ [SP] ++ reason ++ CRLF) = (v, txt)
    /\ py_int int_str_space 10 txt = Some (digits_value 10 code).
Proof.
  intros Hv Hvw Hc Hcd Hr.
  assert (Hcw : forallb word code = true)
    by (eapply forallb_impl; [apply digit_word | assumption]).
  assert (HSP : word SP = false) by reflexivity.
  assert (Hint : forall ws, forallb int_str_space ws = true ->
            py_int int_str_space 10 (code ++ ws) = Some (digits_value 10 code)).
  { intros ws Hws. apply py_int_digits; auto.
    - eapply forallb_impl; [apply is_digit_below | assumption].
    - eapply forallb_impl; [apply digit_not_int_space | assumption].
    - eapply forallb_impl; [apply digit_no_sign | assumption]. }
  unfold split_status. cbv zeta. fold word. unfold lstrip.
  assert (H1 : dropwhile str_isspace (v ++ [SP] ++ code ++ [SP] ++ reason ++ CRLF)
               = v ++ [SP] ++ code ++ [SP] ++ reason ++ CRLF).
  { destruct v as [|b v]; [congruence|]. simpl in Hvw |- *.
    apply andb_true_iff in Hvw. destruct Hvw as [Hb _].
    unfold word in Hb. apply negb_true_iff in Hb. rewrite Hb. reflexivity. }
  rewrite H1.
  change (v ++ [SP] ++ code ++ [SP] ++ reason ++ CRLF)
    with (v ++ SP :: (code ++ SP :: reason ++ CRLF)).
  rewrite takewhile_stop, dropwhile_stop by assumption.
  assert (H2 : dropwhile str_isspace (SP :: code ++ SP :: reason ++ CRLF)
               = code ++ SP :: reason ++ CRLF).
  { destruct code as [|c code]; [congruence|]. simpl in Hcw |- *.
    apply andb_true_iff in Hcw. destruct Hcw as [Hb _].
    unfold word in Hb. apply negb_true_iff in Hb. rewrite Hb. reflexivity. }
  rewrite H2.
  rewrite takewhile_stop, dropwhile_stop by assumption.
  change (dropwhile str_isspace (SP :: reason ++ CRLF))
    with (dropwhile str_isspace (reason ++ CRLF)).
  destruct code as [|c code]; [congruence|].
  cbn [app].
  destruct (dropwhile str_isspace (reason ++ CRLF)) as [|x s3] eqn:Hs3.
  - exists (c :: code ++ SP :: reason ++ CRLF). split; auto.
    apply (Hint (SP :: reason ++ CRLF)).
    apply dropwhile_nil_all in Hs3. rewrite forallb_app in Hs3.
    apply andb_true_iff in Hs3. destruct Hs3 as [Hrs _].
    cbn [forallb]. rewrite forallb_app.
    replace (forallb int_str_space reason) with true; [reflexivity|].
    symmetry. clear - Hr Hrs.
    induction reason as [|b r IH]; simpl in *; auto.
    apply andb_true_iff in Hr. destruct Hr as [Hb Hr].
    apply andb_true_iff in Hrs. destruct Hrs as [Hb' Hrs].
    rewrite (reason_space _ Hb Hb'). auto.
  - exists (c :: code). split; auto.
    specialize (Hint [] eq_refl). rewrite app_nil_r in Hint. exact Hint.
Qed.

Lemma digit_value_range b :
  is_digit b = true -> exists d, digit_value b = Some d /\ (0 <= d <= 9)%Z.
Proof.
  byte_cases b; intros _;
    match goal with
    | |- exists d, ?v = _ /\ _ =>
        let r := eval vm_compute in v in
        match r with Some ?d => exists d; split; [reflexivity | lia] end
    end.
Qed.

Lemma code_range code :
  length code = 3%nat -> forallb is_digit code = true ->
  (0 <= digits_value 10 code <= 999)%Z.
Proof.
  intros Hlen Hd.
  destruct code as [|a [|b [|c [|? ?]]]]; try discriminate.
  simpl in Hd. repeat (apply andb_true_iff in Hd; destruct Hd as [? Hd]).
  destruct (digit_value_range a) as [da [Ha ?]]; auto.
  destruct (digit_value_range b) as [db [Hb ?]]; auto.
  destruct (digit_value_range c) as [dc [Hc ?]]; auto.
  unfold digits_value. simpl. rewrite Ha, Hb, Hc. lia.
Qed.

Lemma version_cases v :
  bytes_eqb v (lit "HTTP/1.0") || bytes_eqb v (lit "HTTP/1.1") = true ->
  v = lit "HTTP/1.0" \/ v = lit "HTTP/1.1".
Proof.
  intros H. apply orb_true_iff in H.
  destruct H as [H|H]; apply bytes_eqb_eq in H; auto.
Qed.

Lemma read_status_wf e t h l rec m rest :
  status_syntax m = true ->
  fits (render_status_line m) = true ->
  _read_status rec_readline
    (mkRec (mkSock (render_status_line m ++ rest) e false t h l) rec)
  = (Ret (version m, digits_value 10 (code m)),
     mkRec (mkSock rest e false t h l) (rec ++ render_status_line m)).
Proof.
  unfold status_syntax. intros H Hfit.
  repeat (apply andb_true_iff in H; destruct H as [H ?]).
  rename H into Hv, H0 into Hr, H1 into H100, H2 into Hd, H3 into Hlen.
  apply Nat.eqb_eq in Hlen. apply Z.leb_le in H100.
  apply version_cases in Hv.
  assert (Hvne : version m <> []) by (destruct Hv as [-> | ->]; discriminate).
  assert (Hvw : forallb word (version m) = true)
    by (destruct Hv as [-> | ->]; reflexivity).
  assert (Hvs : startswith (lit "HTTP/") (version m) = true)
    by (destruct Hv as [-> | ->]; reflexivity).
  assert (Hvl : no_LF (version m) = true)
    by (destruct Hv as [-> | ->]; reflexivity).
  assert (Hcne : code m <> []) by (destruct (code m); discriminate).
  destruct (split_status_wf _ _ (reason m) Hvne Hvw Hcne Hd Hr) as [txt [Hsplit Hint]].
  pose proof (code_range _ Hlen Hd) as Hrange.
  unfold _read_status.
  unfold render_status_line in *.
  set (content := version m ++ [SP] ++ code m ++ [SP] ++ reason m).
  assert (Hline : version m ++ [SP] ++ code m ++ [SP] ++ reason m ++ CRLF
                  = content ++ CRLF).
  { unfold content. repeat rewrite <- app_assoc. reflexivity. }
  rewrite Hline in *.
  erewrite bind_Ret.
  2:{ apply rec_readline_crlf; auto. unfold content.
      repeat rewrite no_LF_app. rewrite Hvl. cbn [no_LF forallb andb].
      replace (no_LF (code m)) with true.
      2:{ symmetry. eapply forallb_impl; [apply digit_no_LF | assumption]. }
      replace (no_LF (reason m)) with true.
      2:{ symmetry. eapply forallb_impl; [apply reason_no_LF | assumption]. }
      reflexivity. }
  rewrite (fits_gtb _ Hfit).
  destruct (content ++ CRLF) as [|b0 line0] eqn:Hl0.
  { destruct content; discriminate. }
  rewrite <- Hl0 in Hsplit |- *. clear Hl0. rewrite Hsplit. rewrite Hvs. cbn [negb].
  rewrite Hint.
  destruct (Z.ltb_spec (digits_value 10 (code m)) 100); [lia|].
  destruct (Z.gtb_spec (digits_value 10 (code m)) 999); [lia|].
  cbn [orb]. reflexivity.
Qed.

(** *** Header fields *)

Lemma render_field_content f : render_field f = field_content f ++ CRLF.
Proof. unfold render_field, field_content. repeat rewrite <- app_assoc. reflexivity. Qed.

Lemma ftext_props b :
  is_ftext b = true ->
  is_CRLF b = false /\ is_blank b = false /\ is_colon b = false
  /\ Byte.eqb x20 b = false /\ Byte.eqb b CR = false /\ Byte.eqb b LF = false.
Proof. byte_cases b; intros _; repeat split. Qed.

Lemma blank_props b :
  is_blank b = true -> is_CRLF b = false.
Proof. byte_cases b. Qed.

Lemma not_CRLF_no_LF b :
  negb (is_CRLF b) = true -> negb (Byte.eqb b LF) = true.
Proof. byte_cases b. Qed.

Lemma wf_field_parts f :
  wf_field f = true ->
  name f <> [] /\ forallb is_ftext (name f) = true
  /\ forallb is_blank (ows f) = true
  /\ no_CRLF (value f) = true
  /\ starts_blank (value f) = false
  /\ fits (render_field f) = true.
Proof.
  unfold wf_field, field_syntax. intros H.
  repeat (apply andb_true_iff in H; destruct H as [H ?]).
  repeat split; auto.
  - destruct (name f); [discriminate | discriminate].
  - apply negb_true_iff. assumption.
Qed.

Lemma field_content_no_CRLF f :
  wf_field f = true -> no_CRLF (field_content f) = true.
Proof.
  intros H. destruct (wf_field_parts f H) as (_ & Hn & Ho & Hv & _ & _).
  unfold field_content, no_CRLF. repeat rewrite forallb_app.
  fold (no_CRLF (value f)). rewrite Hv.
  replace (forallb (fun b => negb (is_CRLF b)) (name f)) with true.
  2:{ symmetry. eapply forallb_impl; [|exact Hn].
      intros b Hb. destruct (ftext_props b Hb) as (-> & _). reflexivity. }
  replace (forallb (fun b => negb (is_CRLF b)) (ows f)) with true.
  2:{ symmetry. eapply forallb_impl; [|exact Ho].
      intros b Hb. rewrite (blank_props b Hb). reflexivity. }
  reflexivity.
Qed.

Lemma no_CRLF_no_LF s : no_CRLF s = true -> no_LF s = true.
Proof. apply forallb_impl. apply not_CRLF_no_LF. Qed.

Lemma field_line_not_blank f :
  wf_field f = true ->
  bytes_eqb (render_field f) CRLF || bytes_eqb (render_field f) [LF]
  || bytes_eqb (render_field f) [] = false.
Proof.
  intros H. destruct (wf_field_parts f H) as (Hne & Hn & _).
  unfold render_field. destruct (name f) as [|b n]; [congruence|].
  simpl in Hn. apply andb_true_iff in Hn. destruct Hn as [Hb _].
  destruct (ftext_props b Hb) as (_ & _ & _ & _ & HCR & HLF).
  cbn [app bytes_eqb CRLF]. rewrite HCR, HLF. reflexivity.
Qed.

Lemma read_header_lines_eq {S} (rl : Z -> M S bytes) room headers :
  read_header_lines rl room headers
  = (line <- rl (_MAXLINE + 1)%Z ;;
     if (len line >? _MAXLINE)%Z then raise LineTooLong
     else
       match room with
       | O => raise HTTPException
       | Datatypes.S room' =>
           if bytes_eqb line CRLF || bytes_eqb line [LF] || bytes_eqb line []
           then ret (headers ++ [line])
           else read_header_lines rl room' (headers ++ [line])
       end).
Proof. destruct room; reflexivity. Qed.

Lemma read_header_lines_wf e t h l rest : forall fs room acc rec,
  forallb wf_field fs = true ->
  (length fs < room)%nat ->
  read_header_lines rec_readline room acc
    (mkRec (mkSock (concat (map render_field fs) ++ CRLF ++ rest) e false t h l) rec)
  = (Ret (acc ++ map render_field fs ++ [CRLF]),
     mkRec (mkSock rest e false t h l)
       (rec ++ concat (map render_field fs) ++ CRLF)).
Proof.
  induction fs as [|f fs IH]; intros room acc rec Hwf Hroom.
  - rewrite read_header_lines_eq. cbn [map concat app].
    erewrite bind_Ret.
    2:{ apply (rec_readline_crlf e t h l rec [] rest); reflexivity. }
    destruct room as [|room]; [simpl in Hroom; lia|].
    reflexivity.
  - cbn [forallb] in Hwf. apply andb_true_iff in Hwf. destruct Hwf as [Hf Hfs].
    rewrite read_header_lines_eq. cbn [map concat].
    rewrite render_field_content at 1. rewrite <- app_assoc.
    erewrite bind_Ret.
    2:{ apply rec_readline_crlf.
        - apply no_CRLF_no_LF. apply field_content_no_CRLF. assumption.
        - rewrite <- render_field_content.
          destruct (wf_field_parts f Hf) as (_ & _ & _ & _ & _ & Hfit). exact Hfit. }
    rewrite <- render_field_content.
    destruct (wf_field_parts f Hf) as (_ & _ & _ & _ & _ & Hfit).
    rewrite (fits_gtb _ Hfit).
    destruct room as [|room]; [simpl in Hroom; lia|].
    rewrite (field_line_not_blank f Hf).
    rewrite IH; auto; [|simpl in Hroom; lia].
    repeat rewrite <- app_assoc. reflexivity.
Qed.

(** *** The header block through the [email] parser *)

Lemma crack_line content : forall cur rest,
  no_CRLF content = true ->
  crack cur (content ++ CRLF ++ rest) = (cur ++ content ++ CRLF) :: crack [] rest.
Proof.
  induction content as [|b content IH]; intros cur rest H.
  - reflexivity.
  - simpl in H. apply andb_true_iff in H. destruct H as [Hb Hc].
    apply negb_true_iff in Hb. unfold is_CRLF in Hb.
    apply orb_false_iff in Hb. destruct Hb as [HCR HLF].
    cbn [app crack]. rewrite HLF, HCR.
    rewrite IH by assumption. repeat rewrite <- app_assoc. reflexivity.
Qed.

Lemma crack_fields fs :
  forallb wf_field fs = true ->
  crack [] (concat (map render_field fs ++ [CRLF]))
  = map render_field fs ++ [CRLF].
Proof.
  induction fs as [|f fs IH]; intros H.
  - reflexivity.
  - cbn [forallb] in H. apply andb_true_iff in H. destruct H as [Hf Hfs].
    cbn [map app concat]. rewrite render_field_content at 1.
    rewrite <- app_assoc. rewrite crack_line by (apply field_content_no_CRLF; assumption).
    rewrite IH by assumption. rewrite <- render_field_content. reflexivity.
Qed.

Lemma field_line_matches f :
  wf_field f = true -> headerRE_match (render_field f) = true.
Proof.
  intros H. destruct (wf_field_parts f H) as (_ & Hn & _).
  unfold headerRE_match, render_field. cbn [app].
  rewrite dropwhile_stop by (assumption || reflexivity).
  cbn. rewrite orb_true_r. reflexivity.
Qed.

Lemma collect_fields fs :
  forallb wf_field fs = true ->
  collect_headers (map render_field fs ++ [CRLF]) = map render_field fs.
Proof.
  induction fs as [|f fs IH]; intros H.
  - reflexivity.
  - cbn [forallb] in H. apply andb_true_iff in H. destruct H as [Hf Hfs].
    cbn [map app collect_headers]. rewrite (field_line_matches f Hf).
    rewrite IH by assumption. reflexivity.
Qed.

Lemma not_From n rest :
  forallb is_ftext n = true ->
  startswith (lit "From ") (n ++ colon :: rest) = false.
Proof.
  intros H.
  destruct n as [|a [|b [|c [|d [|e r]]]]]; cbn [app lit list_byte_of_string startswith];
    cbn; rewrite ?andb_false_r; auto.
  cbn [forallb] in H.
  repeat (apply andb_true_iff in H; destruct H as [? H]).
  match goal with
  | He : is_ftext e = true |- _ =>
      destruct (ftext_props e He) as (_ & _ & _ & Hsp & _)
  end.
  cbn in Hsp. rewrite Hsp. rewrite ?andb_false_r, ?andb_false_l. reflexivity.
Qed.

Lemma header_source_parse_field f :
  wf_field f = true ->
  header_source_parse [render_field f] = (name f, value f).
Proof.
  intros H. destruct (wf_field_parts f H) as (_ & Hn & Ho & Hv & Hsb & _).
  unfold header_source_parse, render_field. cbn [app concat].
  assert (Hnc : forallb (fun b => negb (is_colon b)) (name f) = true).
  { eapply forallb_impl; [|exact Hn]. intros b Hb.
    destruct (ftext_props b Hb) as (_ & _ & -> & _). reflexivity. }
  rewrite takewhile_stop, dropwhile_stop by (assumption || reflexivity).
  cbn [tl]. rewrite app_nil_r. unfold lstrip.
  rewrite dropwhile_all by assumption.
  assert (Hhead : dropwhile is_blank (value f ++ CRLF) = value f ++ CRLF).
  { destruct (value f) as [|b v]; [reflexivity|].
    cbn [starts_blank] in Hsb. cbn [app dropwhile]. rewrite Hsb. reflexivity. }
  rewrite Hhead. rewrite rstrip_all; auto.
Qed.

Lemma parse_fields : forall fs lastvalue headers,
  forallb wf_field fs = true ->
  _parse_headers (map render_field fs) lastvalue headers
  = flush_header lastvalue headers ++ pairs fs.
Proof.
  induction fs as [|f fs IH]; intros lv hs H.
  - cbn. rewrite app_nil_r. reflexivity.
  - cbn [forallb] in H. apply andb_true_iff in H. destruct H as [Hf Hfs].
    destruct (wf_field_parts f Hf) as (Hne & Hn & _).
    cbn [map _parse_headers].
    assert (Hsb : starts_blank (render_field f) = false).
    { unfold render_field. destruct (name f) as [|b n]; [congruence|].
      cbn [forallb] in Hn. apply andb_true_iff in Hn. destruct Hn as [Hb _].
      destruct (ftext_props b Hb) as (_ & Hbl & _). exact Hbl. }
    rewrite Hsb.
    assert (HFrom : startswith (lit "From ") (render_field f) = false).
    { unfold render_field. apply not_From. exact Hn. }
    rewrite HFrom.
    assert (Hcol : exists b r, render_field f = b :: r /\ is_colon b = false).
    { unfold render_field. destruct (name f) as [|b n]; [congruence|].
      cbn [forallb] in Hn. apply andb_true_iff in Hn. destruct Hn as [Hb _].
      destruct (ftext_props b Hb) as (_ & _ & Hc & _).
      eexists; eexists; split; [reflexivity | exact Hc]. }
    destruct Hcol as (b & r & Hbr & Hc).
    rewrite Hbr at 1. rewrite Hc.
    rewrite IH by assumption.
    cbn [flush_header]. rewrite (header_source_parse_field f Hf).
    cbn [pairs map]. rewrite <- app_assoc. reflexivity.
Qed.

Lemma parsestr_fields fs :
  forallb wf_field fs = true ->
  parsestr (concat (map render_field fs ++ [CRLF])) = pairs fs.
Proof.
  intros H. unfold parsestr.
  rewrite crack_fields, collect_fields by assumption.
  rewrite parse_fields by assumption. reflexivity.
Qed.

(** *** [begin] on a well-formed head *)

Lemma render_head_split m rest :
  render_head m ++ rest
  = render_status_line m ++ concat (map render_field (fields m)) ++ CRLF ++ rest.
Proof. unfold render_head. repeat rewrite <- app_assoc. reflexivity. Qed.

Lemma begin_wf e t h l rec m rest :
  wf_head m = true ->
  digits_value 10 (code m) <> 100%Z ->
  begin rec_readline turns_of
    (mkRec (mkSock (render_head m ++ rest) e false t h l) rec)
  = (Ret (mkResponse (digits_value 10 (code m)) (says_chunked (fields m))
            (head_length m)),
     mkRec (mkSock rest e false t h l) (rec ++ render_head m)).
Proof.
  unfold wf_head. intros H Hnot100.
  apply andb_true_iff in H. destruct H as [H Hcount].
  apply andb_true_iff in H. destruct H as [H Hfs].
  apply andb_true_iff in H. destruct H as [Hst Hfit].
  apply Nat.ltb_lt in Hcount.
  rewrite render_head_split.
  unfold begin.
  erewrite bind_Ret.
  2:{ unfold with_turns, turns_of. cbn [read_final_status].
      erewrite bind_Ret by (apply read_status_wf; assumption).
      cbn [snd]. destruct (Z.eqb_spec (digits_value 10 (code m)) 100); [contradiction|].
      reflexivity. }
  cbn [fst snd].
  assert (Hv : bytes_eqb (version m) (lit "HTTP/1.0")
               || bytes_eqb (version m) (lit "HTTP/0.9")
               || startswith (lit "HTTP/1.") (version m) = true).
  { pose proof Hst as Hst'. unfold status_syntax in Hst'.
    repeat (apply andb_true_iff in Hst'; destruct Hst' as [Hst' ?]).
    apply version_cases in Hst'. destruct Hst' as [-> | ->]; reflexivity. }
  rewrite Hv.
  erewrite bind_Ret by reflexivity.
  erewrite bind_Ret.
  2:{ unfold parse_headers, _read_headers.
      erewrite bind_Ret by (apply read_header_lines_wf; assumption).
      reflexivity. }
  cbn [app]. rewrite parsestr_fields by assumption.
  unfold ret. f_equal.
  - f_equal. unfold head_length, says_chunked, bodiless.
    assert (Hch :
      match get (lit "transfer-encoding") (pairs (fields m)) with
      | Some (b :: tr_enc) => bytes_eqb (lower (b :: tr_enc)) (lit "chunked")
      | _ => false
      end
      = match get (lit "transfer-encoding") (pairs (fields m)) with
        | Some v => bytes_eqb (lower v) (lit "chunked")
        | None => false
        end).
    { destruct (get (lit "transfer-encoding") (pairs (fields m))) as [[|b v]|];
        reflexivity. }
    rewrite Hch. f_equal.
    destruct ((digits_value 10 (code m) =? 204)%Z
              || (digits_value 10 (code m) =? 304)%Z
              || (100 <=? digits_value 10 (code m))%Z
                 && (digits_value 10 (code m) <? 200)%Z); [reflexivity|].
    destruct (get (lit "content-length") (pairs (fields m))) as [[|b v]|];
      destruct (match get (lit "transfer-encoding") (pairs (fields m)) with
                | Some v0 => bytes_eqb (lower v0) (lit "chunked")
                | None => false
                end); reflexivity.
  - unfold render_head. repeat rewrite <- app_assoc. reflexivity.
Qed.

(** *** Reading a body of known length *)

Lemma firstn_exact {A} (a b : list A) : firstn (length a) (a ++ b) = a.
Proof. induction a as [|x a IH]; simpl; [destruct b|]; congruence. Qed.

Lemma skipn_exact {A} (a b : list A) : skipn (length a) (a ++ b) = b.
Proof. induction a as [|x a IH]; simpl; auto. Qed.

Lemma rec_read_exact e t h l rec content rest :
  rec_read (len content)
    (mkRec (mkSock (content ++ rest) e false t h l) rec)
  = (Ret content, mkRec (mkSock rest e false t h l) (rec ++ content)).
Proof.
  unfold rec_read, on_fp, bind, sock_read. cbn [fp recorded closed pending at_eof].
  destruct (Z.ltb_spec (len content) 0) as [Hneg|_]; [unfold len in Hneg; lia|].
  unfold len. rewrite Nat2Z.id.
  destruct (content ++ rest) as [|b p] eqn:Hp.
  - apply app_eq_nil in Hp. destruct Hp as [-> ->]. cbn.
    rewrite app_nil_r. reflexivity.
  - rewrite <- Hp. rewrite firstn_exact, skipn_exact. reflexivity.
Qed.

Lemma safe_read_exact e t h l rec content rest :
  _safe_read rec_read (len content)
    (mkRec (mkSock (content ++ rest) e false t h l) rec)
  = (Ret content, mkRec (mkSock rest e false t h l) (rec ++ content)).
Proof.
  unfold _safe_read. erewrite bind_Ret by apply rec_read_exact.
  rewrite Z.ltb_irrefl. reflexivity.
Qed.

(** *** Reading chunks *)

Lemma hexdigit_props b :
  is_hexdigit b = true ->
  negb (c_isspace b) = true
  /\ negb (Byte.eqb b x2d || Byte.eqb b x2b || Byte.eqb b x78 || Byte.eqb b x58) = true
  /\ negb (Byte.eqb b semicolon) = true
  /\ negb (Byte.eqb b LF) = true.
Proof. byte_cases b; intros _; repeat split. Qed.

Lemma wf_ext_no_LF e : wf_ext e = true -> no_LF e = true.
Proof.
  destruct e as [|b e]; [reflexivity|]. cbn [wf_ext].
  intros H. apply andb_true_iff in H. destruct H as [Hb He].
  apply Byte.byte_dec_bl in Hb. subst b. exact He.
Qed.

Lemma next_chunk_size_wf e t h l rec size x rest :
  size <> [] ->
  forallb is_hexdigit size = true ->
  wf_ext x = true ->
  fits (size ++ x ++ CRLF) = true ->
  _read_next_chunk_size rec_readline
    (mkRec (mkSock ((size ++ x ++ CRLF) ++ rest) e false t h l) rec)
  = (Ret (digits_value 16 size),
     mkRec (mkSock rest e false t h l) (rec ++ size ++ x ++ CRLF)).
Proof.
  intros Hne Hhex Hx Hfit.
  assert (Hint : forall ws, forallb c_isspace ws = true ->
            py_int c_isspace 16 (size ++ ws) = Some (digits_value 16 size)).
  { intros ws Hws. apply py_int_digits; auto.
    - eapply forallb_impl; [apply is_hexdigit_below | assumption].
    - eapply forallb_impl; [|exact Hhex]. intros b Hb.
      destruct (hexdigit_props b Hb) as (H1 & _). exact H1.
    - eapply forallb_impl; [|exact Hhex]. intros b Hb.
      destruct (hexdigit_props b Hb) as (_ & H1 & _). exact H1. }
  assert (Hsemi : forallb (fun b => negb (Byte.eqb b semicolon)) size = true).
  { eapply forallb_impl; [|exact Hhex]. intros b Hb.
    destruct (hexdigit_props b Hb) as (_ & _ & H1 & _). exact H1. }
  assert (HLF : no_LF size = true).
  { eapply forallb_impl; [|exact Hhex]. intros b Hb.
    destruct (hexdigit_props b Hb) as (_ & _ & _ & H1). exact H1. }
  unfold _read_next_chunk_size.
  replace (size ++ x ++ CRLF) with ((size ++ x) ++ CRLF) in *
    by (rewrite <- app_assoc; reflexivity).
  erewrite bind_Ret.
  2:{ apply rec_readline_crlf; auto.
      rewrite no_LF_app, HLF, (wf_ext_no_LF x Hx). reflexivity. }
  rewrite (fits_gtb _ Hfit).
  assert (Hcut : py_int c_isspace 16
                   (takewhile (fun b => negb (Byte.eqb b x3b)) ((size ++ x) ++ CRLF))
                 = Some (digits_value 16 size)).
  { destruct x as [|b x'].
    - rewrite app_nil_r. rewrite takewhile_all.
      + apply Hint. reflexivity.
      + rewrite forallb_app. fold semicolon. rewrite Hsemi. reflexivity.
    - cbn [wf_ext] in Hx. apply andb_true_iff in Hx. destruct Hx as [Hb _].
      apply Byte.byte_dec_bl in Hb. subst b.
      rewrite <- app_assoc. cbn [app].
      rewrite takewhile_stop by (assumption || reflexivity).
      specialize (Hint [] eq_refl). rewrite app_nil_r in Hint. exact Hint. }
  rewrite Hcut. unfold ret. repeat rewrite <- app_assoc. reflexivity.
Qed.

Lemma zeros_value z :
  forallb (fun b => Byte.eqb b x30) z = true -> digits_value 16 z = 0%Z.
Proof.
  unfold digits_value.
  induction z as [|b z IH]; cbn [forallb fold_left]; intros H; [reflexivity|].
  apply andb_true_iff in H. destruct H as [Hb Hz].
  apply Byte.byte_dec_bl in Hb. subst b. exact (IH Hz).
Qed.

Lemma zeros_hex z :
  forallb (fun b => Byte.eqb b x30) z = true -> forallb is_hexdigit z = true.
Proof.
  apply forallb_impl. intros b Hb. apply Byte.byte_dec_bl in Hb. subst b. reflexivity.
Qed.

Lemma discard_trailer_wf e t h l rest : forall tr turns rec,
  forallb wf_field tr = true ->
  (length tr < turns)%nat ->
  _read_and_discard_trailer rec_readline turns
    (mkRec (mkSock (concat (map render_field tr) ++ CRLF ++ rest) e false t h l) rec)
  = (Ret tt,
     mkRec (mkSock rest e false t h l)
       (rec ++ concat (map render_field tr) ++ CRLF)).
Proof.
  induction tr as [|f tr IH]; intros turns rec Hwf Hturns.
  - destruct turns as [|turns]; [simpl in Hturns; lia|].
    cbn [map concat app _read_and_discard_trailer].
    erewrite bind_Ret.
    2:{ apply (rec_readline_crlf e t h l rec [] rest); reflexivity. }
    reflexivity.
  - cbn [forallb] in Hwf. apply andb_true_iff in Hwf. destruct Hwf as [Hf Hfs].
    destruct turns as [|turns]; [simpl in Hturns; lia|].
    cbn [map concat _read_and_discard_trailer].
    rewrite render_field_content at 1. rewrite <- app_assoc.
    destruct (wf_field_parts f Hf) as (_ & _ & _ & _ & _ & Hfit).
    erewrite bind_Ret.
    2:{ apply rec_readline_crlf.
        - apply no_CRLF_no_LF. apply field_content_no_CRLF. assumption.
        - rewrite <- render_field_content. exact Hfit. }
    rewrite <- render_field_content.
    rewrite (fits_gtb _ Hfit).
    rewrite (field_line_not_blank f Hf).
    rewrite IH; auto; [|simpl in Hturns; lia].
    repeat rewrite <- app_assoc. reflexivity.
Qed.

Lemma concat_map_length {A} (f : A -> bytes) (xs : list A) :
  (forall x, 1 <= length (f x))%nat ->
  (length xs <= length (concat (map f xs)))%nat.
Proof.
  intros Hf. induction xs as [|x xs IH]; cbn [map concat length]; [lia|].
  rewrite length_app. specialize (Hf x). lia.
Qed.

Lemma render_chunk_length c : (1 <= length (render_chunk c))%nat.
Proof. unfold render_chunk, CRLF. repeat rewrite length_app. cbn [length]. lia. Qed.

Lemma render_field_length f : (1 <= length (render_field f))%nat.
Proof. unfold render_field, CRLF. repeat rewrite length_app. cbn [length]. lia. Qed.

Lemma wf_chunk_parts c :
  wf_chunk c = true ->
  size_text c <> [] /\ forallb is_hexdigit (size_text c) = true
  /\ digits_value 16 (size_text c) = len (data c)
  /\ data c <> []
  /\ wf_ext (ext c) = true
  /\ fits (chunk_line c) = true.
Proof.
  unfold wf_chunk, chunk_syntax. intros H.
  repeat (apply andb_true_iff in H; destruct H as [H ?]).
  repeat split; auto.
  - destruct (size_text c); discriminate.
  - apply Z.eqb_eq. assumption.
  - destruct (data c); discriminate.
Qed.

Lemma get_chunk_left_chunk e t h l rec rest cl pre c :
  between cl pre ->
  wf_chunk c = true ->
  _get_chunk_left rec_readline rec_read turns_of cl
    (mkRec (mkSock (pre ++ chunk_line c ++ rest) e false t h l) rec)
  = (Ret (Some (len (data c))),
     mkRec (mkSock rest e false t h l) (rec ++ pre ++ chunk_line c)).
Proof.
  intros Hb Hc.
  destruct (wf_chunk_parts c Hc) as (Hne & Hhex & Hval & Hdata & Hx & Hfit).
  assert (Hnz : (len (data c) =? 0)%Z = false).
  { apply Z.eqb_neq. unfold len. destruct (data c); [congruence|]. cbn [length]. lia. }
  assert (Hnext : forall rec',
    (n <- try_except (_read_next_chunk_size rec_readline) is_ValueError
            (raise IncompleteRead) ;;
     if (n =? 0)%Z
     then with_turns turns_of (_read_and_discard_trailer rec_readline) ;; ret None
     else ret (Some n))
      (mkRec (mkSock (chunk_line c ++ rest) e false t h l) rec')
    = (Ret (Some (len (data c))),
       mkRec (mkSock rest e false t h l) (rec' ++ chunk_line c))).
  { intros rec'. erewrite bind_Ret.
    2:{ apply try_except_Ret. apply next_chunk_size_wf; auto. }
    rewrite Hval, Hnz. reflexivity. }
  unfold _get_chunk_left. destruct Hb.
  - cbn [app]. rewrite Hnext. reflexivity.
  - cbn [Z.eqb].
    erewrite bind_Ret
      by (apply (safe_read_exact e t h l rec CRLF (chunk_line c ++ rest))).
    rewrite Hnext. rewrite <- app_assoc. reflexivity.
Qed.

Lemma get_chunk_left_last e t h l rec rest cl pre z x tr :
  between cl pre ->
  z <> [] ->
  forallb (fun b => Byte.eqb b x30) z = true ->
  wf_ext x = true ->
  fits (z ++ x ++ CRLF) = true ->
  forallb wf_field tr = true ->
  _get_chunk_left rec_readline rec_read turns_of cl
    (mkRec (mkSock (pre ++ (z ++ x ++ CRLF)
                    ++ concat (map render_field tr) ++ CRLF ++ rest)
              e false t h l) rec)
  = (Ret None,
     mkRec (mkSock rest e false t h l)
       (rec ++ pre ++ (z ++ x ++ CRLF) ++ concat (map render_field tr) ++ CRLF)).
Proof.
  intros Hb Hne Hz Hx Hfit Htr.
  assert (Hnext : forall rec',
    (n <- try_except (_read_next_chunk_size rec_readline) is_ValueError
            (raise IncompleteRead) ;;
     if (n =? 0)%Z
     then with_turns turns_of (_read_and_discard_trailer rec_readline) ;; ret None
     else ret (Some n))
      (mkRec (mkSock ((z ++ x ++ CRLF)
                      ++ concat (map render_field tr) ++ CRLF ++ rest)
                e false t h l) rec')
    = (Ret None,
       mkRec (mkSock rest e false t h l)
         (rec' ++ (z ++ x ++ CRLF) ++ concat (map render_field tr) ++ CRLF))).
  { intros rec'. erewrite bind_Ret.
    2:{ apply try_except_Ret. apply next_chunk_size_wf; auto.
        apply zeros_hex. assumption. }
    rewrite (zeros_value z Hz). cbn [Z.eqb].
    erewrite bind_Ret.
    2:{ unfold with_turns, turns_of. cbn [fp pending].
        apply discard_trailer_wf; [assumption|].
        rewrite length_app.
        pose proof (concat_map_length render_field tr render_field_length).
        lia. }
    unfold ret. repeat rewrite <- app_assoc. reflexivity. }
  unfold _get_chunk_left. destruct Hb.
  - cbn [app]. rewrite Hnext. reflexivity.
  - cbn [Z.eqb].
    erewrite bind_Ret by (apply (safe_read_exact e t h l rec CRLF)).
    rewrite Hnext. repeat rewrite <- app_assoc. reflexivity.
Qed.

Lemma render_chunk_line c :
  render_chunk c = chunk_line c ++ data c ++ CRLF.
Proof. unfold render_chunk, chunk_line. repeat rewrite <- app_assoc. reflexivity. Qed.

Lemma read_chunked_wf e t h l rest z x tr :
  z <> [] ->
  forallb (fun b => Byte.eqb b x30) z = true ->
  wf_ext x = true ->
  fits (z ++ x ++ CRLF) = true ->
  forallb wf_field tr = true ->
  forall cs turns cl pre value rec,
  between cl pre ->
  forallb wf_chunk cs = true ->
  (length cs < turns)%nat ->
  _read_chunked rec_readline rec_read turns_of turns cl value
    (mkRec (mkSock (pre ++ render_body (Chunked cs z x tr) ++ rest)
              e false t h l) rec)
  = (Ret (value ++ concat (map data cs)),
     mkRec (mkSock rest e false t h l)
       (rec ++ pre ++ render_body (Chunked cs z x tr))).
Proof.
  intros Hne Hz Hx Hfit Htr.
  induction cs as [|c cs IH]; intros turns cl pre value rec Hb Hcs Hturns;
    (destruct turns as [|turns]; [simpl in Hturns; lia|]).
  - cbn [render_body map concat app _read_chunked].
    replace ((z ++ x ++ CRLF ++ concat (map render_field tr) ++ CRLF) ++ rest)
      with ((z ++ x ++ CRLF) ++ concat (map render_field tr) ++ CRLF ++ rest)
      by (repeat rewrite <- app_assoc; reflexivity).
    erewrite bind_Ret.
    2:{ apply get_chunk_left_last; auto. }
    unfold ret. rewrite app_nil_r. repeat rewrite <- app_assoc. reflexivity.
  - cbn [forallb] in Hcs. apply andb_true_iff in Hcs. destruct Hcs as [Hc Hcs].
    cbn [render_body map concat _read_chunked].
    rewrite render_chunk_line. repeat rewrite <- app_assoc.
    rewrite (bind_Ret _ _ _ _ _
               (get_chunk_left_chunk e t h l rec _ cl pre c Hb Hc)).
    erewrite bind_Ret by apply safe_read_exact.
    specialize (IH turns (Some 0%Z) CRLF (value ++ data c)
                  (((rec ++ pre ++ chunk_line c) ++ data c)) after_chunk Hcs).
    cbn [render_body] in IH. repeat rewrite <- app_assoc in IH.
    repeat rewrite <- app_assoc.
    rewrite IH by (simpl in Hturns; lia).
    repeat rewrite <- app_assoc. reflexivity.
Qed.

(** *** One whole message *)

Lemma forallb_both {A} (p q : A -> bool) l :
  forallb p l = true -> forallb q l = true ->
  forallb (fun x => p x && q x) l = true.
Proof.
  induction l as [|x l IH]; cbn [forallb]; intros Hp Hq; [reflexivity|].
  apply andb_true_iff in Hp. destruct Hp as [-> Hp].
  apply andb_true_iff in Hq. destruct Hq as [-> Hq].
  cbn. auto.
Qed.

Lemma head_length_fixed m content :
  body m = Fixed content ->
  framing_syntax m = true ->
  expects_body m = true ->
  digits_value 10 (code m) <> 100%Z
  /\ says_chunked (fields m) = false
  /\ head_length m = Some (len content).
Proof.
  unfold framing_syntax, expects_body. intros Hbody H Hbl. rewrite Hbody in H, Hbl.
  apply andb_true_iff in H. destruct H as [Hch Hlen].
  apply negb_true_iff in Hbl. apply negb_true_iff in Hch.
  split; [|split; [exact Hch|]].
  - intros E. rewrite E in Hbl. discriminate.
  - unfold head_length. rewrite Hbl, Hch.
    unfold declared_length in Hlen.
    destruct (get (lit "content-length") (pairs (fields m))) as [v|]; [|discriminate].
    destruct (nonempty v && forallb is_digit v) eqn:Hv; [|discriminate].
    apply andb_true_iff in Hv. destruct Hv as [Hne Hd].
    apply Z.eqb_eq in Hlen.
    destruct v as [|b v]; [discriminate|].
    assert (Hint : py_int int_str_space 10 (b :: v) = Some (digits_value 10 (b :: v))).
    { rewrite <- (app_nil_r (b :: v)) at 1. apply py_int_digits; auto.
      - discriminate.
      - eapply forallb_impl; [apply is_digit_below | assumption].
      - eapply forallb_impl; [apply digit_not_int_space | assumption].
      - eapply forallb_impl; [apply digit_no_sign | assumption]. }
    rewrite Hint, Hlen.
    destruct (Z.ltb_spec (len content) 0) as [Hneg|_]; [unfold len in Hneg; lia|].
    reflexivity.
Qed.

Lemma wf_head_intro m :
  well_formed_head m = true -> head_within_limits m = true -> wf_head m = true.
Proof.
  unfold well_formed_head, head_within_limits. intros Hwf Hlim.
  apply andb_true_iff in Hwf. destruct Hwf as [Hst Hfs].
  apply andb_true_iff in Hlim. destruct Hlim as [Hlim Hcount].
  apply andb_true_iff in Hlim. destruct Hlim as [Hfit Hffit].
  unfold wf_head. rewrite Hst, Hfit, Hcount.
  unfold wf_field. rewrite (forallb_both _ _ _ Hfs Hffit). reflexivity.
Qed.

Theorem read_http_res_wf m rest e t h l ad c :
  well_formed m = true ->
  within_limits m = true ->
  expects_body m = true ->
  read_http_res (mkFlush (mkSock (render m ++ rest) e false t h l) ad c)
  = (Ret (render m), mkFlush (mkSock rest e false t h l) ad c).
Proof.
  unfold well_formed, within_limits. intros Hwf Hlim Hexp.
  apply andb_true_iff in Hwf. destruct Hwf as [Hwf Hfr].
  apply andb_true_iff in Hlim. destruct Hlim as [Hlim Hblim].
  pose proof (wf_head_intro m Hwf Hlim) as Hhead.
  unfold read_http_res. cbn [_obj _auto_drain _closed].
  unfold render. rewrite <- app_assoc.
  destruct (body m) as [content | cs z x tr] eqn:Hbody.
  - destruct (head_length_fixed m content Hbody Hfr Hexp) as (H100 & Hch & Hlen).
    erewrite bind_Ret by (apply begin_wf; assumption).
    unfold HttpClient.read. cbn [chunked length_]. rewrite Hch, Hlen.
    cbn [render_body].
    erewrite bind_Ret by apply safe_read_exact.
    reflexivity.
  - unfold framing_syntax in Hfr. rewrite Hbody in Hfr.
    repeat (apply andb_true_iff in Hfr; destruct Hfr as [Hfr ?]).
    rename Hfr into Hch, H into Htr, H0 into Hx, H1 into Hz, H2 into Hne,
      H3 into Hcs.
    repeat (apply andb_true_iff in Hblim; destruct Hblim as [Hblim ?]).
    rename Hblim into Hcfit, H into Htfit, H0 into Hzfit.
    unfold expects_body in Hexp. rewrite Hbody in Hexp.
    apply negb_true_iff in Hexp. apply Z.eqb_neq in Hexp.
    erewrite bind_Ret by (apply begin_wf; assumption).
    unfold HttpClient.read. cbn [chunked]. rewrite Hch.
    pose proof (read_chunked_wf e t h l rest z x tr) as Hloop.
    assert (Hzne : z <> []) by (destruct z; discriminate).
    assert (Htr' : forallb wf_field tr = true)
      by (unfold wf_field; apply forallb_both; assumption).
    assert (Hcs' : forallb wf_chunk cs = true)
      by (unfold wf_chunk; apply forallb_both; assumption).
    specialize (Hloop Hzne Hz Hx Hzfit Htr' cs).
    erewrite bind_Ret.
    2:{ unfold with_turns, turns_of. cbn [fp pending].
        apply (Hloop _ None [] [] ([] ++ render_head m) at_start Hcs').
        cbn [app render_body]. repeat rewrite length_app.
        pose proof (concat_map_length render_chunk cs render_chunk_length).
        lia. }
    reflexivity.
Qed.

(** *** What a successful read leaves behind *)

Lemma with_pending_same f : with_pending (pending f) f = f.
Proof. destruct f; reflexivity. Qed.

Lemma advanced_refl r : advanced r r.
Proof. split; [symmetry; apply with_pending_same | reflexivity]. Qed.

Lemma advanced_trans r1 r2 r3 :
  advanced r1 r2 -> advanced r2 r3 -> advanced r1 r3.
Proof.
  intros [H1 E1] [H2 E2]. split.
  - rewrite H2, H1. reflexivity.
  - congruence.
Qed.

Lemma take_line_split : forall s cap line rest done,
  take_line cap s = (line, rest, done) -> s = line ++ rest.
Proof.
  induction s as [|b s IH]; intros cap line rest done H.
  - destruct cap as [[|n]|]; cbn in H; inversion H; reflexivity.
  - destruct cap as [[|n]|]; cbn [take_line] in H.
    + inversion H; reflexivity.
    + destruct (Byte.eqb b LF); [inversion H; reflexivity|].
      destruct (take_line (option_map pred (Some (Datatypes.S n))) s) as [[l0 r0] d0] eqn:E.
      inversion H; subst. cbn [app]. f_equal. eapply IH. exact E.
    + destruct (Byte.eqb b LF); [inversion H; reflexivity|].
      destruct (take_line (option_map pred None) s) as [[l0 r0] d0] eqn:E.
      inversion H; subst. cbn [app]. f_equal. eapply IH. exact E.
Qed.

Lemma starved_Ret partial f v f' :
  starved partial f = (Ret v, f') -> v = partial /\ f' = f.
Proof.
  unfold starved. destruct (timeout f) as [t|]; [|discriminate].
  destruct (t =? 0)%Z; [|discriminate].
  intros H; inversion H; auto.
Qed.

Lemma sock_readline_Ret n f v f' :
  sock_readline n f = (Ret v, f') ->
  closed f = false
  /\ exists line, v = PBytes line
     /\ f' = with_pending (pending f') f
     /\ pending f = line ++ pending f'.
Proof.
  unfold sock_readline. destruct (closed f) eqn:Hc; [discriminate|].
  destruct (take_line (if (n <? 0)%Z then None else Some (Z.to_nat n)) (pending f))
    as [[line rest] done] eqn:E.
  apply take_line_split in E.
  intros H. split; [reflexivity|]. exists line.
  destruct (done || at_eof f).
  - inversion H; subst. cbn. auto.
  - apply starved_Ret in H. destruct H as [-> ->]. cbn. auto.
Qed.

Lemma sock_read_Ret n f v f' :
  sock_read n f = (Ret v, f') ->
  closed f = false
  /\ f' = with_pending (pending f') f
  /\ match v with
     | PBytes b => pending f = b ++ pending f'
     | PNone => True
     end.
Proof.
  unfold sock_read. destruct (closed f) eqn:Hc; [discriminate|].
  intros H. split; [reflexivity|].
  destruct (n <? 0)%Z.
  - destruct (at_eof f).
    + inversion H; subst. cbn. rewrite app_nil_r. auto.
    + apply starved_Ret in H. destruct H as [-> ->]. cbn.
      destruct (pending f); cbn; rewrite ?app_nil_r; auto.
  - destruct (pending f) as [|b p] eqn:Hp.
    + destruct ((n =? 0)%Z || at_eof f).
      * inversion H; subst. rewrite Hp. cbn. split; [|reflexivity].
        rewrite <- Hp. symmetry. apply with_pending_same.
      * apply starved_Ret in H. destruct H as [-> ->].
        rewrite Hp. split; [|exact I]. rewrite <- Hp. symmetry. apply with_pending_same.
    + inversion H; subst. cbn. split; [reflexivity|].
      symmetry. apply firstn_skipn.
Qed.

Lemma record_Ret v r b r' :
  record v r = (Ret b, r') -> v = PBytes b /\ r' = mkRec (fp r) (recorded r ++ b).
Proof. destruct v; cbn; intros H; inversion H; auto. Qed.

Lemma on_fp_Ret {A} (m : M sockfile A) r a r' :
  on_fp m r = (Ret a, r') ->
  exists f', m (fp r) = (Ret a, f') /\ r' = mkRec f' (recorded r).
Proof.
  unfold on_fp. destruct (m (fp r)) as [o f'] eqn:E.
  intros H; inversion H; subst. eauto.
Qed.

Lemma rec_readline_Ret n r line r' :
  rec_readline n r = (Ret line, r') ->
  closed (fp r) = false /\ advanced r r'.
Proof.
  unfold rec_readline. intros H.
  apply bind_Ret_inv in H. destruct H as (v & r1 & H1 & H2).
  apply on_fp_Ret in H1. destruct H1 as (f' & H1 & ->).
  apply sock_readline_Ret in H1. destruct H1 as (Hc & l0 & -> & Hf & Hp).
  apply record_Ret in H2. destruct H2 as [E ->]. inversion E; subst l0.
  split; [exact Hc|]. split; cbn; [exact Hf|].
  rewrite Hp. rewrite app_assoc. reflexivity.
Qed.

Lemma rec_read_Ret n r b r' :
  rec_read n r = (Ret b, r') ->
  closed (fp r) = false /\ advanced r r'.
Proof.
  unfold rec_read. intros H.
  apply bind_Ret_inv in H. destruct H as (v & r1 & H1 & H2).
  apply on_fp_Ret in H1. destruct H1 as (f' & H1 & ->).
  apply sock_read_Ret in H1. destruct H1 as (Hc & Hf & Hp).
  apply record_Ret in H2. destruct H2 as [-> ->].
  split; [exact Hc|]. split; cbn; [exact Hf|].
  rewrite Hp. rewrite app_assoc. reflexivity.
Qed.

(** *** Every step of the response object only advances the recorder *)

Lemma preserves_ret {A} (a : A) : preserves (ret a).
Proof. intros r a' r' H. inversion H. apply advanced_refl. Qed.

Lemma preserves_raise {A} e : preserves (@raise _ A e).
Proof. intros r a' r' H. discriminate. Qed.

Lemma preserves_out_of_fuel {A} : preserves (@out_of_fuel _ A).
Proof. intros r a' r' H. discriminate. Qed.

Lemma preserves_bind {A B} (m : M RecordingFile A) (k : A -> M RecordingFile B) :
  preserves m -> (forall a, preserves (k a)) -> preserves (bind m k).
Proof.
  intros Hm Hk r b r' H. apply bind_Ret_inv in H.
  destruct H as (a & r1 & H1 & H2).
  eapply advanced_trans; [eapply Hm | eapply Hk]; eassumption.
Qed.

Lemma preserves_try_raise {A} (m : M RecordingFile A) cls e :
  preserves m -> preserves (try_except m cls (raise e)).
Proof.
  intros Hm r a r' H. unfold try_except in H.
  destruct (m r) as [[a0|e0| |] r1] eqn:E; try discriminate.
  - inversion H; subst. eapply Hm; eassumption.
  - destruct (cls e0); discriminate.
Qed.

Lemma preserves_with_turns {A} (loop : nat -> M RecordingFile A) :
  (forall n, preserves (loop n)) -> preserves (with_turns turns_of loop).
Proof. intros H r a r' E. unfold with_turns in E. eapply H; eassumption. Qed.

Lemma preserves_rec_readline n : preserves (rec_readline n).
Proof. intros r a r' H. apply rec_readline_Ret in H. tauto. Qed.

Lemma preserves_rec_read n : preserves (rec_read n).
Proof. intros r a r' H. apply rec_read_Ret in H. tauto. Qed.

Create HintDb pres.

#[local] Hint Resolve preserves_rec_readline preserves_rec_read : pres.

Ltac pres :=
  repeat first
    [ apply preserves_ret
    | apply preserves_raise
    | apply preserves_out_of_fuel
    | solve [auto with pres]
    | apply preserves_try_raise
    | apply preserves_with_turns; intros ?
    | apply preserves_bind; [|intros ?]
    | match goal with
      | |- preserves (if ?c then _ else _) => destruct c
      | |- preserves (match ?x with _ => _ end) => destruct x
      | |- preserves (let (_, _) := ?x in _) => destruct x
      end ].

Lemma preserves_read_status : preserves (_read_status rec_readline).
Proof. unfold _read_status. pres. Qed.

#[local] Hint Resolve preserves_read_status : pres.

Lemma preserves_read_header_lines room :
  forall headers, preserves (read_header_lines rec_readline room headers).
Proof.
  induction room as [|room IH]; intros headers;
    rewrite read_header_lines_eq; pres.
Qed.

Lemma preserves_read_headers : preserves (_read_headers rec_readline).
Proof. apply preserves_read_header_lines. Qed.

#[local] Hint Resolve preserves_read_headers : pres.

Lemma preserves_read_final_status turns :
  preserves (read_final_status rec_readline turns).
Proof. induction turns as [|turns IH]; cbn [read_final_status]; pres. Qed.

#[local] Hint Resolve preserves_read_final_status : pres.

Lemma preserves_begin : preserves (begin rec_readline turns_of).
Proof. unfold begin, parse_headers. pres. Qed.

Lemma preserves_safe_read n : preserves (_safe_read rec_read n).
Proof. unfold _safe_read. pres. Qed.

Lemma preserves_next_chunk_size :
  preserves (_read_next_chunk_size rec_readline).
Proof. unfold _read_next_chunk_size. pres. Qed.

Lemma preserves_discard_trailer turns :
  preserves (_read_and_discard_trailer rec_readline turns).
Proof. induction turns as [|turns IH]; cbn [_read_and_discard_trailer]; pres. Qed.

#[local] Hint Resolve preserves_safe_read preserves_next_chunk_size
  preserves_discard_trailer : pres.

Lemma preserves_get_chunk_left cl :
  preserves (_get_chunk_left rec_readline rec_read turns_of cl).
Proof. unfold _get_chunk_left. pres. Qed.

#[local] Hint Resolve preserves_get_chunk_left : pres.

Lemma preserves_read_chunked turns :
  forall cl value,
    preserves (_read_chunked rec_readline rec_read turns_of turns cl value).
Proof.
  induction turns as [|turns IH]; intros cl value; cbn [_read_chunked]; pres.
Qed.

#[local] Hint Resolve preserves_read_chunked : pres.

Lemma preserves_read resp :
  preserves (HttpClient.read rec_readline rec_read turns_of resp).
Proof. unfold HttpClient.read. pres. Qed.

(** Whatever [read_http_res] returns is what it took from the stream: the
    bytes returned, followed by the bytes left, are the bytes that were
    pending. *)
Theorem read_http_res_verbatim w out w' :
  read_http_res w = (Ret out, w') ->
  pending (_obj w) = out ++ pending (_obj w')
  /\ w' = mkFlush (with_pending (pending (_obj w')) (_obj w))
            (_auto_drain w) (_closed w).
Proof.
  unfold read_http_res.
  destruct ((resp <- begin rec_readline turns_of ;;
             HttpClient.read rec_readline rec_read turns_of resp ;;
             gets recorded) (mkRec (_obj w) [])) as [o r'] eqn:E.
  intros H. inversion H; subst. clear H.
  apply bind_Ret_inv in E. destruct E as (resp & r1 & E1 & E).
  apply bind_Ret_inv in E. destruct E as (body & r2 & E2 & E3).
  inversion E3; subst. clear E3.
  apply preserves_begin in E1. apply preserves_read in E2.
  destruct (advanced_trans _ _ _ E1 E2) as [Hf Hp]. cbn in Hf, Hp.
  split; [exact Hp|]. cbn. rewrite Hf at 1. reflexivity.
Qed.

(** *** Reading at the end of the stream *)

Lemma rec_read_eof n p t h l rec :
  (0 <= n)%Z ->
  rec_read n (mkRec (mkSock p true false t h l) rec)
  = (Ret (firstn (Z.to_nat n) p),
     mkRec (mkSock (skipn (Z.to_nat n) p) true false t h l)
       (rec ++ firstn (Z.to_nat n) p)).
Proof.
  intros Hn. unfold rec_read, on_fp, bind, sock_read.
  cbn [fp recorded closed pending at_eof].
  destruct (Z.ltb_spec n 0) as [Hneg|_]; [lia|].
  destruct p as [|b p].
  - rewrite orb_true_r. rewrite firstn_nil, skipn_nil. reflexivity.
  - reflexivity.
Qed.

Lemma rec_read_all n p t h l rec :
  (n < 0)%Z ->
  rec_read n (mkRec (mkSock p true false t h l) rec)
  = (Ret p, mkRec (mkSock [] true false t h l) (rec ++ p)).
Proof.
  intros Hn. unfold rec_read, on_fp, bind, sock_read.
  cbn [fp recorded closed pending at_eof].
  destruct (Z.ltb_spec n 0) as [_|Hpos]; [|lia].
  reflexivity.
Qed.

Lemma safe_read_short n p t h l rec :
  (len p < n)%Z ->
  exists s,
    _safe_read rec_read n (mkRec (mkSock p true false t h l) rec)
    = (Exc IncompleteRead, s).
Proof.
  intros Hn. unfold _safe_read.
  assert (H0 : (0 <= n)%Z) by (unfold len in Hn; lia).
  erewrite bind_Ret by (apply rec_read_eof; assumption).
  assert (Hshort : (len (firstn (Z.to_nat n) p) <? n)%Z = true).
  { apply Z.ltb_lt. unfold len in *. rewrite length_firstn. lia. }
  rewrite Hshort. eexists. reflexivity.
Qed.

Lemma safe_read_all n p t h l rec :
  (n < 0)%Z ->
  _safe_read rec_read n (mkRec (mkSock p true false t h l) rec)
  = (Ret p, mkRec (mkSock [] true false t h l) (rec ++ p)).
Proof.
  intros Hn. unfold _safe_read.
  erewrite bind_Ret by (apply rec_read_all; assumption).
  assert (Hlen : (len p <? n)%Z = false) by (apply Z.ltb_ge; unfold len; lia).
  rewrite Hlen. reflexivity.
Qed.

Lemma safe_read_enough n p t h l rec :
  (0 <= n <= len p)%Z ->
  _safe_read rec_read n (mkRec (mkSock p true false t h l) rec)
  = (Ret (firstn (Z.to_nat n) p),
     mkRec (mkSock (skipn (Z.to_nat n) p) true false t h l)
       (rec ++ firstn (Z.to_nat n) p)).
Proof.
  intros Hn. unfold _safe_read.
  erewrite bind_Ret by (apply rec_read_eof; lia).
  assert (Hlen : (len (firstn (Z.to_nat n) p) <? n)%Z = false).
  { apply Z.ltb_ge. unfold len in *. rewrite length_firstn. lia. }
  rewrite Hlen. reflexivity.
Qed.

Lemma rec_readline_next p e t h l rec line rest done :
  next_line p = (line, rest, done) ->
  done || e = true ->
  rec_readline (_MAXLINE + 1) (mkRec (mkSock p e false t h l) rec)
  = (Ret line, mkRec (mkSock rest e false t h l) (rec ++ line)).
Proof.
  unfold next_line. intros Hline Hdone.
  unfold rec_readline, on_fp, bind, sock_readline.
  cbn [fp recorded closed pending at_eof].
  destruct (Z.ltb_spec (_MAXLINE + 1) 0) as [Hneg|_];
    [unfold _MAXLINE in Hneg; lia|].
  rewrite Hline, Hdone. reflexivity.
Qed.

(** *** Responses without framing *)

Lemma head_length_unframed m :
  unframed m = true ->
  says_chunked (fields m) = false
  /\ head_length m
     = if bodiless (digits_value 10 (code m)) then Some 0%Z else None.
Proof.
  unfold unframed. intros H. apply andb_true_iff in H. destruct H as [Hch Hcl].
  apply negb_true_iff in Hch. split; [exact Hch|].
  unfold head_length. rewrite Hch.
  destruct (get (lit "content-length") (pairs (fields m))); [discriminate|].
  reflexivity.
Qed.

Theorem unframed_response m rest e t h l ad c :
  well_formed_head m = true ->
  head_within_limits m = true ->
  digits_value 10 (code m) <> 100%Z ->
  unframed m = true ->
  let w := mkFlush (mkSock (render_head m ++ rest) e false t h l) ad c in
  (bodiless (digits_value 10 (code m)) = true ->
   read_http_res w
   = (Ret (render_head m), mkFlush (mkSock rest e false t h l) ad c))
  /\ (bodiless (digits_value 10 (code m)) = false -> e = true ->
      read_http_res w
      = (Ret (render_head m ++ rest), mkFlush (mkSock [] e false t h l) ad c))
  /\ (bodiless (digits_value 10 (code m)) = false -> e = false -> t = None ->
      fst (read_http_res w) = Hang)
  /\ (bodiless (digits_value 10 (code m)) = false -> e = false ->
      forall d, t = Some d -> d <> 0%Z ->
      fst (read_http_res w) = Exc TimeoutError).
Proof.
  intros Hwf Hlim H100 Hun w.
  pose proof (wf_head_intro m Hwf Hlim) as Hhead.
  destruct (head_length_unframed m Hun) as [Hch Hlen].
  assert (Hbegin := begin_wf e t h l [] m rest Hhead H100).
  rewrite Hch, Hlen in Hbegin. cbn [app] in Hbegin.
  subst w. unfold read_http_res. cbn [_obj _auto_drain _closed].
  repeat split.
  - intros Hbl. rewrite Hbl in Hbegin.
    erewrite bind_Ret by exact Hbegin.
    unfold HttpClient.read. cbn [chunked length_].
    erewrite bind_Ret
      by (apply (safe_read_exact e t h l (render_head m) [] rest)).
    cbn. rewrite app_nil_r. reflexivity.
  - intros Hbl ->. rewrite Hbl in Hbegin.
    erewrite bind_Ret by exact Hbegin.
    unfold HttpClient.read. cbn [chunked length_].
    erewrite bind_Ret by (apply rec_read_all; lia).
    reflexivity.
  - intros Hbl -> ->. rewrite Hbl in Hbegin.
    erewrite bind_Ret by exact Hbegin.
    unfold HttpClient.read. cbn [chunked length_].
    reflexivity.
  - intros Hbl -> d -> Hd. rewrite Hbl in Hbegin.
    erewrite bind_Ret by exact Hbegin.
    unfold HttpClient.read. cbn [chunked length_].
    unfold bind at 1. unfold rec_read, bind, on_fp, sock_read, starved.
    cbn [fp closed at_eof pending timeout with_pending has_settimeout log recorded].
    apply Z.eqb_neq in Hd.
    destruct (-1 <? 0)%Z eqn:E; [|discriminate].
    rewrite Hd. reflexivity.
Qed.

(** *** Bodies that can not be framed *)

Lemma begin_open r resp r1 :
  begin rec_readline turns_of r = (Ret resp, r1) -> closed (fp r1) = false.
Proof.
  intros H. pose proof (preserves_begin _ _ _ H) as [Hf _].
  rewrite Hf. cbn.
  unfold begin in H. apply bind_Ret_inv in H. destruct H as (vs & r2 & H & _).
  unfold with_turns, turns_of in H. cbn [read_final_status] in H.
  apply bind_Ret_inv in H. destruct H as (vs' & r3 & H & _).
  unfold _read_status in H.
  apply bind_Ret_inv in H. destruct H as (line & r4 & H & _).
  apply rec_readline_Ret in H. tauto.
Qed.

Lemma read_chunked_prefix e t h l tail : forall cs turns cl pre value rec,
  between cl pre ->
  forallb wf_chunk cs = true ->
  exists cl' pre' value' rec',
    between cl' pre'
    /\ _read_chunked rec_readline rec_read turns_of (length cs + turns) cl value
         (mkRec (mkSock (pre ++ concat (map render_chunk cs) ++ tail)
                   e false t h l) rec)
       = _read_chunked rec_readline rec_read turns_of turns cl' value'
           (mkRec (mkSock (pre' ++ tail) e false t h l) rec').
Proof.
  induction cs as [|c cs IH]; intros turns cl pre value rec Hb Hcs.
  - exists cl, pre, value, rec. split; [assumption | reflexivity].
  - cbn [forallb] in Hcs. apply andb_true_iff in Hcs. destruct Hcs as [Hc Hcs].
    destruct (IH turns (Some 0%Z) CRLF (value ++ data c)
                (rec ++ pre ++ chunk_line c ++ data c) after_chunk Hcs)
      as (cl' & pre' & value' & rec' & Hb' & E).
    exists cl', pre', value', rec'. split; [assumption|].
    rewrite <- E. cbn [length Nat.add map concat _read_chunked].
    rewrite render_chunk_line. repeat rewrite <- app_assoc.
    rewrite (bind_Ret _ _ _ _ _
               (get_chunk_left_chunk e t h l rec _ cl pre c Hb Hc)).
    erewrite bind_Ret by apply safe_read_exact.
    repeat rewrite <- app_assoc. reflexivity.
Qed.

Lemma toss_then {A} e t h l rec tail cl pre (next : M RecordingFile A) :
  between cl pre ->
  (match cl with
   | None => next
   | Some c => if (c =? 0)%Z then _safe_read rec_read 2 ;; next
               else ret (Some c) ;; next
   end) (mkRec (mkSock (pre ++ tail) e false t h l) rec)
  = next (mkRec (mkSock tail e false t h l) (rec ++ pre)).
Proof.
  intros [|].
  - cbn [app]. rewrite app_nil_r. reflexivity.
  - cbn [Z.eqb].
    erewrite bind_Ret by (apply (safe_read_exact e t h l rec CRLF tail)).
    reflexivity.
Qed.

Lemma get_chunk_left_unfold e t h l rec tail cl pre :
  between cl pre ->
  _get_chunk_left rec_readline rec_read turns_of cl
    (mkRec (mkSock (pre ++ tail) e false t h l) rec)
  = (n <- try_except (_read_next_chunk_size rec_readline) is_ValueError
            (raise IncompleteRead) ;;
     if (n =? 0)%Z
     then with_turns turns_of (_read_and_discard_trailer rec_readline) ;; ret None
     else ret (Some n))
      (mkRec (mkSock tail e false t h l) (rec ++ pre)).
Proof.
  intros [|]; unfold _get_chunk_left.
  - cbn [app]. rewrite app_nil_r. reflexivity.
  - cbn [Z.eqb].
    erewrite bind_Ret by (apply (safe_read_exact e t h l rec CRLF tail)).
    reflexivity.
Qed.

Lemma get_chunk_left_at e t h l rec tail cl pre line rest done :
  between cl pre ->
  next_line tail = (line, rest, done) ->
  done || e = true ->
  exists s,
    _get_chunk_left rec_readline rec_read turns_of cl
      (mkRec (mkSock (pre ++ tail) e false t h l) rec)
    = (if (len line >? _MAXLINE)%Z then (Exc LineTooLong, s)
       else
         match size_field line with
         | None => (Exc IncompleteRead, s)
         | Some n =>
             if (n =? 0)%Z then
               (with_turns turns_of (_read_and_discard_trailer rec_readline) ;;
                ret None) s
             else (Ret (Some n), s)
         end)
    /\ s = mkRec (mkSock rest e false t h l) ((rec ++ pre) ++ line).
Proof.
  intros Hb Hnl Hdone. eexists. split; [|reflexivity].
  rewrite (get_chunk_left_unfold e t h l rec tail cl pre Hb).
  unfold bind at 1. unfold try_except, _read_next_chunk_size.
  erewrite bind_Ret by (eapply rec_readline_next; eassumption).
  destruct (len line >? _MAXLINE)%Z; [reflexivity|].
  unfold size_field.
  destruct (py_int c_isspace 16
              (takewhile (fun b => negb (Byte.eqb b x3b)) line)) as [n|];
    [|reflexivity].
  cbn [ret]. destruct (n =? 0)%Z; reflexivity.
Qed.

Lemma next_line_nonempty tail line rest done :
  next_line tail = (line, rest, done) -> line <> [] -> tail <> [].
Proof.
  intros Hnl Hline ->. unfold next_line in Hnl. cbn in Hnl.
  destruct (Z.to_nat (_MAXLINE + 1)); inversion Hnl; subst; congruence.
Qed.

Lemma size_field_nonempty line n : size_field line = Some n -> line <> [].
Proof. intros H ->. discriminate. Qed.

Lemma read_chunked_fault e t h l tail turns cl pre value rec :
  between cl pre ->
  fault e tail ->
  (tail <> [] -> 1 <= turns)%nat ->
  framing_error
    (fst (_read_chunked rec_readline rec_read turns_of (Datatypes.S turns) cl value
            (mkRec (mkSock (pre ++ tail) e false t h l) rec))).
Proof.
  intros Hb Hfault Hturns.
  cbn [_read_chunked].
  destruct Hfault as [line rest done Hnl Hdone Hsz
                     | line rest done n Hnl He Hsz Hn
                     | line rest done n Hnl He Hsz Hn Hend].
  - destruct (get_chunk_left_at e t h l rec tail cl pre line rest done Hb Hnl Hdone)
      as (s & E & _).
    rewrite Hsz in E.
    destruct (len line >? _MAXLINE)%Z;
      rewrite (bind_Exc _ _ _ _ _ E); [right | left]; reflexivity.
  - assert (Hdone : done || e = true) by (rewrite He; apply orb_true_r).
    destruct (get_chunk_left_at e t h l rec tail cl pre line rest done Hb Hnl Hdone)
      as (s & E & Hs).
    rewrite Hsz in E.
    destruct (len line >? _MAXLINE)%Z;
      [rewrite (bind_Exc _ _ _ _ _ E); right; reflexivity|].
    assert (Hnz : (n =? 0)%Z = false)
      by (apply Z.eqb_neq; unfold len in Hn; lia).
    rewrite Hnz in E. rewrite (bind_Ret _ _ _ _ _ E). subst s e.
    left. destruct Hn as [Hneg | Hshort].
    + erewrite bind_Ret by (apply safe_read_all; assumption).
      pose proof (next_line_nonempty _ _ _ _ Hnl (size_field_nonempty _ _ Hsz)) as Htail.
      destruct turns as [|turns]; [specialize (Hturns Htail); lia|].
      cbn [_read_chunked]. unfold _get_chunk_left. cbn [Z.eqb].
      destruct (safe_read_short 2 [] t h l (((rec ++ pre) ++ line) ++ rest)
                  ltac:(cbn; lia)) as (s & Es).
      rewrite (bind_Exc _ _ _ _ _ (bind_Exc _ _ _ _ _ Es)). reflexivity.
    + destruct (safe_read_short n rest t h l ((rec ++ pre) ++ line) Hshort)
        as (s & Es).
      rewrite (bind_Exc _ _ _ _ _ Es). reflexivity.
  - assert (Hdone : done || e = true) by (rewrite He; apply orb_true_r).
    destruct (get_chunk_left_at e t h l rec tail cl pre line rest done Hb Hnl Hdone)
      as (s & E & Hs).
    rewrite Hsz in E.
    destruct (len line >? _MAXLINE)%Z;
      [rewrite (bind_Exc _ _ _ _ _ E); right; reflexivity|].
    assert (Hnz : (n =? 0)%Z = false) by (apply Z.eqb_neq; lia).
    rewrite Hnz in E. rewrite (bind_Ret _ _ _ _ _ E). subst s e.
    left.
    erewrite bind_Ret by (apply safe_read_enough; lia).
    pose proof (next_line_nonempty _ _ _ _ Hnl (size_field_nonempty _ _ Hsz)) as Htail.
    destruct turns as [|turns]; [specialize (Hturns Htail); lia|].
    cbn [_read_chunked]. unfold _get_chunk_left. cbn [Z.eqb].
    destruct (safe_read_short 2 (skipn (Z.to_nat n) rest) t h l
                (((rec ++ pre) ++ line) ++ firstn (Z.to_nat n) rest)
                ltac:(unfold len; lia)) as (s & Es).
    rewrite (bind_Exc _ _ _ _ _ (bind_Exc _ _ _ _ _ Es)). reflexivity.
Qed.

(** Whatever the head was: once [begin] has returned, a body that is cut
    short or whose chunk framing fails makes [read_http_res] raise. *)
Theorem read_http_res_fault w resp r1 :
  begin rec_readline turns_of (mkRec (_obj w) []) = (Ret resp, r1) ->
  body_fault resp (at_eof (fp r1)) (pending (fp r1)) ->
  framing_error (fst (read_http_res w)).
Proof.
  intros Hbegin Hfault.
  pose proof (begin_open _ _ _ Hbegin) as Hopen.
  assert (Hread : exists e s,
            HttpClient.read rec_readline rec_read turns_of resp r1 = (Exc e, s)
            /\ (e = IncompleteRead \/ e = LineTooLong)).
  { destruct r1 as [[p e c t h l] rec]. cbn in Hopen, Hfault. subst c.
    destruct Hfault as [n Hch Hlen Hshort He | cs tail Hch Hcs Hbody Hfault].
    - subst e. unfold HttpClient.read. rewrite Hch, Hlen.
      destruct (safe_read_short n p t h l rec Hshort) as (s & Es).
      exists IncompleteRead, s. auto.
    - unfold HttpClient.read. rewrite Hch. subst p.
      unfold with_turns, turns_of. cbn [fp pending].
      destruct (read_chunked_prefix e t h l tail cs
                  (Datatypes.S (length (concat (map render_chunk cs) ++ tail))
                   - length cs) None [] [] rec at_start Hcs)
        as (cl' & pre' & value' & rec' & Hb' & E).
      pose proof (concat_map_length render_chunk cs render_chunk_length) as Hcl.
      replace (length cs
               + (Datatypes.S (length (concat (map render_chunk cs) ++ tail))
                  - length cs))%nat
        with (Datatypes.S (length (concat (map render_chunk cs) ++ tail))) in E
        by (rewrite length_app; lia).
      cbn [app] in E.
      assert (Hturns :
        exists k, (Datatypes.S (length (concat (map render_chunk cs) ++ tail))
                   - length cs = Datatypes.S k)%nat
                  /\ (tail <> [] -> 1 <= k)%nat).
      { exists (length (concat (map render_chunk cs) ++ tail) - length cs)%nat.
        rewrite length_app. split; [lia|].
        intros Hne. destruct tail; [congruence|]. cbn [length]. lia. }
      destruct Hturns as (k & Hk & Hk1). rewrite Hk in E.
      pose proof (read_chunked_fault e t h l tail k cl' pre' value' rec' Hb' Hfault Hk1)
        as Herr.
      rewrite <- E in Herr.
      destruct (_read_chunked rec_readline rec_read turns_of
                  (Datatypes.S (length (concat (map render_chunk cs) ++ tail)))
                  None []
                  (mkRec (mkSock (concat (map render_chunk cs) ++ tail) e false t h l) rec))
        as [o s] eqn:Eo.
      cbn [fst] in Herr.
      destruct Herr as [-> | ->]; eexists; eexists; split; eauto. }
  destruct Hread as (e & s & Hread & He).
  unfold read_http_res. rewrite (bind_Ret _ _ _ _ _ Hbegin).
  rewrite (bind_Exc _ _ _ _ _ Hread). cbn [fst].
  destruct He as [-> | ->]; [left | right]; reflexivity.
Qed.

(** *** What [int] accepts as a chunk size *)

Lemma forallb_dropwhile (p q : byte -> bool) s :
  (forall b, p b = true -> q b = true) ->
  forallb q (dropwhile p s) = true -> forallb q s = true.
Proof.
  intros Hpq. induction s as [|b s IH]; cbn; auto.
  destruct (p b) eqn:Hp.
  - intros H. rewrite (Hpq b Hp). auto.
  - cbn. auto.
Qed.

Lemma forallb_strip (p q : byte -> bool) s :
  (forall b, p b = true -> q b = true) ->
  forallb q (rstrip p (lstrip p s)) = true -> forallb q s = true.
Proof.
  intros Hpq H. unfold rstrip, lstrip in H.
  rewrite forallb_rev in H.
  apply (forallb_dropwhile p q _ Hpq) in H.
  rewrite forallb_rev in H.
  apply (forallb_dropwhile p q _ Hpq) in H. exact H.
Qed.

Lemma scan_digits_chars base s :
  (forall acc ad v, scan_digits base s acc ad = Some v ->
     forallb (fun b => digit_below base b || Byte.eqb b underscore) s = true)
  /\ (forall acc v, scan_after_underscore base s acc = Some v ->
        forallb (fun b => digit_below base b || Byte.eqb b underscore) s = true).
Proof.
  induction s as [|b s [IH1 IH2]]; split; cbn; auto.
  - intros acc ad v H. unfold digit_below.
    destruct (Byte.eqb b underscore) eqn:Hu.
    + rewrite orb_true_r. cbn.
      destruct ad; [|discriminate]. destruct s as [|c s]; [discriminate|].
      eapply IH2. exact H.
    + destruct (digit_value b) as [d|]; [|discriminate].
      destruct (d <? base)%Z; [|discriminate]. cbn. eapply IH1. exact H.
  - intros acc v H. unfold digit_below.
    destruct (digit_value b) as [d|]; [|discriminate].
    destruct (d <? base)%Z; [|discriminate]. cbn. eapply IH1. exact H.
Qed.

Lemma py_int_hexish s v :
  py_int c_isspace 16 s = Some v -> forallb hexish s = true.
Proof.
  unfold py_int. intros H.
  apply (forallb_strip c_isspace hexish).
  { intros b Hb. unfold hexish. rewrite Hb. reflexivity. }
  set (body := rstrip c_isspace (lstrip c_isspace s)) in *.
  assert (Hscan : forall digits,
            (match scan_digits 16 digits 0 false with
             | Some _ => true | None => false end) = true ->
            forallb hexish digits = true).
  { intros digits Hd.
    destruct (scan_digits 16 digits 0 false) as [v'|] eqn:E; [|discriminate].
    apply (proj1 (scan_digits_chars 16 digits)) in E.
    eapply forallb_impl; [|exact E].
    intros b Hb. unfold hexish. apply orb_true_iff in Hb. destruct Hb as [-> | ->];
      rewrite ?orb_true_r; reflexivity. }
  assert (Hprefix : forall unsigned,
            (match scan_digits 16
                     match unsigned with
                     | z :: x :: rest =>
                         if (16 =? 16)%Z && Byte.eqb z x30
                            && (Byte.eqb x x78 || Byte.eqb x x58)
                         then match rest with
                              | u :: rest' =>
                                  if Byte.eqb u underscore then rest' else rest
                              | [] => rest
                              end
                         else unsigned
                     | _ => unsigned
                     end 0 false with
             | Some _ => true | None => false end) = true ->
            forallb hexish unsigned = true).
  { intros unsigned Hu.
    destruct unsigned as [|z [|x rest]]; try (apply Hscan; exact Hu).
    destruct ((16 =? 16)%Z && Byte.eqb z x30 && (Byte.eqb x x78 || Byte.eqb x x58))
      eqn:Hp; [|apply Hscan; exact Hu].
    apply andb_true_iff in Hp. destruct Hp as [Hz Hx].
    apply andb_true_iff in Hz. destruct Hz as [_ Hz].
    apply Byte.byte_dec_bl in Hz. subst z.
    cbn [forallb].
    assert (Hhx : hexish x = true).
    { unfold hexish. apply orb_true_iff in Hx. destruct Hx as [-> | ->];
        rewrite ?orb_true_r; reflexivity. }
    rewrite Hhx. change (hexish "0") with true. cbn [andb].
    destruct rest as [|u rest']; [reflexivity|].
    destruct (Byte.eqb u underscore) eqn:Hu'.
    - cbn [forallb]. unfold hexish at 1. rewrite Hu'. rewrite ?orb_true_r.
      cbn [andb]. apply Hscan. exact Hu.
    - apply Hscan. exact Hu. }
  destruct body as [|b rest]; [reflexivity|].
  destruct (Byte.eqb b x2d) eqn:Hm.
  { cbn [forallb]. unfold hexish at 1. rewrite Hm, ?orb_true_r. cbn [andb].
    apply Hprefix.
    match type of H with match ?X with _ => _ end = _ => destruct X end;
      [reflexivity | discriminate]. }
  destruct (Byte.eqb b x2b) eqn:Hp.
  { cbn [forallb]. unfold hexish at 1. rewrite Hp, ?orb_true_r. cbn [andb].
    apply Hprefix.
    match type of H with match ?X with _ => _ end = _ => destruct X end;
      [reflexivity | discriminate]. }
  apply Hprefix.
  match type of H with match ?X with _ => _ end = _ => destruct X end;
    [reflexivity | discriminate].
Qed.

(** A chunk-size line with any other byte in front of its first
    semicolon is refused. *)
Lemma size_field_hexish line n :
  size_field line = Some n ->
  forallb hexish (takewhile (fun b => negb (Byte.eqb b x3b)) line) = true.
Proof. unfold size_field. apply py_int_hexish. Qed.

(** *** Responses that carry a body *)

Lemma response_expects_body m :
  well_formed_response m = true ->
  well_formed m = true /\ expects_body m = true.
Proof.
  unfold well_formed_response, expects_body. intros H.
  apply andb_true_iff in H. destruct H as [Hwf Hb]. split; [exact Hwf|].
  destruct (body m); [exact Hb|].
  unfold bodiless in Hb. apply negb_true_iff in Hb. apply negb_true_iff.
  apply Z.eqb_neq. intros E. rewrite E in Hb. discriminate.
Qed.

(** *** A faulty body behind a well-formed head *)

Lemma fault_behind_head m rest e t h l ad c :
  well_formed_head m = true ->
  head_within_limits m = true ->
  digits_value 10 (code m) <> 100%Z ->
  body_fault
    (mkResponse (digits_value 10 (code m)) (says_chunked (fields m))
       (head_length m)) e rest ->
  framing_error
    (fst (read_http_res
            (mkFlush (mkSock (render_head m ++ rest) e false t h l) ad c))).
Proof.
  intros Hwf Hlim Hcode Hfault.
  pose proof (begin_wf e t h l [] m rest (wf_head_intro m Hwf Hlim) Hcode) as Hb.
  eapply read_http_res_fault.
  - cbn [_obj]. exact Hb.
  - cbn [fp at_eof pending]. exact Hfault.
Qed.

End HttpFacts.

(** ** [ProcessProxy] *)

Module ProcFacts.
Import MonadFacts Proc.

(** *** A closed wrapper *)

Lemma closed_read w n : _closed w = true -> read n w = (Ret (PBytes []), w).
Proof.
  intros H. unfold read, bind, gets. rewrite H, orb_true_r. reflexivity.
Qed.

Lemma closed_readline w n :
  _closed w = true -> readline n w = (Ret (PBytes []), w).
Proof.
  intros H. unfold readline, bind, gets. rewrite H, orb_true_r. reflexivity.
Qed.

Lemma closed_write w data : _closed w = true -> write data w = (Ret 0%Z, w).
Proof.
  intros H. unfold write, bind, gets. rewrite H, orb_true_r. reflexivity.
Qed.

Lemma closed_drain w : _closed w = true -> drain w = (Ret tt, w).
Proof. intros H. unfold drain, bind, gets. rewrite H. reflexivity. Qed.

Lemma closed_print w script : _closed w = true -> print script w = (Ret tt, w).
Proof. intros H. unfold print, bind, gets. rewrite H. reflexivity. Qed.

Lemma closed_close w : _closed w = true -> close w = (Ret tt, w).
Proof. intros H. unfold close, bind, gets. rewrite H. reflexivity. Qed.

Lemma close_sets_flag w w' : close w = (Ret tt, w') -> _closed w' = true.
Proof.
  unfold close. intros H.
  apply bind_Ret_inv in H. destruct H as (c & w1 & Hc & H).
  inversion Hc; subst. clear Hc.
  destruct (_closed w1) eqn:Hcl.
  - inversion H; subst. assumption.
  - repeat (apply bind_Ret_inv in H; destruct H as (? & ? & _ & H)).
    inversion H. reflexivity.
Qed.

(** *** The drain loop *)

Lemma lor_nonblocking fl f :
  nonblocking (with_flags (Z.lor fl O_NONBLOCK) f) = true.
Proof.
  unfold nonblocking. cbn [flags with_flags].
  apply negb_true_iff. apply Z.eqb_neq. intros H.
  assert (Hbit : Z.testbit (Z.land (Z.lor fl O_NONBLOCK) O_NONBLOCK) 11 = true).
  { rewrite Z.land_spec, Z.lor_spec. unfold O_NONBLOCK. cbn.
    rewrite orb_true_r. reflexivity. }
  rewrite H in Hbit. rewrite Z.bits_0 in Hbit. discriminate.
Qed.

Lemma read_until_falsy_spec fl l : forall a turns,
  negb (Z.land fl O_NONBLOCK =? 0)%Z = true ->
  (length a < turns)%nat ->
  read_until_falsy turns (mkFileIO false true fl a l)
  = (drain_end a, mkFileIO false true fl (after_drain a) l).
Proof.
  induction a as [|x a IH]; intros turns Hnb Hturns;
    (destruct turns as [|turns]; [simpl in Hturns; lia|]).
  - cbn [read_until_falsy]. unfold bind, fileio_read, nonblocking.
    cbn [closed fd_valid feed flags negb]. rewrite Hnb. reflexivity.
  - cbn [read_until_falsy]. unfold bind at 1. unfold fileio_read.
    cbn [closed fd_valid feed negb].
    destruct x as [[|b bs]|e]; cbn [truthy drain_end after_drain with_feed
      closed fd_valid flags feed log]; try reflexivity.
    apply IH; [assumption | simpl in Hturns; lia].
Qed.

Lemma set_get_stream fd w f :
  get_stream fd w = Some f -> set_stream fd (Some f) w = w.
Proof. destruct w, fd; cbn; intros ->; reflexivity. Qed.

Lemma get_set_stream fd s w : get_stream fd (set_stream fd s w) = s.
Proof. destruct fd; reflexivity. Qed.

Lemma set_set_stream fd s1 s2 w :
  set_stream fd s2 (set_stream fd s1 w) = set_stream fd s2 w.
Proof. destruct fd; reflexivity. Qed.

Lemma drain_end_no_hang a : drain_end a <> Hang /\ drain_end a <> Fuel.
Proof.
  induction a as [|[[|b bs]|e] a IH]; cbn; auto; split; discriminate.
Qed.

Lemma drain_stream_spec fd w :
  _drain_stream fd w
  = (match get_stream fd w with
     | Some f => if usable f then absorb (drain_end (feed f)) else Ret tt
     | None => Ret tt
     end,
     set_stream fd (drained_stream (get_stream fd w)) w).
Proof.
  unfold _drain_stream. unfold bind at 1. unfold gets.
  destruct (get_stream fd w) as [f|] eqn:Hf; cbn [is_some negb drained_stream].
  2:{ unfold ret. f_equal. destruct w, fd; cbn in *; subst; reflexivity. }
  unfold usable.
  destruct f as [c v fl a l]. cbn [closed fd_valid feed].
  unfold try_except at 1. unfold bind at 1. unfold on at 1. rewrite Hf.
  unfold fileno. cbn [closed].
  destruct c; cbn [negb andb].
  { cbn. rewrite (set_get_stream fd w _ Hf). reflexivity. }
  rewrite (set_get_stream fd w _ Hf).
  unfold bind at 1. unfold on at 1. rewrite Hf. unfold fcntl_getfl.
  cbn [fd_valid flags].
  destruct v.
  2:{ cbn. rewrite (set_get_stream fd w _ Hf). reflexivity. }
  rewrite (set_get_stream fd w _ Hf).
  unfold bind at 1. unfold on at 1. rewrite Hf. unfold fcntl_setfl.
  cbn [fd_valid with_flags closed flags feed log].
  unfold try_finally, try_except. unfold on at 1. rewrite get_set_stream.
  unfold drain_reads. cbn [feed].
  unfold with_flags at 1 2. cbn [closed fd_valid flags feed log].
  rewrite read_until_falsy_spec; [|apply (lor_nonblocking fl (mkFileIO false true fl a l)) | lia].
  rewrite set_set_stream.
  pose proof (drain_end_no_hang a) as [Hh Hf'].
  destruct (drain_end a) as [[]|e| |] eqn:Hend; try congruence.
  - unfold bind, on. rewrite get_set_stream. cbn. rewrite set_set_stream.
    reflexivity.
  - unfold absorb. destruct (IOError_or_ValueError e) eqn:He.
    + unfold ret, bind, on. rewrite get_set_stream. cbn. rewrite set_set_stream.
      reflexivity.
    + unfold bind, on. rewrite get_set_stream. cbn. rewrite set_set_stream.
      rewrite He. reflexivity.
Qed.

Lemma absorbed_end cls a :
  (forall e, cls e = true -> IOError_or_ValueError e = true) ->
  forallb (fun x => match x with Fails e => cls e | Gives _ => true end) a = true ->
  absorb (drain_end a) = Ret tt.
Proof.
  intros Hcls. induction a as [|[[|b bs]|e] a IH]; cbn; intros H; auto.
  apply andb_true_iff in H. destruct H as [He _].
  rewrite (Hcls e He). reflexivity.
Qed.

Lemma drain_spec w :
  read_errors_within IOError_or_ValueError (_stdout w) = true ->
  read_errors_within IOError_or_ValueError (stderr w) = true ->
  drain w = (Ret tt, drained w).
Proof.
  intros Hout Herr. unfold drain, drained. unfold bind at 1. unfold gets.
  destruct (_closed w); [reflexivity|].
  unfold bind. rewrite drain_stream_spec.
  assert (Ho : match get_stream Stdout w with
               | Some f => if usable f then absorb (drain_end (feed f)) else Ret tt
               | None => Ret tt
               end = Ret tt).
  { cbn [get_stream]. destruct (_stdout w) as [f|]; [|reflexivity].
    cbn [read_errors_within] in Hout.
    destruct (usable f); [|reflexivity].
    apply (absorbed_end IOError_or_ValueError); auto. }
  rewrite Ho. rewrite drain_stream_spec.
  assert (He : match get_stream Stderr (set_stream Stdout (drained_stream (get_stream Stdout w)) w) with
               | Some f => if usable f then absorb (drain_end (feed f)) else Ret tt
               | None => Ret tt
               end = Ret tt).
  { cbn [get_stream set_stream stderr]. destruct (stderr w) as [f|]; [|reflexivity].
    cbn [read_errors_within] in Herr.
    destruct (usable f); [|reflexivity].
    apply (absorbed_end IOError_or_ValueError); auto. }
  rewrite He. reflexivity.
Qed.

(** *** The multiplexer and the descriptor flags *)

Lemma same_flags_refl w : same_flags w w.
Proof. intros fd. reflexivity. Qed.

Lemma same_flags_trans w1 w2 w3 :
  same_flags w1 w2 -> same_flags w2 w3 -> same_flags w1 w3.
Proof. intros H1 H2 fd. rewrite H2, H1. reflexivity. Qed.

Lemma on_same_flags {A} fd (m : M fileio A) :
  (forall f, flags (snd (m f)) = flags f) -> keeps same_flags (on fd m).
Proof.
  intros Hm w fd'. unfold on, flags_of.
  destruct (get_stream fd w) as [f|] eqn:Hf; [|reflexivity].
  specialize (Hm f). destruct (m f) as [o f']. cbn [snd] in *.
  destruct fd, fd'; cbn in *; try reflexivity; rewrite Hf; cbn; congruence.
Qed.

Lemma fileio_read_flags n f : flags (snd (fileio_read n f)) = flags f.
Proof.
  unfold fileio_read. destruct (closed f), (fd_valid f); cbn; try reflexivity.
  destruct (feed f) as [|[b|e] a]; cbn; try reflexivity.
  destruct (nonblocking f); reflexivity.
Qed.

Lemma fileno_flags f : flags (snd (fileno f)) = flags f.
Proof. unfold fileno. destruct (closed f); reflexivity. Qed.

Lemma sink_write_same_flags fd b : keeps same_flags (sink_write fd b).
Proof. intros w fd'. destruct fd, fd'; reflexivity. Qed.

Lemma sink_flush_same_flags fd : keeps same_flags (sink_flush fd).
Proof. intros w fd'. destruct fd, fd'; reflexivity. Qed.

Lemma same_flags_preorder : preorder same_flags.
Proof. split; [apply same_flags_refl | apply same_flags_trans]. Qed.

Ltac keeps_with pre leaf :=
  repeat first
    [ apply keeps_ret; exact pre
    | apply keeps_raise; exact pre
    | apply keeps_gets; exact pre
    | solve [leaf]
    | apply keeps_try_except; [exact pre | |]
    | apply keeps_try_finally; [exact pre | |]
    | apply keeps_bind; [exact pre | | intros ?]
    | match goal with
      | |- keeps _ (match ?x with _ => _ end) => destruct x
      end ].

Create HintDb kflags.

#[local] Hint Resolve sink_write_same_flags sink_flush_same_flags : kflags.

Ltac flags_leaf :=
  first
    [ solve [auto with kflags]
    | apply on_same_flags; first [apply fileio_read_flags | apply fileno_flags] ].

Ltac keeps_flags := keeps_with same_flags_preorder flags_leaf.

Lemma handle_event_same_flags fd sel act :
  keeps same_flags (handle_event fd sel act).
Proof. unfold handle_event. keeps_flags. Qed.

#[local] Hint Resolve handle_event_same_flags : kflags.

Lemma for_events_same_flags evs : forall sel act,
  keeps same_flags (for_events evs sel act).
Proof.
  induction evs as [|fd evs IH]; intros sel act; cbn [for_events]; keeps_flags.
Qed.

#[local] Hint Resolve for_events_same_flags : kflags.

Lemma print_loop_same_flags script : forall sel act,
  keeps same_flags (print_loop script sel act).
Proof.
  induction script as [|ready later IH]; intros sel act.
  - destruct act; cbn [print_loop]; keeps_flags.
  - destruct act as [|x act]; cbn [print_loop]; [keeps_flags|].
    destruct (select sel ready) as [|ev evs]; [keeps_flags|].
    unfold poll. keeps_flags.
Qed.

Lemma stdout_flags_preorder : preorder stdout_flags_kept.
Proof.
  split; [reflexivity|]. unfold stdout_flags_kept. intros; congruence.
Qed.

Lemma on_stderr_keeps {A} (m : M fileio A) :
  keeps stdout_flags_kept (on Stderr m).
Proof.
  intros w. unfold on, stdout_flags_kept, flags_of. cbn [get_stream].
  destruct (stderr w) as [f|]; [|reflexivity].
  destruct (m f) as [o f']. reflexivity.
Qed.

Lemma register_stderr_keeps sel act :
  keeps stdout_flags_kept (register Stderr sel act).
Proof.
  unfold register, _make_nonblocking.
  keeps_with stdout_flags_preorder ltac:(apply on_stderr_keeps).
Qed.

Lemma usable_parts f : usable f = true -> closed f = false /\ fd_valid f = true.
Proof.
  unfold usable. intros H. apply andb_true_iff in H. destruct H as [Hc Hv].
  apply negb_true_iff in Hc. auto.
Qed.

Lemma on_Some {A} fd (m : M fileio A) w f :
  get_stream fd w = Some f ->
  on fd m w = (fst (m f), set_stream fd (Some (snd (m f))) w).
Proof. intros Hf. unfold on. rewrite Hf. destruct (m f). reflexivity. Qed.

Lemma make_nonblocking_usable fd w f :
  get_stream fd w = Some f ->
  usable f = true ->
  _make_nonblocking fd w
  = (Ret tt, set_stream fd (Some (with_flags (Z.lor (flags f) O_NONBLOCK) f)) w).
Proof.
  intros Hf Hu. destruct (usable_parts f Hu) as [Hc Hv].
  unfold _make_nonblocking. unfold bind at 1. unfold gets. rewrite Hf.
  cbn [is_some negb].
  assert (H1 : on fd fileno w = (Ret tt, w)).
  { rewrite (on_Some fd _ w f Hf). unfold fileno. rewrite Hc. cbn [fst snd].
    rewrite (set_get_stream fd w f Hf). reflexivity. }
  rewrite (bind_Ret _ _ _ _ _ H1).
  assert (H2 : on fd fcntl_getfl w = (Ret (flags f), w)).
  { rewrite (on_Some fd _ w f Hf). unfold fcntl_getfl. rewrite Hv. cbn [fst snd].
    rewrite (set_get_stream fd w f Hf). reflexivity. }
  rewrite (bind_Ret _ _ _ _ _ H2).
  rewrite (on_Some fd _ w f Hf). unfold fcntl_setfl. rewrite Hv. reflexivity.
Qed.

Lemma register_usable fd w f sel act :
  get_stream fd w = Some f ->
  usable f = true ->
  register fd sel act w
  = (Ret (sel ++ [fd], act ++ [fd]),
     set_stream fd (Some (with_flags (Z.lor (flags f) O_NONBLOCK) f)) w).
Proof.
  intros Hf Hu. destruct (usable_parts f Hu) as [Hc Hv].
  unfold register. unfold bind at 1. unfold gets. rewrite Hf. cbn [is_some].
  rewrite (bind_Ret _ _ _ _ _ (make_nonblocking_usable fd w f Hf Hu)).
  set (f' := with_flags (Z.lor (flags f) O_NONBLOCK) f).
  assert (H1 : on fd fileno (set_stream fd (Some f') w)
               = (Ret tt, set_stream fd (Some f') w)).
  { rewrite (on_Some fd _ _ f' (get_set_stream fd _ w)). unfold fileno.
    cbn [closed f' with_flags]. rewrite Hc. cbn [fst snd].
    rewrite set_set_stream. reflexivity. }
  rewrite (bind_Ret _ _ _ _ _ H1). reflexivity.
Qed.

Lemma register_missing fd w sel act :
  get_stream fd w = None -> register fd sel act w = (Ret (sel, act), w).
Proof.
  intros Hf. unfold register. unfold bind, gets. rewrite Hf. reflexivity.
Qed.

(** [print] never undoes [_make_nonblocking]: however it ends, the
    descriptor of stdout keeps the flag that [print] has set. *)
Theorem print_leaves_nonblocking script w f o w' :
  _closed w = false ->
  _stdout w = Some f ->
  usable f = true ->
  print script w = (o, w') ->
  flags_of Stdout w' = Some (Z.lor (flags f) O_NONBLOCK)
  /\ (exists f', _stdout w' = Some f' /\ nonblocking f' = true).
Proof.
  intros Hcl Hout Hu Hprint.
  assert (Hflags : flags_of Stdout w' = Some (Z.lor (flags f) O_NONBLOCK)).
  { unfold print in Hprint. unfold bind at 1 in Hprint. unfold gets in Hprint.
    rewrite Hcl in Hprint. unfold bind at 1 in Hprint.
    rewrite (register_usable Stdout w f [] [] Hout Hu) in Hprint.
    cbn [fst snd app] in Hprint.
    assert (Hk : keeps stdout_flags_kept
                   (st2 <- register Stderr [Stdout] [Stdout] ;;
                    try_finally (print_loop script (fst st2) (snd st2)) (ret tt))).
    { apply keeps_bind;
        [exact stdout_flags_preorder | apply register_stderr_keeps | intros st2].
      apply keeps_try_finally;
        [exact stdout_flags_preorder | | apply keeps_ret; exact stdout_flags_preorder].
      apply (keeps_weaken same_flags); [|apply print_loop_same_flags].
      intros s s' H. apply H. }
    specialize (Hk (set_stream Stdout
                      (Some (with_flags (Z.lor (flags f) O_NONBLOCK) f)) w)).
    rewrite Hprint in Hk. cbn [snd] in Hk. unfold stdout_flags_kept in Hk.
    rewrite Hk. reflexivity. }
  split; [exact Hflags|].
  unfold flags_of in Hflags. cbn [get_stream] in Hflags.
  destruct (_stdout w') as [f'|]; [|discriminate].
  exists f'. split; [reflexivity|].
  cbn in Hflags. inversion Hflags as [Hfl].
  unfold nonblocking. rewrite Hfl.
  apply (lor_nonblocking (flags f) f).
Qed.

(** [drain] does undo it: on every way out, the flags of every stream are
    what they were. *)
Lemma drain_restores_flags w : same_flags w (snd (drain w)).
Proof.
  assert (Hd : forall fd, keeps same_flags (_drain_stream fd)).
  { intros fd w0 fd'. rewrite drain_stream_spec. cbn [snd].
    unfold flags_of, drained_stream.
    destruct (get_stream fd w0) as [f|] eqn:Hf.
    - destruct (usable f);
        destruct fd, fd'; cbn in *; try rewrite Hf; reflexivity.
    - destruct fd, fd'; cbn in *; try rewrite Hf; reflexivity. }
  revert w. change (keeps same_flags drain). unfold drain.
  keeps_with same_flags_preorder ltac:(apply Hd).
Qed.

(** *** An idle wait ends the multiplexer *)

Lemma print_loop_idle post : forall pre sel act w,
  print_loop (pre ++ [] :: post) sel act w = print_loop pre sel act w.
Proof.
  induction pre as [|ready pre IH]; intros sel act w.
  - destruct act; reflexivity.
  - destruct act as [|x act]; [reflexivity|].
    cbn [app print_loop].
    destruct (select sel ready) as [|ev evs]; [reflexivity|].
    apply bind_ext. intros st w1. apply bind_ext. intros rc w2.
    destruct rc; destruct (snd st); try reflexivity; apply IH.
Qed.

Lemma print_idle pre post w :
  print (pre ++ [] :: post) w = print pre w.
Proof.
  unfold print. apply bind_ext. intros c w1.
  destruct c; [reflexivity|].
  apply bind_ext. intros st1 w2. apply bind_ext. intros st2 w3.
  unfold try_finally. rewrite print_loop_idle. reflexivity.
Qed.

Lemma same_traffic_preorder : preorder same_traffic.
Proof. split; [reflexivity|]. unfold same_traffic. intros; congruence. Qed.

Lemma on_same_traffic {A} fd (m : M fileio A) :
  (forall f, feed (snd (m f)) = feed f) -> keeps same_traffic (on fd m).
Proof.
  intros Hm w. unfold on, same_traffic, traffic.
  destruct (get_stream fd w) as [f|] eqn:Hf; [|reflexivity].
  specialize (Hm f). destruct (m f) as [o f']. cbn [snd] in *.
  destruct fd; cbn in *; rewrite ?Hf; cbn; congruence.
Qed.

Lemma fileno_feed f : feed (snd (fileno f)) = feed f.
Proof. unfold fileno. destruct (closed f); reflexivity. Qed.

Lemma getfl_feed f : feed (snd (fcntl_getfl f)) = feed f.
Proof. unfold fcntl_getfl. destruct (fd_valid f); reflexivity. Qed.

Lemma setfl_feed fl f : feed (snd (fcntl_setfl fl f)) = feed f.
Proof. unfold fcntl_setfl. destruct (fd_valid f); reflexivity. Qed.

Lemma register_same_traffic fd sel act :
  keeps same_traffic (register fd sel act).
Proof.
  unfold register, _make_nonblocking.
  keeps_with same_traffic_preorder
    ltac:(apply on_same_traffic;
          first [apply fileno_feed | apply getfl_feed | apply setfl_feed]).
Qed.

Lemma print_first_idle post w :
  traffic (snd (print ([] :: post) w)) = traffic w.
Proof.
  change ([] :: post) with ([] ++ [] :: post).
  rewrite (print_idle [] post w).
  revert w. change (keeps same_traffic (print [])). unfold print.
  keeps_with same_traffic_preorder
    ltac:(first [apply register_same_traffic
                | match goal with
                  | |- keeps _ (print_loop [] _ ?act) =>
                      destruct act; cbn [print_loop];
                      apply keeps_ret; exact same_traffic_preorder
                  end]).
Qed.

(** *** Reads that give nothing *)

Lemma stream_eqb_eq a b : stream_eqb a b = true <-> a = b.
Proof. destruct a, b; cbn; split; congruence. Qed.

Lemma mem_unregister_same fd sel : mem fd (unregister fd sel) = false.
Proof.
  unfold mem, unregister. induction sel as [|x sel IH]; cbn; [reflexivity|].
  destruct (stream_eqb fd x) eqn:E; cbn; [exact IH|].
  rewrite E. exact IH.
Qed.

Lemma mem_unregister_other fd fd' sel :
  fd' <> fd -> mem fd' (unregister fd sel) = mem fd' sel.
Proof.
  intros Hne. unfold mem, unregister.
  induction sel as [|x sel IH]; cbn; [reflexivity|].
  destruct (stream_eqb fd x) eqn:E; cbn.
  - apply stream_eqb_eq in E. subst x.
    destruct (stream_eqb fd' fd) eqn:E'; [apply stream_eqb_eq in E'; congruence|].
    exact IH.
  - rewrite IH. reflexivity.
Qed.

Lemma mem_unregister_sub fd x sel :
  mem x (unregister fd sel) = true -> mem x sel = true.
Proof.
  unfold mem, unregister. induction sel as [|y sel IH]; cbn; [auto|].
  destruct (stream_eqb fd y); cbn.
  - intros H. rewrite (IH H). apply orb_true_r.
  - destruct (stream_eqb x y); cbn; auto.
Qed.

Lemma guarded_read_falsy fd w :
  next_read_falsy (get_stream fd w) = true ->
  exists v w',
    guarded_read fd w = (Ret v, w') /\ truthy v = false
    /\ sys_stdout w' = sys_stdout w /\ sys_stderr w' = sys_stderr w
    /\ (forall fd', fd' <> fd -> get_stream fd' w' = get_stream fd' w).
Proof.
  unfold guarded_read, try_except, on, next_read_falsy.
  destruct (get_stream fd w) as [f|] eqn:Hf.
  2:{ intros _. exists PNone, w. cbn. repeat split; auto. }
  intros H. unfold fileio_read.
  assert (Hset : forall f', sys_stdout (set_stream fd (Some f') w) = sys_stdout w
                 /\ sys_stderr (set_stream fd (Some f') w) = sys_stderr w
                 /\ (forall fd', fd' <> fd ->
                       get_stream fd' (set_stream fd (Some f') w) = get_stream fd' w)).
  { intros f'. repeat split; try (destruct fd; reflexivity).
    intros fd' Hne. destruct fd, fd'; cbn; congruence. }
  destruct (closed f); cbn [orb negb] in *.
  { exists PNone. eexists. cbn. split; [reflexivity|]. split; [reflexivity|]. apply Hset. }
  destruct (fd_valid f); cbn [orb negb] in *.
  2:{ exists PNone. eexists. cbn. split; [reflexivity|]. split; [reflexivity|]. apply Hset. }
  destruct (feed f) as [|[[|b bs]|e] a]; try discriminate.
  - rewrite H. exists PNone. eexists. split; [reflexivity|]. split; [reflexivity|]. apply Hset.
  - exists (PBytes []). eexists. split; [reflexivity|]. split; [reflexivity|]. apply Hset.
  - rewrite H. exists PNone. eexists. cbn. split; [reflexivity|]. split; [reflexivity|]. apply Hset.
Qed.

Lemma handle_event_falsy fd sel act w :
  next_read_falsy (get_stream fd w) = true ->
  exists w',
    handle_event fd sel act w
    = (Ret (unregister fd sel, if mem fd act then list_remove fd act else act), w')
    /\ sys_stdout w' = sys_stdout w /\ sys_stderr w' = sys_stderr w
    /\ (forall fd', fd' <> fd -> get_stream fd' w' = get_stream fd' w).
Proof.
  intros H. destruct (guarded_read_falsy fd w H) as (v & w' & Hr & Hv & Hrest).
  exists w'. split; [|exact Hrest].
  unfold handle_event. fold (guarded_read fd).
  rewrite (bind_Ret _ _ _ _ _ Hr).
  destruct v as [[|b bs]|]; try discriminate; reflexivity.
Qed.

Lemma print_loop_empty script sel w :
  print_loop script sel [] w = (Ret tt, w).
Proof. destruct script; reflexivity. Qed.

(** *** Read errors stay inside the multiplexer *)

Lemma guarded_read_calm fd w :
  calm (get_stream fd w) ->
  exists v w',
    guarded_read fd w = (Ret v, w')
    /\ (forall fd', calm (get_stream fd' w) -> calm (get_stream fd' w')).
Proof.
  unfold guarded_read, try_except, on, calm.
  destruct (get_stream fd w) as [f|] eqn:Hf.
  2:{ intros _. exists PNone, w. cbn. auto. }
  intros [Hnb Hfw]. unfold fileio_read.
  assert (Hset : forall f',
            (nonblocking f' = true /\ fails_within is_Exception (Some f') = true) ->
            forall fd',
              match get_stream fd' w with
              | Some f0 => nonblocking f0 = true
                           /\ fails_within is_Exception (Some f0) = true
              | None => True
              end ->
              match get_stream fd' (set_stream fd (Some f') w) with
              | Some f0 => nonblocking f0 = true
                           /\ fails_within is_Exception (Some f0) = true
              | None => True
              end).
  { intros f' Hf' fd'. destruct fd, fd'; cbn; auto. }
  destruct (closed f).
  { exists PNone. eexists. cbn. split; [reflexivity|]. apply Hset; auto. }
  destruct (fd_valid f); cbn [negb].
  2:{ exists PNone. eexists. cbn. split; [reflexivity|]. apply Hset; auto. }
  destruct f as [c v fl a l]. cbn [feed fails_within] in *.
  destruct a as [|[b|e] a].
  - rewrite Hnb. exists PNone. eexists. split; [reflexivity|]. apply Hset; auto.
  - exists (PBytes b). eexists. split; [reflexivity|]. apply Hset.
    cbn in Hfw |- *. auto.
  - cbn in Hfw. apply andb_true_iff in Hfw. destruct Hfw as [He Ha].
    rewrite He. exists PNone. eexists. cbn. split; [reflexivity|]. apply Hset.
    cbn. auto.
Qed.

Lemma sink_calm fd b w fd' :
  calm (get_stream fd' w) ->
  calm (get_stream fd' (snd (sink_write fd b w)))
  /\ calm (get_stream fd' (snd (sink_flush fd w))).
Proof. destruct fd, fd'; cbn; auto. Qed.

Lemma handle_event_calm fd sel act w :
  calm (get_stream fd w) ->
  exists st w',
    handle_event fd sel act w = (Ret st, w')
    /\ (forall x, mem x (fst st) = true -> mem x sel = true)
    /\ (forall fd', calm (get_stream fd' w) -> calm (get_stream fd' w')).
Proof.
  intros Hc. destruct (guarded_read_calm fd w Hc) as (v & w1 & Hr & Hk).
  unfold handle_event. fold (guarded_read fd).
  rewrite (bind_Ret _ _ _ _ _ Hr).
  destruct v as [[|b bs]|].
  - eexists. exists w1. split; [reflexivity|]. split; [|exact Hk].
    intros x. apply mem_unregister_sub.
  - destruct fd;
      (eexists; eexists; split; [reflexivity|]; split; [auto|];
       intros fd' Hfd'; specialize (Hk fd' Hfd');
       destruct fd'; cbn in *; auto).
  - eexists. exists w1. split; [reflexivity|]. split; [|exact Hk].
    intros x. apply mem_unregister_sub.
Qed.

Lemma for_events_calm evs : forall sel act w,
  (forall fd, In fd evs -> mem fd sel = true \/ True) ->
  (forall fd, In fd evs -> calm (get_stream fd w)) ->
  forall keep,
  all_calm keep w ->
  exists st w',
    for_events evs sel act w = (Ret st, w')
    /\ (forall x, mem x (fst st) = true -> mem x sel = true)
    /\ all_calm keep w'.
Proof.
  induction evs as [|fd evs IH]; intros sel act w _ Hev keep Hkeep.
  - exists (sel, act), w. cbn. auto.
  - destruct (handle_event_calm fd sel act w (Hev fd (or_introl eq_refl)))
      as (st & w1 & Hh & Hsub & Hk).
    cbn [for_events]. rewrite (bind_Ret _ _ _ _ _ Hh).
    destruct (IH (fst st) (snd st) w1 (fun _ _ => or_intror I)
                (fun x Hx => Hk x (Hev x (or_intror Hx))) keep
                (fun x Hx => Hk x (Hkeep x Hx)))
      as (st' & w' & Hf & Hsub' & Hk').
    exists st', w'. split; [exact Hf|]. split; [|exact Hk'].
    intros x Hx. apply Hsub, Hsub', Hx.
Qed.

Lemma select_sub sel ready fd :
  In fd (select sel ready) -> mem fd sel = true.
Proof. unfold select. intros H. apply filter_In in H. tauto. Qed.

Lemma print_loop_calm script : forall sel act w,
  all_calm sel w -> fst (print_loop script sel act w) = Ret tt.
Proof.
  induction script as [|ready later IH]; intros sel act w Hcalm.
  - destruct act; reflexivity.
  - destruct act as [|x act]; [reflexivity|]. cbn [print_loop].
    destruct (select sel ready) as [|ev evs] eqn:Hsel; [reflexivity|].
    destruct (for_events_calm (ev :: evs) sel (x :: act) w
                (fun _ _ => or_intror I)
                (fun fd Hfd => Hcalm fd (select_sub sel ready fd
                                           ltac:(rewrite Hsel; exact Hfd)))
                sel Hcalm)
      as (st & w' & Hf & Hsub & Hk).
    rewrite (bind_Ret _ _ _ _ _ Hf). unfold poll. unfold bind at 1. unfold gets.
    destruct (returncode (_proc w')); destruct (snd st); try reflexivity;
      apply IH; intros fd Hfd; apply Hk, Hsub, Hfd.
Qed.

Lemma calm_after_register f :
  fails_within is_Exception (Some f) = true ->
  calm (Some (with_flags (Z.lor (flags f) O_NONBLOCK) f)).
Proof.
  intros H. split; [apply lor_nonblocking|]. exact H.
Qed.

Theorem print_never_escalates script w :
  registrable w = true ->
  fails_within is_Exception (_stdout w) = true ->
  fails_within is_Exception (stderr w) = true ->
  fst (print script w) = Ret tt.
Proof.
  intros Hreg Hout Herr.
  unfold print. unfold bind at 1. unfold gets.
  destruct (_closed w); [reflexivity|].
  unfold registrable in Hreg. apply andb_true_iff in Hreg.
  destruct Hreg as [Huo Hue].
  destruct (_stdout w) as [fo|] eqn:Eo; destruct (stderr w) as [fe|] eqn:Ee.
  - rewrite (bind_Ret _ _ _ _ _ (register_usable Stdout w fo [] [] Eo Huo)).
    cbn [fst snd app].
    erewrite bind_Ret.
    2:{ apply (register_usable Stderr _ fe); [cbn; exact Ee | exact Hue]. }
    cbn [fst snd app]. apply try_finally_Ret. apply print_loop_calm.
    intros fd Hfd. destruct fd; cbn in Hfd |- *; try discriminate;
      apply calm_after_register; assumption.
  - rewrite (bind_Ret _ _ _ _ _ (register_usable Stdout w fo [] [] Eo Huo)).
    cbn [fst snd app].
    erewrite bind_Ret.
    2:{ apply register_missing. cbn. exact Ee. }
    cbn [fst snd]. apply try_finally_Ret. apply print_loop_calm.
    intros fd Hfd. destruct fd; cbn in Hfd |- *; try discriminate.
    apply calm_after_register; assumption.
  - rewrite (bind_Ret _ _ _ _ _ (register_missing Stdout w [] [] Eo)).
    cbn [fst snd].
    rewrite (bind_Ret _ _ _ _ _ (register_usable Stderr w fe [] [] Ee Hue)).
    cbn [fst snd app]. apply try_finally_Ret. apply print_loop_calm.
    intros fd Hfd. destruct fd; cbn in Hfd |- *; try discriminate.
    apply calm_after_register; assumption.
  - rewrite (bind_Ret _ _ _ _ _ (register_missing Stdout w [] [] Eo)).
    cbn [fst snd].
    rewrite (bind_Ret _ _ _ _ _ (register_missing Stderr w [] [] Ee)).
    cbn [fst snd]. apply try_finally_Ret. rewrite print_loop_empty. reflexivity.
Qed.

(** *** A handle that has left the wait-set is not read again *)

Lemma untouched_preorder fd : preorder (untouched fd).
Proof. split; [reflexivity|]. unfold untouched. intros; congruence. Qed.

Lemma handle_event_untouched fd fd' sel act :
  fd' <> fd -> keeps (untouched fd) (handle_event fd' sel act).
Proof.
  intros Hne. unfold handle_event.
  assert (Hon : forall A (m : M fileio A), keeps (untouched fd) (on fd' m)).
  { intros A m w. unfold on, untouched.
    destruct (get_stream fd' w) as [f|]; [|reflexivity].
    destruct (m f) as [o f']. destruct fd, fd'; cbn; congruence. }
  assert (Hsw : forall b, keeps (untouched fd) (sink_write fd' b))
    by (intros b w; destruct fd, fd'; reflexivity).
  assert (Hsf : keeps (untouched fd) (sink_flush fd'))
    by (intros w; destruct fd, fd'; reflexivity).
  keeps_with (untouched_preorder fd)
    ltac:(first [apply Hon | apply Hsw | apply Hsf]).
Qed.

Lemma for_events_untouched fd evs : forall sel act w,
  ~ In fd evs ->
  untouched fd w (snd (for_events evs sel act w))
  /\ (forall st, fst (for_events evs sel act w) = Ret st ->
        forall x, mem x (fst st) = true -> mem x sel = true).
Proof.
  induction evs as [|fd' evs IH]; intros sel act w Hnot.
  - cbn. split; [reflexivity|]. intros st H. inversion H. auto.
  - assert (Hne : fd' <> fd) by (intros ->; apply Hnot; left; reflexivity).
    assert (Hnot' : ~ In fd evs) by (intros H; apply Hnot; right; exact H).
    pose proof (handle_event_untouched fd fd' sel act Hne w) as Hh.
    cbn [for_events]. unfold bind.
    destruct (handle_event fd' sel act w) as [[st1|e| |] w1] eqn:E;
      cbn [snd fst] in *; try (split; [exact Hh | intros ? H; discriminate]).
    destruct (IH (fst st1) (snd st1) w1 Hnot') as [Hu Hsub].
    split.
    + unfold untouched in *. congruence.
    + intros st Hst x Hx. specialize (Hsub st Hst x Hx).
      unfold handle_event in E.
      destruct (try_except (on fd' (fileio_read 4096)) is_Exception (ret PNone) w)
        as [[v|e| |] w2] eqn:Er; unfold bind in E; rewrite Er in E;
        try discriminate.
      destruct v as [[|b bs]|].
      * inversion E; subst. apply (mem_unregister_sub fd'). exact Hsub.
      * destruct (sink_write fd' (b :: bs) w2) as [[[]|? | |] w3]; try discriminate.
        destruct (sink_flush fd' w3) as [[[]|? | |] w4]; try discriminate.
        inversion E; subst. exact Hsub.
      * inversion E; subst. apply (mem_unregister_sub fd'). exact Hsub.
Qed.

Theorem print_loop_untouched fd script : forall sel act w,
  mem fd sel = false ->
  get_stream fd (snd (print_loop script sel act w)) = get_stream fd w.
Proof.
  induction script as [|ready later IH]; intros sel act w Hfd.
  - destruct act; reflexivity.
  - destruct act as [|x act]; [reflexivity|]. cbn [print_loop].
    destruct (select sel ready) as [|ev evs] eqn:Hsel; [reflexivity|].
    assert (Hnot : ~ In fd (ev :: evs)).
    { rewrite <- Hsel. intros H. apply select_sub in H. congruence. }
    destruct (for_events_untouched fd (ev :: evs) sel (x :: act) w Hnot)
      as [Hu Hsub].
    unfold bind at 1.
    destruct (for_events (ev :: evs) sel (x :: act) w) as [[st|e| |] w1] eqn:E;
      cbn [snd fst] in *; try exact Hu.
    unfold poll, bind, gets.
    assert (Hfd' : mem fd (fst st) = false).
    { destruct (mem fd (fst st)) eqn:Em; [|reflexivity].
      rewrite (Hsub st eq_refl fd Em) in Hfd. discriminate. }
    destruct (returncode (_proc w1)); destruct (snd st); cbn [snd];
      try exact Hu; rewrite (IH _ _ _ Hfd'); exact Hu.
Qed.

(** *** [write] *)

Lemma encode_latin1_values cps : forall d,
  encode_latin1 cps = Some d -> map Byte.to_N d = cps.
Proof.
  induction cps as [|c cps IH]; intros d H; cbn in H.
  - inversion H. reflexivity.
  - destruct (Byte.of_N c) as [b|] eqn:Eb; [|discriminate].
    destruct (encode_latin1 cps) as [bs|]; [|discriminate].
    inversion H; subst. cbn. rewrite (IH bs eq_refl).
    rewrite (Byte.to_of_N c Eb). reflexivity.
Qed.

Lemma to_bytes_as_bytes {S} data d (s : S) :
  as_bytes data = Some d -> to_bytes data s = (Ret d, s).
Proof.
  destruct data as [cps|b|b]; cbn; intros H.
  - rewrite H. reflexivity.
  - inversion H. reflexivity.
  - inversion H. reflexivity.
Qed.

Lemma write_open w data d f :
  _closed w = false ->
  _stdin w = Some f ->
  usable f = true ->
  as_bytes data = Some d ->
  write data w
  = (Ret (len d),
     set_stream Stdin (Some (with_log (log f ++ [Wrote d; Flushed]) f)) w).
Proof.
  intros Hcl Hin Hu Hd. destruct (usable_parts f Hu) as [Hc Hv].
  unfold write. unfold bind at 1. unfold gets. rewrite Hin.
  unfold bind at 1. rewrite Hcl. cbn [is_some negb orb].
  rewrite (bind_Ret _ _ _ _ _ (to_bytes_as_bytes data d w Hd)).
  assert (Hf : get_stream Stdin w = Some f) by exact Hin.
  assert (H1 : on Stdin (fileio_write d) w
               = (Ret (len d),
                  set_stream Stdin (Some (with_log (log f ++ [Wrote d]) f)) w)).
  { rewrite (on_Some Stdin _ w f Hf). unfold fileio_write. rewrite Hc, Hv.
    reflexivity. }
  rewrite (bind_Ret _ _ _ _ _ H1).
  assert (H2 : on Stdin fileio_flush
                 (set_stream Stdin (Some (with_log (log f ++ [Wrote d]) f)) w)
               = (Ret tt,
                  set_stream Stdin
                    (Some (with_log (log f ++ [Wrote d; Flushed]) f)) w)).
  { rewrite (on_Some Stdin _ _ _ (get_set_stream Stdin _ w)).
    unfold fileio_flush. cbn [closed with_log]. rewrite Hc. cbn [fst snd].
    rewrite set_set_stream. cbn [log with_log closed fd_valid flags feed].
    rewrite <- app_assoc. reflexivity. }
  rewrite (bind_Ret _ _ _ _ _ H2). reflexivity.
Qed.

(** *** A handle that has data stays *)

Lemma mem_list_remove_other fd fd' act :
  fd' <> fd -> mem fd' (list_remove fd act) = mem fd' act.
Proof.
  intros Hne. unfold mem. induction act as [|x act IH]; cbn; [reflexivity|].
  destruct (stream_eqb fd x) eqn:E.
  - apply stream_eqb_eq in E. subst x.
    destruct (stream_eqb fd' fd) eqn:E'; [|reflexivity].
    apply stream_eqb_eq in E'. contradiction.
  - cbn. rewrite IH. reflexivity.
Qed.

Lemma handle_event_data fd sel act w f b bs a :
  get_stream fd w = Some f ->
  usable f = true ->
  feed f = Gives (b :: bs) :: a ->
  handle_event fd sel act w
  = (Ret (sel, act),
     snd (sink_flush fd
            (snd (sink_write fd (b :: bs)
                    (set_stream fd (Some (with_feed a f)) w))))).
Proof.
  intros Hf Hu Hfeed. destruct (usable_parts f Hu) as [Hc Hv].
  unfold handle_event.
  assert (Hread : try_except (on fd (fileio_read 4096)) is_Exception (ret PNone) w
                  = (Ret (PBytes (b :: bs)), set_stream fd (Some (with_feed a f)) w)).
  { unfold try_except. rewrite (on_Some fd _ w f Hf).
    unfold fileio_read. rewrite Hc, Hv, Hfeed. reflexivity. }
  rewrite (bind_Ret _ _ _ _ _ Hread).
  unfold bind. destruct fd; reflexivity.
Qed.

(** The line reader of a pipe comes to an end within its turns: a turn
    that goes on has taken an answer from the feed. *)
Lemma readline_loop_ends turns limit buffer f :
  (length (feed f) < turns)%nat ->
  fst (readline_loop turns limit buffer f) <> Fuel.
Proof.
  revert buffer f. induction turns as [|k IH]; intros buffer f Hlt; [lia|].
  cbn [readline_loop].
  destruct ((limit <? 0) || (len buffer <? limit))%Z; [|discriminate].
  unfold bind, fileio_read.
  destruct (closed f); [discriminate|].
  destruct (fd_valid f); cbn [negb]; [|discriminate].
  destruct (feed f) as [|[b|e] rest] eqn:Hfeed.
  - destruct (nonblocking f); discriminate.
  - destruct b as [|b bs]; [discriminate|].
    destruct (Byte.eqb _ x0a); [discriminate|].
    apply IH. cbn. cbn in Hlt. lia.
  - discriminate.
Qed.

Lemma fileio_readline_ends limit f : fst (fileio_readline limit f) <> Fuel.
Proof. unfold fileio_readline. apply readline_loop_ends. lia. Qed.

End ProcFacts.

(** ** [FlushProxy] *)

Module SockFacts.
Import MonadFacts Sock.

Lemma flush_eta w : mkFlush (_obj w) (_auto_drain w) (_closed w) = w.
Proof. destruct w; reflexivity. Qed.

Lemma closed_sock_read n w :
  closed (_obj w) = true -> read n w = (Exc ValueError, w).
Proof.
  intros H. unfold read, on_obj, sock_read. rewrite H. apply f_equal, flush_eta.
Qed.

Lemma closed_sock_readline n w :
  closed (_obj w) = true -> readline n w = (Exc ValueError, w).
Proof.
  intros H. unfold readline, on_obj, sock_readline. rewrite H.
  apply f_equal, flush_eta.
Qed.

Lemma closed_sock_write data d w :
  closed (_obj w) = true -> as_bytes data = Some d ->
  write data w = (Exc ValueError, w).
Proof.
  intros H Hd. unfold write.
  rewrite (bind_Ret _ _ _ _ _ (ProcFacts.to_bytes_as_bytes data d w Hd)).
  unfold bind, on_obj, sock_write. rewrite H. apply f_equal, flush_eta.
Qed.

Lemma sock_write_open data d w :
  closed (_obj w) = false -> as_bytes data = Some d ->
  write data w
  = (Ret (len d),
     mkFlush (with_log (log (_obj w) ++ [Wrote d; Flushed]) (_obj w))
       (_auto_drain w) (_closed w)).
Proof.
  intros H Hd. unfold write.
  rewrite (bind_Ret _ _ _ _ _ (ProcFacts.to_bytes_as_bytes data d w Hd)).
  unfold bind, on_obj, sock_write, sock_flush. rewrite H.
  cbn [_obj closed with_log log]. rewrite H. unfold ret.
  cbn [_auto_drain _closed with_log pending at_eof closed timeout has_settimeout log].
  rewrite <- app_assoc. reflexivity.
Qed.

(** *** [drain] *)

Lemma sock_read_until_falsy_spec e h l : forall turns p,
  (length p < turns)%nat ->
  read_until_falsy turns (mkSock p e false (Some 0%Z) h l)
  = (Ret tt, mkSock [] e false (Some 0%Z) h l).
Proof.
  induction turns as [|turns IH]; intros p Hp; [lia|].
  cbn [read_until_falsy]. unfold bind. unfold sock_read.
  cbn [closed pending at_eof]. cbn [Z.ltb Z.compare].
  destruct p as [|b p].
  - cbn [Z.eqb orb]. destruct e; reflexivity.
  - destruct (Z.to_nat 4096) as [|k] eqn:Ek; [lia|].
    cbn [firstn skipn truthy with_pending closed at_eof timeout has_settimeout log].
    apply IH. cbn [length] in Hp. rewrite length_skipn. lia.
Qed.

Theorem sock_drain_spec w : drain w = (Ret tt, drained w).
Proof.
  unfold drain, drained. destruct w as [[p e c t h l] ad cl].
  unfold try_except. unfold bind at 1. unfold gets. cbn [_obj has_settimeout closed].
  destruct h; cbn [andb]; [|reflexivity].
  unfold bind at 1. unfold on_obj at 1, gettimeout, gets. cbn [_obj timeout].
  unfold bind at 1. unfold on_obj at 1, settimeout. cbn [_obj closed].
  destruct c; cbn [negb]; [reflexivity|].
  cbn [with_timeout pending at_eof closed timeout has_settimeout log
       _auto_drain _closed].
  unfold try_finally, try_except.
  unfold on_obj at 1. unfold drain_reads. cbn [_obj pending].
  unfold with_timeout.
  cbn [pending at_eof closed timeout has_settimeout log _obj _auto_drain _closed].
  rewrite sock_read_until_falsy_spec by lia.
  unfold bind, on_obj, settimeout. cbn. reflexivity.
Qed.

(** *** [close] *)

Lemma sock_closed_close w : _closed w = true -> close w = (Ret tt, w).
Proof. intros H. unfold close, bind, gets. rewrite H. reflexivity. Qed.

Lemma sock_close_spec w :
  _closed w = false ->
  close w
  = (Ret tt,
     mkFlush (mkSock (pending (_obj (if _auto_drain w then drained w else w)))
                (at_eof (_obj w)) true (timeout (_obj w))
                (has_settimeout (_obj w)) (log (_obj w)))
       (_auto_drain w) true).
Proof.
  intros H. unfold close. unfold bind at 1. unfold gets. rewrite H.
  unfold bind at 1.
  destruct w as [[p e c t h l] ad cl]. cbn [_auto_drain _obj _closed] in *.
  destruct ad.
  - unfold bind at 1. rewrite sock_drain_spec. unfold drained.
    cbn [_obj has_settimeout closed].
    destruct (h && negb c); reflexivity.
  - reflexivity.
Qed.

(** *** What [drain] and [close] leave behind *)

Lemma drained_timeout w : timeout (_obj (drained w)) = timeout (_obj w).
Proof.
  unfold drained. destruct (has_settimeout (_obj w) && negb (closed (_obj w)));
    reflexivity.
Qed.

Lemma drained_closed w : closed (_obj w) = true -> drained w = w.
Proof.
  intros H. unfold drained. rewrite H, andb_false_r. reflexivity.
Qed.

End SockFacts.

(** * What the wrappers guarantee *)

(** ** Reading one HTTP response *)

(** C1, as stated, fails at a well-formed response of one hundred header
    fields followed by further bytes: [read_http_res] raises
    [HTTPException] instead of returning the message. *)
Lemma hundred_fields_refused :
  Wire.well_formed_response Sample.hundred_fields = true
  /\ fst (Sock.read_http_res
            (Sample.arrived
               (Wire.render Sample.hundred_fields ++ lit "NEXT") false))
     = Exc HTTPException.
Proof. split; vm_compute; reflexivity. Qed.

(** C1, amended.  Let the pending bytes be one well-formed HTTP/1.0 or
    HTTP/1.1 response (status line, header fields, blank line, a body
    framed by [Content-Length] or by chunks) followed by arbitrary
    further bytes.  If the message stays within the limits of
    [http.client] (no line of the head or of the chunk framing longer than
    65536 bytes, fewer than 100 header fields), then [read_http_res]
    returns exactly the bytes of the message and leaves exactly the bytes
    behind it pending.  Moreover, on every stream, whatever
    [read_http_res] returns is the very prefix it has consumed, in order
    and without loss, and nothing else of the wrapper changes. *)
Theorem read_http_res_returns_the_message :
  (forall m rest e t h l ad c,
      Wire.well_formed_response m = true ->
      Wire.within_limits m = true ->
      Sock.read_http_res
        (Sock.mkFlush (Sock.mkSock (Wire.render m ++ rest) e false t h l) ad c)
      = (Ret (Wire.render m), Sock.mkFlush (Sock.mkSock rest e false t h l) ad c))
  /\ (forall w out w',
         Sock.read_http_res w = (Ret out, w') ->
         Sock.pending (Sock._obj w) = out ++ Sock.pending (Sock._obj w')
         /\ w' = Sock.mkFlush
                   (Sock.with_pending (Sock.pending (Sock._obj w')) (Sock._obj w))
                   (Sock._auto_drain w) (Sock._closed w)).
Proof.
  split.
  - intros m rest e t h l ad c Hwf Hlim.
    destruct (HttpFacts.response_expects_body m Hwf) as [Hsyn Hexp].
    apply HttpFacts.read_http_res_wf; assumption.
  - exact HttpFacts.read_http_res_verbatim.
Qed.

Lemma read_http_res_returns_the_message_witness :
  Sock.read_http_res
    (Sample.arrived (Wire.render Sample.hello_chunked ++ lit "NEXT") false)
  = (Ret (Wire.render Sample.hello_chunked), Sample.arrived (lit "NEXT") false).
Proof.
  unfold Sample.arrived.
  apply (proj1 read_http_res_returns_the_message Sample.hello_chunked (lit "NEXT"));
    vm_compute; reflexivity.
Defined.

(** C2, as stated, fails at a 200 response with neither [Content-Length]
    nor [Transfer-Encoding] whose connection the peer has closed behind
    four further bytes: those bytes are read and returned with the head. *)
Lemma unframed_body_runs_to_the_end :
  Wire.unframed Sample.no_framing = true
  /\ Sock.read_http_res
       (Sample.arrived (Wire.render_head Sample.no_framing ++ lit "NEXT") true)
     = (Ret (Wire.render_head Sample.no_framing ++ lit "NEXT"),
        Sample.arrived [] true)
  /\ fst (Sock.read_http_res
            (Sample.arrived (Wire.render_head Sample.no_framing ++ lit "NEXT") true))
     <> Ret (Wire.render_head Sample.no_framing).
Proof. repeat split; vm_compute; (reflexivity || discriminate). Qed.

(** C2, amended.  For a response with a well-formed head within the
    limits of [http.client], a status other than 100, and neither a
    [Content-Length] field nor [Transfer-Encoding: chunked]:
    when the status is 1xx, 204 or 304, [read_http_res] stops at the
    blank line and returns the head only; for every other status the body
    runs to the end of the connection, so that [read_http_res] returns the
    head and all the bytes behind it once the peer has closed; while the
    peer keeps the connection open it returns no message: on a blocking
    socket it waits for ever, and on one with a timeout it raises
    [TimeoutError]. *)
Theorem read_http_res_without_framing m rest e t h l ad c :
  Wire.well_formed_head m = true ->
  Wire.head_within_limits m = true ->
  Wire.digits_value 10 (Wire.code m) <> 100%Z ->
  Wire.unframed m = true ->
  let w := Sock.mkFlush (Sock.mkSock (Wire.render_head m ++ rest) e false t h l) ad c in
  (Wire.bodiless (Wire.digits_value 10 (Wire.code m)) = true ->
   Sock.read_http_res w
   = (Ret (Wire.render_head m), Sock.mkFlush (Sock.mkSock rest e false t h l) ad c))
  /\ (Wire.bodiless (Wire.digits_value 10 (Wire.code m)) = false -> e = true ->
      Sock.read_http_res w
      = (Ret (Wire.render_head m ++ rest),
         Sock.mkFlush (Sock.mkSock [] e false t h l) ad c))
  /\ (Wire.bodiless (Wire.digits_value 10 (Wire.code m)) = false ->
      e = false -> t = None ->
      fst (Sock.read_http_res w) = Hang)
  /\ (Wire.bodiless (Wire.digits_value 10 (Wire.code m)) = false ->
      e = false ->
      forall d, t = Some d -> d <> 0%Z ->
      fst (Sock.read_http_res w) = Exc TimeoutError).
Proof. exact (HttpFacts.unframed_response m rest e t h l ad c). Qed.

Lemma read_http_res_without_framing_witness :
  Sock.read_http_res
    (Sample.arrived (Wire.render_head Sample.no_framing ++ lit "NEXT") true)
  = (Ret (Wire.render_head Sample.no_framing ++ lit "NEXT"),
     Sample.arrived [] true)
  /\ fst (Sock.read_http_res
            (Sample.arrived (Wire.render_head Sample.no_framing ++ lit "NEXT") false))
     = Exc TimeoutError.
Proof.
  unfold Sample.arrived. split.
  - apply (read_http_res_without_framing Sample.no_framing (lit "NEXT"));
      try reflexivity; vm_compute; (reflexivity || discriminate).
  - apply (proj2 (proj2 (proj2
             (read_http_res_without_framing Sample.no_framing (lit "NEXT")
                false (Some 10%Z) false [] true false
                eq_refl eq_refl ltac:(vm_compute; discriminate) eq_refl)))
             eq_refl eq_refl 10%Z eq_refl);
      discriminate.
Defined.

(** C6, as stated, fails at a chunked response whose chunk-size lines
    read [0x5] and [+5]: neither is a hexadecimal number of the chunk
    grammar, and yet [read_http_res] raises nothing, takes both for the
    size 5 and returns the bytes up to the end of the last chunk. *)
Lemma lenient_chunk_sizes_are_accepted :
  forallb Wire.is_hexdigit (lit "0x5") = false
  /\ forallb Wire.is_hexdigit (lit "+5") = false
  /\ Sock.read_http_res
       (Sample.arrived
          (Wire.render_head Sample.hello_chunked
           ++ lit "0x5" ++ CRLF ++ lit "hello" ++ CRLF
           ++ lit "+5" ++ CRLF ++ lit "world" ++ CRLF
           ++ lit "0" ++ CRLF ++ CRLF ++ lit "NEXT") false)
     = (Ret (Wire.render_head Sample.hello_chunked
             ++ lit "0x5" ++ CRLF ++ lit "hello" ++ CRLF
             ++ lit "+5" ++ CRLF ++ lit "world" ++ CRLF
             ++ lit "0" ++ CRLF ++ CRLF),
        Sample.arrived (lit "NEXT") false).
Proof. repeat split; vm_compute; reflexivity. Qed.

(** C6, amended.  Behind a well-formed head, a body that cannot be
    framed makes [read_http_res] raise [IncompleteRead] or
    [LineTooLong]: a body shorter than its [Content-Length] on a
    connection the peer has closed, or, after any number of whole chunks,
    a chunk-size line that [int(line, 16)] refuses, or a chunk cut short
    by the end of the connection.  What [int] accepts is wider than the
    chunk grammar, and a line it accepts is no error; it accepts a line
    only if every byte in front of its first semicolon is a hexadecimal
    digit, white space, a sign, an underscore or the [x] of a [0x]
    prefix. *)
Theorem read_http_res_raises_on_a_broken_body :
  (forall m rest e t h l ad c,
      Wire.well_formed_head m = true ->
      Wire.head_within_limits m = true ->
      Wire.digits_value 10 (Wire.code m) <> 100%Z ->
      Wire.body_fault
        (HttpClient.mkResponse (Wire.digits_value 10 (Wire.code m))
           (Wire.says_chunked (Wire.fields m)) (Wire.head_length m)) e rest ->
      Wire.framing_error
        (fst (Sock.read_http_res
                (Sock.mkFlush
                   (Sock.mkSock (Wire.render_head m ++ rest) e false t h l) ad c))))
  /\ (forall line n,
         Wire.size_field line = Some n ->
         forallb Wire.hexish
           (takewhile (fun b => negb (Byte.eqb b x3b)) line) = true).
Proof.
  split.
  - exact HttpFacts.fault_behind_head.
  - exact HttpFacts.size_field_hexish.
Qed.

Lemma read_http_res_raises_on_a_broken_body_witness :
  Wire.framing_error
    (fst (Sock.read_http_res
            (Sample.arrived
               (Wire.render_head Sample.hello_chunked ++ lit "5" ++ CRLF
                ++ lit "hello" ++ CRLF ++ lit "zz" ++ CRLF ++ lit "hello")
               false)))
  /\ Wire.framing_error
       (fst (Sock.read_http_res
               (Sample.arrived
                  (Wire.render_head Sample.ten_bytes ++ lit "01234") true))).
Proof.
  unfold Sample.arrived. split.
  - apply (proj1 read_http_res_raises_on_a_broken_body Sample.hello_chunked);
      try (vm_compute; (reflexivity || discriminate)).
    apply Wire.chunked_fault
      with (chunks := [Wire.mkChunk (lit "5") [] (lit "hello")])
           (tail := lit "zz" ++ CRLF ++ lit "hello");
      try (vm_compute; reflexivity).
    apply Wire.bad_size
      with (line := lit "zz" ++ CRLF) (rest := lit "hello") (done := true);
      vm_compute; reflexivity.
  - apply (proj1 read_http_res_raises_on_a_broken_body Sample.ten_bytes);
      try (vm_compute; (reflexivity || discriminate)).
    apply Wire.fixed_fault with (n := 10%Z); vm_compute; reflexivity.
Defined.

(** ** Blocking mode *)

(** C3.  [drain] puts back what it changed: the status flags of every
    pipe after [ProcessProxy.drain], and the timeout of the socket after
    [FlushProxy.drain], are those found.  [print] does not: whenever it
    gets past its guard with a usable standard output, that pipe is left
    with [O_NONBLOCK] set, however [print] ends. *)
Theorem print_leaves_stdout_nonblocking :
  (forall w, Proc.same_flags w (snd (Proc.drain w)))
  /\ (forall w,
         Sock.timeout (Sock._obj (snd (Sock.drain w)))
         = Sock.timeout (Sock._obj w))
  /\ (forall script w f o w',
         Proc._closed w = false ->
         Proc._stdout w = Some f ->
         Proc.usable f = true ->
         Proc.print script w = (o, w') ->
         Proc.flags_of Proc.Stdout w'
         = Some (Z.lor (Proc.flags f) Proc.O_NONBLOCK)
         /\ (exists f', Proc._stdout w' = Some f' /\ Proc.nonblocking f' = true)).
Proof.
  split; [|split].
  - exact ProcFacts.drain_restores_flags.
  - intros w. rewrite SockFacts.sock_drain_spec. cbn [snd].
    apply SockFacts.drained_timeout.
  - exact ProcFacts.print_leaves_nonblocking.
Qed.

Lemma print_leaves_stdout_nonblocking_witness :
  Proc.flags_of Proc.Stdout (Sample.child [Proc.Gives (lit "out")] []) = Some 0%Z
  /\ Proc.flags_of Proc.Stdout
       (snd (Proc.print [[Proc.Stdout]] (Sample.child [Proc.Gives (lit "out")] [])))
     = Some 2048%Z.
Proof.
  split; [reflexivity|].
  apply (proj2 (proj2 print_leaves_stdout_nonblocking)
           [[Proc.Stdout]] (Sample.child [Proc.Gives (lit "out")] [])
           (Sample.pipe [Proc.Gives (lit "out")])
           (fst (Proc.print [[Proc.Stdout]] (Sample.child [Proc.Gives (lit "out")] [])))
           (snd (Proc.print [[Proc.Stdout]] (Sample.child [Proc.Gives (lit "out")] []))));
    vm_compute; reflexivity.
Defined.

(** ** Closed wrappers *)

(** C4 at a closed [FlushProxy]: after [close] on an open connection,
    [read], [readline] and [write] raise [ValueError] where a closed
    [ProcessProxy] returns an empty result. *)
Lemma closed_flushproxy_raises :
  Sock._closed (snd (Sock.close (Sample.arrived (lit "data") false))) = true
  /\ fst (Sock.read 4
            (snd (Sock.close (Sample.arrived (lit "data") false))))
     = Exc ValueError
  /\ fst (Sock.readline (-1)
            (snd (Sock.close (Sample.arrived (lit "data") false))))
     = Exc ValueError
  /\ fst (Sock.write (Bytes (lit "x"))
            (snd (Sock.close (Sample.arrived (lit "data") false))))
     = Exc ValueError.
Proof. repeat split; vm_compute; reflexivity. Qed.

(** C4.  [ProcessProxy] keeps the claim: on a closed one, [read] and
    [readline] return the empty byte string, [write] returns 0, and
    [drain] and [print] return at once; none of them changes the wrapper
    or raises.  [FlushProxy] does not: its [read], [readline] and [write]
    lack the test of the closed flag that [ProcessProxy] makes, so once
    [close] has closed the socket file they raise [ValueError]; only
    [drain] returns quietly. *)
Theorem operations_on_a_closed_wrapper :
  (forall w,
      Proc._closed w = true ->
      (forall n, Proc.read n w = (Ret (PBytes []), w))
      /\ (forall n, Proc.readline n w = (Ret (PBytes []), w))
      /\ (forall data, Proc.write data w = (Ret 0%Z, w))
      /\ Proc.drain w = (Ret tt, w)
      /\ (forall script, Proc.print script w = (Ret tt, w)))
  /\ (forall w,
         Sock._closed w = false ->
         Sock.closed (Sock._obj (snd (Sock.close w))) = true)
  /\ (forall w,
         Sock.closed (Sock._obj w) = true ->
         (forall n, Sock.read n w = (Exc ValueError, w))
         /\ (forall n, Sock.readline n w = (Exc ValueError, w))
         /\ (forall data d,
                as_bytes data = Some d ->
                Sock.write data w = (Exc ValueError, w))
         /\ Sock.drain w = (Ret tt, w)).
Proof.
  split; [|split].
  - intros w H. repeat split; intros.
    + apply ProcFacts.closed_read; exact H.
    + apply ProcFacts.closed_readline; exact H.
    + apply ProcFacts.closed_write; exact H.
    + apply ProcFacts.closed_drain; exact H.
    + apply ProcFacts.closed_print; exact H.
  - intros w H. rewrite (SockFacts.sock_close_spec w H). reflexivity.
  - intros w H. repeat split; intros.
    + apply SockFacts.closed_sock_read; exact H.
    + apply SockFacts.closed_sock_readline; exact H.
    + eapply SockFacts.closed_sock_write; eassumption.
    + rewrite SockFacts.sock_drain_spec.
      rewrite (SockFacts.drained_closed w H). reflexivity.
Qed.

Lemma operations_on_a_closed_wrapper_witness :
  Proc.read 4 (snd (Proc.close (Sample.child [Proc.Gives (lit "out")] [])))
  = (Ret (PBytes []), snd (Proc.close (Sample.child [Proc.Gives (lit "out")] [])))
  /\ Sock.read 4 (snd (Sock.close (Sample.arrived (lit "data") false)))
     = (Exc ValueError, snd (Sock.close (Sample.arrived (lit "data") false))).
Proof.
  split.
  - apply (proj1 operations_on_a_closed_wrapper
             (snd (Proc.close (Sample.child [Proc.Gives (lit "out")] [])))).
    vm_compute; reflexivity.
  - apply (proj2 (proj2 operations_on_a_closed_wrapper)
             (snd (Sock.close (Sample.arrived (lit "data") false)))).
    vm_compute; reflexivity.
Defined.

(** C10.  A [close] that has returned has set the closed flag, and from
    then on [close] returns at once and leaves the wrapper as it is: no
    drain, no close of a stream, no signal to the child. *)
Theorem close_is_idempotent :
  (forall w w',
      Proc.close w = (Ret tt, w') ->
      Proc._closed w' = true /\ Proc.close w' = (Ret tt, w'))
  /\ (forall w w',
         Sock.close w = (Ret tt, w') ->
         Sock._closed w' = true /\ Sock.close w' = (Ret tt, w')).
Proof.
  split; intros w w' H.
  - pose proof (ProcFacts.close_sets_flag w w' H) as Hc.
    split; [exact Hc | apply ProcFacts.closed_close; exact Hc].
  - assert (Hc : Sock._closed w' = true).
    { destruct (Sock._closed w) eqn:E.
      - rewrite (SockFacts.sock_closed_close w E) in H. inversion H; subst.
        exact E.
      - rewrite (SockFacts.sock_close_spec w E) in H. inversion H; subst.
        reflexivity. }
    split; [exact Hc | apply SockFacts.sock_closed_close; exact Hc].
Qed.

Lemma close_is_idempotent_witness :
  (Proc._closed (snd (Proc.close (Sample.child [Proc.Gives (lit "out")] []))) = true
   /\ Proc.close (snd (Proc.close (Sample.child [Proc.Gives (lit "out")] [])))
      = (Ret tt, snd (Proc.close (Sample.child [Proc.Gives (lit "out")] []))))
  /\ (Sock._closed (snd (Sock.close (Sample.arrived (lit "data") false))) = true
      /\ Sock.close (snd (Sock.close (Sample.arrived (lit "data") false)))
         = (Ret tt, snd (Sock.close (Sample.arrived (lit "data") false)))).
Proof.
  split.
  - apply (proj1 close_is_idempotent (Sample.child [Proc.Gives (lit "out")] [])).
    vm_compute; reflexivity.
  - apply (proj2 close_is_idempotent (Sample.arrived (lit "data") false)).
    vm_compute; reflexivity.
Defined.

(** ** The multiplexer *)

(** C5.  A wait in which nothing becomes ready ends [print]: what would
    become ready afterwards has no influence on the outcome or on the
    state [print] leaves, and when the very first wait is idle nothing
    has been read from either stream and nothing written to either
    sink. *)
Theorem print_stops_at_an_idle_wait :
  (forall pre post w,
      Proc.print (pre ++ [] :: post) w = Proc.print pre w)
  /\ (forall post w,
         Proc.traffic (snd (Proc.print ([] :: post) w)) = Proc.traffic w).
Proof.
  split.
  - exact ProcFacts.print_idle.
  - exact ProcFacts.print_first_idle.
Qed.

(** C7.  In [print], a read that raises an [Exception] or returns nothing
    takes its handle, and no other, out of the selector and out of the
    active list, touches neither sink nor the other streams, and raises
    nothing; a handle whose read returns data stays, and the data goes to
    its sink, which is flushed.  A handle that is not in the selector is
    never read again, whatever becomes ready.  With no active handle left
    the loop returns, and with streams that can be registered [print] as a
    whole returns normally whatever [Exception]s the reads raise. *)
Theorem print_drops_only_the_failing_handle :
  (forall fd sel act w,
      Proc.next_read_falsy (Proc.get_stream fd w) = true ->
      exists w',
        Proc.handle_event fd sel act w
        = (Ret (Proc.unregister fd sel,
                if Proc.mem fd act then Proc.list_remove fd act else act), w')
        /\ Proc.sys_stdout w' = Proc.sys_stdout w
        /\ Proc.sys_stderr w' = Proc.sys_stderr w
        /\ (forall fd', fd' <> fd -> Proc.get_stream fd' w' = Proc.get_stream fd' w))
  /\ (forall fd fd' l,
         Proc.mem fd (Proc.unregister fd l) = false
         /\ (fd' <> fd ->
             Proc.mem fd' (Proc.unregister fd l) = Proc.mem fd' l
             /\ Proc.mem fd' (Proc.list_remove fd l) = Proc.mem fd' l))
  /\ (forall fd sel act w f b bs a,
         Proc.get_stream fd w = Some f ->
         Proc.usable f = true ->
         Proc.feed f = Proc.Gives (b :: bs) :: a ->
         Proc.handle_event fd sel act w
         = (Ret (sel, act),
            snd (Proc.sink_flush fd
                   (snd (Proc.sink_write fd (b :: bs)
                           (Proc.set_stream fd (Some (Proc.with_feed a f)) w))))))
  /\ (forall fd script sel act w,
         Proc.mem fd sel = false ->
         Proc.get_stream fd (snd (Proc.print_loop script sel act w))
         = Proc.get_stream fd w)
  /\ (forall script sel w, Proc.print_loop script sel [] w = (Ret tt, w))
  /\ (forall script w,
         Proc.registrable w = true ->
         Proc.fails_within is_Exception (Proc._stdout w) = true ->
         Proc.fails_within is_Exception (Proc.stderr w) = true ->
         fst (Proc.print script w) = Ret tt).
Proof.
  repeat apply conj.
  - exact ProcFacts.handle_event_falsy.
  - intros fd fd' l. split; [apply ProcFacts.mem_unregister_same|].
    intros Hne. split.
    + apply ProcFacts.mem_unregister_other; exact Hne.
    + apply ProcFacts.mem_list_remove_other; exact Hne.
  - exact ProcFacts.handle_event_data.
  - intros fd script sel act w. apply ProcFacts.print_loop_untouched.
  - exact ProcFacts.print_loop_empty.
  - exact ProcFacts.print_never_escalates.
Qed.

Lemma print_drops_only_the_failing_handle_witness :
  fst (Proc.print
         [[Proc.Stdout; Proc.Stderr]; [Proc.Stdout; Proc.Stderr]; [Proc.Stderr]]
         (Sample.child [Proc.Fails OSError]
            [Proc.Gives (lit "e1"); Proc.Gives (lit "e2")]))
  = Ret tt
  /\ Proc.sys_stderr
       (snd (Proc.print
               [[Proc.Stdout; Proc.Stderr]; [Proc.Stdout; Proc.Stderr]; [Proc.Stderr]]
               (Sample.child [Proc.Fails OSError]
                  [Proc.Gives (lit "e1"); Proc.Gives (lit "e2")])))
     = [Wrote (lit "e1"); Flushed; Wrote (lit "e2"); Flushed].
Proof.
  split; [|vm_compute; reflexivity].
  apply (proj2 (proj2 (proj2 (proj2 (proj2 print_drops_only_the_failing_handle)))));
    vm_compute; reflexivity.
Defined.

(** ** Draining *)

(** C8.  [drain] returns normally on both wrappers.  On a [ProcessProxy]
    it leaves closed, invalid or missing streams alone, whatever they
    are, and leaves each usable stream behind the first read that raised
    or returned nothing, with its flags as found, the errors that reads
    of a descriptor raise being [IOError]s or [ValueError]s.  On a [FlushProxy] it leaves nothing pending
    when the file is open and the socket has [settimeout], and otherwise
    leaves the wrapper as it is. *)
Theorem drain_returns_normally :
  (forall w,
      Proc.read_errors_within Proc.IOError_or_ValueError (Proc._stdout w) = true ->
      Proc.read_errors_within Proc.IOError_or_ValueError (Proc.stderr w) = true ->
      Proc.drain w = (Ret tt, Proc.drained w))
  /\ (forall w, Sock.drain w = (Ret tt, Sock.drained w)).
Proof.
  split.
  - exact ProcFacts.drain_spec.
  - exact SockFacts.sock_drain_spec.
Qed.

Lemma drain_returns_normally_witness :
  Proc.drain
    (Proc.mkProxy None
       (Some (Sample.pipe [Proc.Gives (lit "left over"); Proc.Fails OSError]))
       (Some (Proc.mkFileIO true false 0 [Proc.Fails TypeError] []))
       (Proc.mkPopen None true []) true false [] [])
  = (Ret tt,
     Proc.drained
       (Proc.mkProxy None
          (Some (Sample.pipe [Proc.Gives (lit "left over"); Proc.Fails OSError]))
          (Some (Proc.mkFileIO true false 0 [Proc.Fails TypeError] []))
          (Proc.mkPopen None true []) true false [] [])).
Proof.
  apply (proj1 drain_returns_normally); reflexivity.
Defined.

(** ** Writing *)

(** C9.  On an open wrapper, [write] of an argument that can be encoded
    writes its bytes to the stream, flushes the stream, and returns their
    number.  The bytes of a [str] are its code points, one byte for each,
    which is the latin-1 encoding; those of a [bytearray] or of [bytes]
    are its content. *)
Theorem write_encodes_and_flushes :
  (forall w data d f,
      Proc._closed w = false ->
      Proc._stdin w = Some f ->
      Proc.usable f = true ->
      as_bytes data = Some d ->
      Proc.write data w
      = (Ret (len d),
         Proc.set_stream Proc.Stdin
           (Some (Proc.with_log (Proc.log f ++ [Wrote d; Flushed]) f)) w))
  /\ (forall data d w,
         Sock.closed (Sock._obj w) = false ->
         as_bytes data = Some d ->
         Sock.write data w
         = (Ret (len d),
            Sock.mkFlush
              (Sock.with_log (Sock.log (Sock._obj w) ++ [Wrote d; Flushed])
                 (Sock._obj w))
              (Sock._auto_drain w) (Sock._closed w)))
  /\ (forall cps d, as_bytes (Str cps) = Some d -> map Byte.to_N d = cps)
  /\ (forall b, as_bytes (ByteArray b) = Some b /\ as_bytes (Bytes b) = Some b).
Proof.
  repeat apply conj.
  - exact ProcFacts.write_open.
  - exact SockFacts.sock_write_open.
  - intros cps d H. apply ProcFacts.encode_latin1_values. exact H.
  - intros b. split; reflexivity.
Qed.

Lemma write_encodes_and_flushes_witness :
  Proc.write (Str [104%N; 233%N]) (Sample.child [] [])
  = (Ret 2%Z,
     Proc.set_stream Proc.Stdin
       (Some (Proc.with_log ([] ++ [Wrote [x68; xe9]; Flushed]) (Sample.pipe [])))
       (Sample.child [] []))
  /\ Sock.write (ByteArray (lit "hi")) (Sample.arrived [] false)
     = (Ret 2%Z,
        Sock.mkFlush
          (Sock.with_log ([] ++ [Wrote (lit "hi"); Flushed])
             (Sock._obj (Sample.arrived [] false)))
          true false).
Proof.
  split.
  - apply (proj1 write_encodes_and_flushes (Sample.child [] []) (Str [104%N; 233%N])
             [x68; xe9] (Sample.pipe [])); reflexivity.
  - apply (proj1 (proj2 write_encodes_and_flushes) (ByteArray (lit "hi")) (lit "hi")
             (Sample.arrived [] false)); reflexivity.
Defined.

(** ** [ProcessProxy]: forwarding, closing, scopes *)

Module ProcMethodFacts.
Import MonadFacts Proc ProcMethods ProcFacts.

(** *** [print] forwards what it reads *)

Lemma forwarded_refl fd w : forwarded fd w w.
Proof. exists []. cbn. rewrite app_nil_r. auto. Qed.

Lemma forwarded_trans fd w1 w2 w3 :
  forwarded fd w1 w2 -> forwarded fd w2 w3 -> forwarded fd w1 w3.
Proof.
  intros (c1 & Hf1 & Hs1) (c2 & Hf2 & Hs2). exists (c1 ++ c2).
  rewrite Hf1, Hf2, Hs2, Hs1, flat_map_app, !app_assoc. auto.
Qed.

Lemma forwards_preorder : preorder forwards.
Proof.
  split.
  - intros w. split; apply forwarded_refl.
  - intros w1 w2 w3 [Ho1 He1] [Ho2 He2].
    split; eapply forwarded_trans; eassumption.
Qed.

Lemma forwarded_same fd w w' :
  feed_of fd w' = feed_of fd w -> sink_of fd w' = sink_of fd w ->
  forwarded fd w w'.
Proof.
  intros Hf Hs. exists []. cbn. rewrite Hf, Hs, app_nil_r. auto.
Qed.

Lemma on_forwards {A} fd (m : M fileio A) :
  (forall f, feed (snd (m f)) = feed f) -> keeps forwards (on fd m).
Proof.
  intros Hm w. unfold on.
  destruct (get_stream fd w) as [f|] eqn:Hf; [|apply forwards_preorder].
  specialize (Hm f). destruct (m f) as [o f']. cbn [snd] in *.
  split; apply forwarded_same; unfold feed_of;
    destruct fd; cbn in *; rewrite ?Hf; cbn; congruence.
Qed.

Ltac forwarded_by a Hf Hfeed :=
  cbn in Hf;
  first
    [ solve [ exists [a]; unfold feed_of, sink_of; cbn; rewrite ?Hf; cbn;
              rewrite ?Hfeed; cbn; rewrite <- ?app_assoc, ?app_nil_r; auto ]
    | solve [ apply forwarded_same; unfold feed_of, sink_of; cbn;
              rewrite ?Hf; reflexivity ] ].

Lemma handle_event_forwards fd sel act :
  fd <> Stdin -> keeps forwards (handle_event fd sel act).
Proof.
  intros Hne w. unfold handle_event, bind, try_except, on.
  destruct (get_stream fd w) as [f|] eqn:Hf; cbn [ret snd];
    [|apply forwards_preorder].
  unfold fileio_read.
  destruct (closed f); cbn [is_Exception ret snd].
  { rewrite (set_get_stream fd w f Hf). apply forwards_preorder. }
  destruct (fd_valid f); cbn [negb is_Exception ret snd].
  2:{ rewrite (set_get_stream fd w f Hf). apply forwards_preorder. }
  destruct (feed f) as [|[[|b bs]|e] rest] eqn:Hfeed.
  - destruct (nonblocking f); cbn [snd];
      rewrite (set_get_stream fd w f Hf); apply forwards_preorder.
  - destruct fd; [contradiction| |]; split;
      forwarded_by (Gives []) Hf Hfeed.
  - destruct fd; [contradiction| |]; split;
      forwarded_by (Gives (b :: bs)) Hf Hfeed.
  - destruct (is_Exception e); destruct fd; try contradiction; split;
      forwarded_by (Fails e) Hf Hfeed.
Qed.

Lemma for_events_forwards evs : forall sel act w,
  ~ In Stdin evs ->
  forwards w (snd (for_events evs sel act w))
  /\ (forall st, fst (for_events evs sel act w) = Ret st ->
        forall x, mem x (fst st) = true -> mem x sel = true).
Proof.
  induction evs as [|fd evs IH]; intros sel act w Hnot.
  - cbn. split; [apply forwards_preorder|]. intros st H. inversion H. auto.
  - assert (Hne : fd <> Stdin) by (intros ->; apply Hnot; left; reflexivity).
    assert (Hnot' : ~ In Stdin evs) by (intros H; apply Hnot; right; exact H).
    pose proof (handle_event_forwards fd sel act Hne w) as Hh.
    cbn [for_events]. unfold bind.
    destruct (handle_event fd sel act w) as [[st1|e| |] w1] eqn:E;
      cbn [snd fst] in *; try (split; [exact Hh | intros ? H; discriminate]).
    destruct (IH (fst st1) (snd st1) w1 Hnot') as [Hu Hsub].
    split.
    + eapply (proj2 forwards_preorder); eassumption.
    + intros st Hst x Hx. specialize (Hsub st Hst x Hx).
      unfold handle_event in E.
      destruct (try_except (on fd (fileio_read 4096)) is_Exception (ret PNone) w)
        as [[v|e| |] w2] eqn:Er; unfold bind in E; rewrite Er in E;
        try discriminate.
      destruct v as [[|b bs]|].
      * inversion E; subst. apply (mem_unregister_sub fd). exact Hsub.
      * destruct (sink_write fd (b :: bs) w2) as [[[]|? | |] w3]; try discriminate.
        destruct (sink_flush fd w3) as [[[]|? | |] w4]; try discriminate.
        inversion E; subst. exact Hsub.
      * inversion E; subst. apply (mem_unregister_sub fd). exact Hsub.
Qed.

Lemma print_loop_forwards script : forall sel act w,
  mem Stdin sel = false ->
  forwards w (snd (print_loop script sel act w)).
Proof.
  induction script as [|ready later IH]; intros sel act w Hsel.
  - destruct act; apply forwards_preorder.
  - destruct act as [|x act]; [apply forwards_preorder|]. cbn [print_loop].
    destruct (select sel ready) as [|ev evs] eqn:Hev; [apply forwards_preorder|].
    assert (Hnot : ~ In Stdin (ev :: evs)).
    { intros Hin. rewrite <- Hev in Hin. apply select_sub in Hin. congruence. }
    destruct (for_events_forwards (ev :: evs) sel (x :: act) w Hnot)
      as [Hfw Hsub].
    unfold bind at 1.
    destruct (for_events (ev :: evs) sel (x :: act) w) as [[st|e| |] w1] eqn:E;
      cbn [snd fst] in *; try exact Hfw.
    unfold poll, bind, gets.
    assert (Hsel' : mem Stdin (fst st) = false).
    { destruct (mem Stdin (fst st)) eqn:Em; [|reflexivity].
      rewrite (Hsub st eq_refl Stdin Em) in Hsel. discriminate. }
    destruct (returncode (_proc w1)); destruct (snd st); cbn [snd];
      try exact Hfw;
      (eapply (proj2 forwards_preorder); [exact Hfw|]; apply IH; exact Hsel').
Qed.

Lemma register_forwards fd sel act : keeps forwards (register fd sel act).
Proof.
  unfold register, _make_nonblocking.
  keeps_with forwards_preorder
    ltac:(apply on_forwards;
          first [apply fileno_feed | apply getfl_feed | apply setfl_feed]).
Qed.

Lemma register_sel fd sel act w st w' :
  register fd sel act w = (Ret st, w') ->
  fst st = sel \/ fst st = sel ++ [fd].
Proof.
  unfold register. intros H.
  apply bind_Ret_inv in H. destruct H as (s & w1 & Hs & H).
  destruct (is_some s).
  - apply bind_Ret_inv in H. destruct H as (? & ? & _ & H).
    apply bind_Ret_inv in H. destruct H as (? & ? & _ & H).
    inversion H. auto.
  - inversion H. auto.
Qed.

Lemma print_forwards script w : forwards w (snd (print script w)).
Proof.
  unfold print. unfold bind at 1. unfold gets.
  destruct (_closed w); [apply forwards_preorder|].
  unfold bind at 1.
  pose proof (register_forwards Stdout [] [] w) as H1.
  destruct (register Stdout [] [] w) as [[st1|e| |] w1] eqn:E1;
    cbn [snd] in *; try exact H1.
  unfold bind at 1.
  pose proof (register_forwards Stderr (fst st1) (snd st1) w1) as H2.
  destruct (register Stderr (fst st1) (snd st1) w1) as [[st2|e| |] w2] eqn:E2;
    cbn [snd] in *;
    try (eapply (proj2 forwards_preorder); eassumption).
  assert (Hsel : mem Stdin (fst st2) = false).
  { destruct (register_sel _ _ _ _ _ _ E1) as [Hs1 | Hs1];
      destruct (register_sel _ _ _ _ _ _ E2) as [Hs2 | Hs2];
      rewrite Hs2, Hs1; reflexivity. }
  pose proof (print_loop_forwards script (fst st2) (snd st2) w2 Hsel) as H3.
  unfold try_finally.
  destruct (print_loop script (fst st2) (snd st2) w2) as [[[]|e| |] w3];
    cbn [snd bind ret raise] in *;
    (eapply (proj2 forwards_preorder); [exact H1|];
     eapply (proj2 forwards_preorder); [exact H2|]; exact H3).
Qed.

(** *** [print] only reads *)

Lemma only_reads_preorder : preorder only_reads.
Proof.
  split.
  - intros w. repeat split.
  - intros w1 w2 w3 (A1 & B1 & C1 & D1 & E1 & F1) (A2 & B2 & C2 & D2 & E2 & F2).
    unfold only_reads, kept_open in *. repeat split; congruence.
Qed.

Lemma on_only_reads {A} fd (m : M fileio A) :
  fd <> Stdin ->
  (forall f, closed (snd (m f)) = closed f
             /\ fd_valid (snd (m f)) = fd_valid f
             /\ log (snd (m f)) = log f) ->
  keeps only_reads (on fd m).
Proof.
  intros Hne Hm w. unfold on.
  destruct (get_stream fd w) as [f|] eqn:Hf; [|apply only_reads_preorder].
  destruct (Hm f) as (Hc & Hv & Hl). destruct (m f) as [o f']. cbn [snd] in *.
  destruct fd; [contradiction| |]; cbn in Hf |- *;
    unfold only_reads, kept_open; cbn; rewrite Hf; cbn;
    rewrite Hc, Hv, Hl; repeat split.
Qed.

Lemma fileio_read_kept n f :
  closed (snd (fileio_read n f)) = closed f
  /\ fd_valid (snd (fileio_read n f)) = fd_valid f
  /\ log (snd (fileio_read n f)) = log f.
Proof.
  unfold fileio_read. destruct (closed f) eqn:Hc; cbn; auto.
  destruct (fd_valid f) eqn:Hv; cbn; auto.
  destruct (feed f) as [|[b|e] a]; cbn; auto.
  destruct (nonblocking f); cbn; auto.
Qed.

Lemma fileno_kept f :
  closed (snd (fileno f)) = closed f
  /\ fd_valid (snd (fileno f)) = fd_valid f
  /\ log (snd (fileno f)) = log f.
Proof. unfold fileno. destruct (closed f) eqn:Hc; cbn; auto. Qed.

Lemma getfl_kept f :
  closed (snd (fcntl_getfl f)) = closed f
  /\ fd_valid (snd (fcntl_getfl f)) = fd_valid f
  /\ log (snd (fcntl_getfl f)) = log f.
Proof. unfold fcntl_getfl. destruct (fd_valid f) eqn:Hv; cbn; auto. Qed.

Lemma setfl_kept fl f :
  closed (snd (fcntl_setfl fl f)) = closed f
  /\ fd_valid (snd (fcntl_setfl fl f)) = fd_valid f
  /\ log (snd (fcntl_setfl fl f)) = log f.
Proof. unfold fcntl_setfl. destruct (fd_valid f) eqn:Hv; cbn; auto. Qed.

Lemma sink_only_reads fd :
  (forall b, keeps only_reads (sink_write fd b))
  /\ keeps only_reads (sink_flush fd).
Proof. split; [intros b|]; intros w; destruct fd; repeat split. Qed.

Lemma handle_event_only_reads fd sel act :
  fd <> Stdin -> keeps only_reads (handle_event fd sel act).
Proof.
  intros Hne. unfold handle_event.
  keeps_with only_reads_preorder
    ltac:(first [ apply (on_only_reads fd _ Hne), fileio_read_kept
                | apply (proj1 (sink_only_reads fd))
                | apply (proj2 (sink_only_reads fd)) ]).
Qed.

Lemma for_events_only_reads evs : forall sel act w,
  ~ In Stdin evs -> only_reads w (snd (for_events evs sel act w)).
Proof.
  induction evs as [|fd evs IH]; intros sel act w Hnot.
  - apply only_reads_preorder.
  - assert (Hne : fd <> Stdin) by (intros ->; apply Hnot; left; reflexivity).
    assert (Hnot' : ~ In Stdin evs) by (intros H; apply Hnot; right; exact H).
    pose proof (handle_event_only_reads fd sel act Hne w) as Hh.
    cbn [for_events]. unfold bind.
    destruct (handle_event fd sel act w) as [[st1|e| |] w1]; cbn [snd] in *;
      try exact Hh.
    eapply (proj2 only_reads_preorder); [exact Hh | apply IH; exact Hnot'].
Qed.

Lemma print_loop_only_reads script : forall sel act w,
  mem Stdin sel = false ->
  only_reads w (snd (print_loop script sel act w)).
Proof.
  induction script as [|ready later IH]; intros sel act w Hsel.
  - destruct act; apply only_reads_preorder.
  - destruct act as [|x act]; [apply only_reads_preorder|]. cbn [print_loop].
    destruct (select sel ready) as [|ev evs] eqn:Hev;
      [apply only_reads_preorder|].
    assert (Hnot : ~ In Stdin (ev :: evs)).
    { intros Hin. rewrite <- Hev in Hin. apply select_sub in Hin. congruence. }
    pose proof (for_events_only_reads (ev :: evs) sel (x :: act) w Hnot) as Hfw.
    destruct (for_events_forwards (ev :: evs) sel (x :: act) w Hnot)
      as [_ Hsub].
    unfold bind at 1.
    destruct (for_events (ev :: evs) sel (x :: act) w) as [[st|e| |] w1] eqn:E;
      cbn [snd fst] in *; try exact Hfw.
    unfold poll, bind, gets.
    assert (Hsel' : mem Stdin (fst st) = false).
    { destruct (mem Stdin (fst st)) eqn:Em; [|reflexivity].
      rewrite (Hsub st eq_refl Stdin Em) in Hsel. discriminate. }
    destruct (returncode (_proc w1)); destruct (snd st); cbn [snd];
      try exact Hfw;
      (eapply (proj2 only_reads_preorder); [exact Hfw|]; apply IH; exact Hsel').
Qed.

Lemma register_only_reads fd sel act :
  fd <> Stdin -> keeps only_reads (register fd sel act).
Proof.
  intros Hne. unfold register, _make_nonblocking.
  keeps_with only_reads_preorder
    ltac:(apply (on_only_reads fd _ Hne);
          first [apply fileno_kept | apply getfl_kept | apply setfl_kept]).
Qed.

Lemma print_only_reads script w : only_reads w (snd (print script w)).
Proof.
  unfold print. unfold bind at 1. unfold gets.
  destruct (_closed w); [apply only_reads_preorder|].
  unfold bind at 1.
  pose proof (register_only_reads Stdout [] [] ltac:(discriminate) w) as H1.
  destruct (register Stdout [] [] w) as [[st1|e| |] w1] eqn:E1;
    cbn [snd] in *; try exact H1.
  unfold bind at 1.
  pose proof (register_only_reads Stderr (fst st1) (snd st1)
                ltac:(discriminate) w1) as H2.
  destruct (register Stderr (fst st1) (snd st1) w1) as [[st2|e| |] w2] eqn:E2;
    cbn [snd] in *;
    try (eapply (proj2 only_reads_preorder); eassumption).
  assert (Hsel : mem Stdin (fst st2) = false).
  { destruct (register_sel _ _ _ _ _ _ E1) as [Hs1 | Hs1];
      destruct (register_sel _ _ _ _ _ _ E2) as [Hs2 | Hs2];
      rewrite Hs2, Hs1; reflexivity. }
  pose proof (print_loop_only_reads script (fst st2) (snd st2) w2 Hsel) as H3.
  unfold try_finally.
  destruct (print_loop script (fst st2) (snd st2) w2) as [[[]|e| |] w3];
    cbn [snd bind ret raise] in *;
    (eapply (proj2 only_reads_preorder); [exact H1|];
     eapply (proj2 only_reads_preorder); [exact H2|]; exact H3).
Qed.

(** *** [read] after [print] *)

Lemma read_after_print script n w f :
  (0 < n)%Z ->
  _closed w = false ->
  _stdout w = Some f ->
  usable f = true ->
  nonblocking f = false ->
  feed f = [] ->
  fst (read n w) = Hang
  /\ fst (read n (snd (print script w))) = Ret PNone.
Proof.
  intros Hn Hc Hf Hu Hnb Hfeed. destruct (usable_parts f Hu) as [Hcl Hv].
  split.
  - unfold read, bind, gets, on. rewrite Hf, Hc. cbn.
    rewrite Hf. unfold fileio_read. rewrite Hcl, Hv, Hfeed, Hnb. reflexivity.
  - destruct (print script w) as [o w'] eqn:Ep.
    destruct (print_leaves_nonblocking script w f o w' Hc Hf Hu Ep)
      as (_ & f' & Hf' & Hnb').
    pose proof (print_only_reads script w) as (_ & _ & _ & Hc' & Hk & _).
    pose proof (print_forwards script w) as [(used & Hused & _) _].
    rewrite Ep in *. cbn [snd] in *.
    unfold kept_open in Hk. rewrite Hf, Hf' in Hk. cbn in Hk.
    inversion Hk as [[Hkc Hkv Hkl]].
    unfold feed_of in Hused. cbn in Hused. rewrite Hf, Hf', Hfeed in Hused.
    symmetry in Hused. apply app_eq_nil in Hused. destruct Hused as [_ Hfeed'].
    unfold read, bind, gets, on. rewrite Hf', Hc', Hc. cbn.
    rewrite Hf'. unfold fileio_read.
    rewrite Hkc, Hkv, Hcl, Hv, Hfeed', Hnb'. reflexivity.
Qed.

(** *** [close] *)

Lemma close_tail w1 :
  (close_stream Stdin ;;
   close_stream Stdout ;;
   close_stream Stderr ;;
   try_except
     (rc <- poll ;;
      match rc with
      | None => terminate ;; wait_timeout
      | Some _ => ret tt
      end)
     TimeoutExpired_or_ProcessLookupError
     (try_except
        (rc <- poll ;;
         match rc with
         | None => kill
         | Some _ => ret tt
         end)
        is_ProcessLookupError
        (ret tt)) ;;
   modify (set_closed true)) w1
  = (Ret tt, after_close w1).
Proof.
  destruct w1 as [si so se [rc te sg] ad c o e].
  destruct si as [fi|], so as [fo|], se as [fe|], rc as [r|], te;
    cbn; rewrite <- ?app_assoc; reflexivity.
Qed.

Lemma close_open w :
  _closed w = false ->
  read_errors_within IOError_or_ValueError (_stdout w) = true ->
  read_errors_within IOError_or_ValueError (stderr w) = true ->
  close w
  = (Ret tt, after_close (if _auto_drain w then drained w else w)).
Proof.
  intros Hc Hout Herr. unfold close. unfold bind at 1. unfold gets.
  rewrite Hc. unfold bind at 1.
  destruct (_auto_drain w).
  - unfold bind at 1. rewrite (drain_spec w Hout Herr). apply close_tail.
  - unfold bind at 1. cbn [ret]. apply close_tail.
Qed.

Lemma close_undrained w :
  _closed w = false ->
  _auto_drain w = false ->
  close w = (Ret tt, after_close w).
Proof.
  intros Hc Had. unfold close. unfold bind at 1. unfold gets.
  rewrite Hc. unfold bind at 1. rewrite Had.
  unfold bind at 1. cbn [ret]. apply close_tail.
Qed.

Lemma drain_ends w :
  fst (drain w) = Ret tt
  \/ exists e, fst (drain w) = Exc e /\ IOError_or_ValueError e = false.
Proof.
  assert (Hone : forall fd w0,
            fst (_drain_stream fd w0) = Ret tt
            \/ exists e, fst (_drain_stream fd w0) = Exc e
                         /\ IOError_or_ValueError e = false).
  { intros fd w0. rewrite drain_stream_spec. cbn [fst].
    destruct (get_stream fd w0) as [f|]; [|left; reflexivity].
    destruct (usable f); [|left; reflexivity].
    pose proof (drain_end_no_hang (feed f)) as [Hh Hfu].
    unfold absorb. destruct (drain_end (feed f)) as [[]|e| |]; try congruence.
    - left; reflexivity.
    - destruct (IOError_or_ValueError e) eqn:He; [left; reflexivity|].
      right. exists e. auto. }
  destruct (drain w) as [o w'] eqn:E. cbn [fst].
  unfold drain in E. unfold bind at 1 in E. unfold gets in E.
  destruct (_closed w); [inversion E; left; reflexivity|].
  unfold bind in E. pose proof (Hone Stdout w) as H1.
  destruct (_drain_stream Stdout w) as [o1 w1]. cbn [fst] in H1.
  destruct H1 as [-> | (e & -> & He)].
  - specialize (Hone Stderr w1). rewrite E in Hone. exact Hone.
  - inversion E. right. exists e. auto.
Qed.

Lemma close_ends w :
  fst (close w) = Ret tt
  \/ exists e, fst (close w) = Exc e /\ IOError_or_ValueError e = false.
Proof.
  destruct (close w) as [o w'] eqn:E. cbn [fst].
  unfold close in E. unfold bind at 1 in E. unfold gets in E.
  destruct (_closed w); [inversion E; left; reflexivity|].
  unfold bind at 1 in E. destruct (_auto_drain w).
  - unfold bind at 1 in E. pose proof (drain_ends w) as H.
    destruct (drain w) as [o1 w1]. cbn [fst] in H.
    destruct H as [-> | (e & -> & He)].
    + rewrite close_tail in E. inversion E. left; reflexivity.
    + inversion E. right. exists e. auto.
  - unfold bind at 1 in E. cbn [ret] in E. rewrite close_tail in E.
    inversion E. left; reflexivity.
Qed.

(** *** Scopes and finalisers *)

Lemma del_ends w :
  fst (__del__ w) = Ret tt
  \/ exists e, fst (__del__ w) = Exc e /\ is_Exception e = false.
Proof.
  destruct (__del__ w) as [o w'] eqn:E. cbn [fst].
  unfold __del__, try_except in E. unfold bind at 1 in E. unfold gets in E.
  destruct (_closed w); cbn [negb] in E; [inversion E; left; reflexivity|].
  pose proof (close_ends w) as H.
  destruct (close w) as [o1 w1]. cbn [fst] in H.
  destruct H as [-> | (e & -> & He)].
  - inversion E. left; reflexivity.
  - destruct (is_Exception e) eqn:Ee.
    + inversion E. left; reflexivity.
    + inversion E. right. exists e. auto.
Qed.

Lemma with_closes {A} (body : M ProcessProxy A) w o w1 :
  body w = (o, w1) ->
  o <> Hang -> o <> Fuel ->
  read_errors_within IOError_or_ValueError (_stdout w1) = true ->
  read_errors_within IOError_or_ValueError (stderr w1) = true ->
  exists w2, with_ body w = (o, w2) /\ _closed w2 = true.
Proof.
  intros Hb Hh Hf Hout Herr.
  unfold with_, __enter__, __exit__. unfold bind at 1. cbn [ret].
  unfold try_finally. rewrite Hb.
  assert (Hclose : exists w2, close w1 = (Ret tt, w2) /\ _closed w2 = true).
  { destruct (_closed w1) eqn:Hc.
    - exists w1. rewrite (closed_close w1 Hc). auto.
    - eexists. rewrite (close_open w1 Hc Hout Herr). split; reflexivity. }
  destruct Hclose as (w2 & Hcl & Hc2). exists w2.
  destruct o as [a|e| |]; try congruence;
    unfold bind; rewrite Hcl; auto.
Qed.

End ProcMethodFacts.

(** ** [FlushProxy]: what [read_http_res] leaves, scopes *)

Module SockMethodFacts.
Import MonadFacts Sock HttpClient Wire HttpFacts SockFacts SockMethods.

(** *** [read_http_res] only consumes *)

Lemma consumed_refl f : consumed f f.
Proof.
  split; [exists []; reflexivity|]. destruct f; reflexivity.
Qed.

Lemma consumed_trans f1 f2 f3 :
  consumed f1 f2 -> consumed f2 f3 -> consumed f1 f3.
Proof.
  intros [(o1 & H1) E1] [(o2 & H2) E2]. split.
  - exists (o1 ++ o2). rewrite H1, H2, app_assoc. reflexivity.
  - rewrite E2, E1. reflexivity.
Qed.

Lemma rec_consumed_preorder : preorder rec_consumed.
Proof.
  split.
  - intros r. apply consumed_refl.
  - intros r1 r2 r3. apply consumed_trans.
Qed.

Lemma sock_readline_consumes n f : consumed f (snd (sock_readline n f)).
Proof.
  unfold sock_readline. destruct (closed f); [apply consumed_refl|].
  destruct (take_line (if (n <? 0)%Z then None else Some (Z.to_nat n)) (pending f))
    as [[line rest] done] eqn:E.
  apply take_line_split in E.
  assert (H : consumed f (with_pending rest f)).
  { split; [exists line; exact E | reflexivity]. }
  destruct (done || at_eof f); [exact H|].
  unfold starved. cbn [timeout with_pending].
  destruct (timeout f) as [d|]; [destruct (d =? 0)%Z|]; exact H.
Qed.

Lemma sock_read_consumes n f : consumed f (snd (sock_read n f)).
Proof.
  unfold sock_read. destruct (closed f); [apply consumed_refl|].
  assert (Hall : consumed f (with_pending [] f)).
  { split; [exists (pending f); cbn; rewrite app_nil_r; reflexivity
           | reflexivity]. }
  destruct (n <? 0)%Z.
  - destruct (at_eof f); [exact Hall|].
    unfold starved. cbn [timeout with_pending].
    destruct (timeout f) as [d|]; [destruct (d =? 0)%Z|]; exact Hall.
  - destruct (pending f) as [|b p] eqn:Hp.
    + destruct ((n =? 0)%Z || at_eof f); [apply consumed_refl|].
      unfold starved. destruct (timeout f) as [d|]; [destruct (d =? 0)%Z|];
        apply consumed_refl.
    + cbn [snd]. split; [|reflexivity]. cbn [pending with_pending].
      exists (firstn (Z.to_nat n) (b :: p)). rewrite Hp.
      symmetry. apply firstn_skipn.
Qed.

Lemma on_fp_consumes {A} (m : M sockfile A) :
  (forall f, consumed f (snd (m f))) -> keeps rec_consumed (on_fp m).
Proof.
  intros H r. unfold on_fp, rec_consumed. specialize (H (fp r)).
  destruct (m (fp r)) as [o f']. exact H.
Qed.

Lemma record_consumes v : keeps rec_consumed (record v).
Proof. intros r. destruct v; apply consumed_refl. Qed.

Lemma rec_readline_consumes n : keeps rec_consumed (rec_readline n).
Proof.
  unfold rec_readline. apply keeps_bind.
  - exact rec_consumed_preorder.
  - apply on_fp_consumes, sock_readline_consumes.
  - intros v. apply record_consumes.
Qed.

Lemma rec_read_consumes n : keeps rec_consumed (rec_read n).
Proof.
  unfold rec_read. apply keeps_bind.
  - exact rec_consumed_preorder.
  - apply on_fp_consumes, sock_read_consumes.
  - intros v. apply record_consumes.
Qed.

Lemma keeps_with_turns {S A} (R : S -> S -> Prop) (turns : S -> nat)
    (loop : nat -> M S A) :
  (forall n, keeps R (loop n)) -> keeps R (with_turns turns loop).
Proof. intros H s. unfold with_turns. apply H. Qed.

Lemma keeps_out_of_fuel {S A} (R : S -> S -> Prop) :
  preorder R -> keeps R (@out_of_fuel S A).
Proof. intros [Hr _] s. apply Hr. Qed.

Create HintDb consumes.

#[local] Hint Resolve rec_readline_consumes rec_read_consumes : consumes.

Ltac consumes :=
  repeat first
    [ apply keeps_ret; exact rec_consumed_preorder
    | apply keeps_raise; exact rec_consumed_preorder
    | apply keeps_gets; exact rec_consumed_preorder
    | apply keeps_out_of_fuel; exact rec_consumed_preorder
    | solve [auto with consumes]
    | apply keeps_try_except; [exact rec_consumed_preorder | |]
    | apply keeps_with_turns; intros ?
    | apply keeps_bind; [exact rec_consumed_preorder | | intros ?]
    | match goal with
      | |- keeps _ (if ?c then _ else _) => destruct c
      | |- keeps _ (match ?x with _ => _ end) => destruct x
      | |- keeps _ (let (_, _) := ?x in _) => destruct x
      end ].

Lemma read_status_consumes : keeps rec_consumed (_read_status rec_readline).
Proof. unfold _read_status. consumes. Qed.

#[local] Hint Resolve read_status_consumes : consumes.

Lemma read_header_lines_consumes room :
  forall headers,
    keeps rec_consumed (read_header_lines rec_readline room headers).
Proof.
  induction room as [|room IH]; intros headers;
    rewrite read_header_lines_eq; consumes.
Qed.

Lemma read_headers_consumes : keeps rec_consumed (_read_headers rec_readline).
Proof. apply read_header_lines_consumes. Qed.

#[local] Hint Resolve read_headers_consumes : consumes.

Lemma read_final_status_consumes turns :
  keeps rec_consumed (read_final_status rec_readline turns).
Proof. induction turns as [|turns IH]; cbn [read_final_status]; consumes. Qed.

#[local] Hint Resolve read_final_status_consumes : consumes.

Lemma begin_consumes : keeps rec_consumed (begin rec_readline turns_of).
Proof. unfold begin, parse_headers. consumes. Qed.

Lemma safe_read_consumes n : keeps rec_consumed (_safe_read rec_read n).
Proof. unfold _safe_read. consumes. Qed.

Lemma next_chunk_size_consumes :
  keeps rec_consumed (_read_next_chunk_size rec_readline).
Proof. unfold _read_next_chunk_size. consumes. Qed.

Lemma discard_trailer_consumes turns :
  keeps rec_consumed (_read_and_discard_trailer rec_readline turns).
Proof.
  induction turns as [|turns IH]; cbn [_read_and_discard_trailer]; consumes.
Qed.

#[local] Hint Resolve safe_read_consumes next_chunk_size_consumes
  discard_trailer_consumes : consumes.

Lemma get_chunk_left_consumes cl :
  keeps rec_consumed (_get_chunk_left rec_readline rec_read turns_of cl).
Proof. unfold _get_chunk_left. consumes. Qed.

#[local] Hint Resolve get_chunk_left_consumes : consumes.

Lemma read_chunked_consumes turns :
  forall cl value,
    keeps rec_consumed
      (_read_chunked rec_readline rec_read turns_of turns cl value).
Proof.
  induction turns as [|turns IH]; intros cl value; cbn [_read_chunked];
    consumes.
Qed.

#[local] Hint Resolve read_chunked_consumes begin_consumes : consumes.

Lemma response_read_consumes resp :
  keeps rec_consumed (HttpClient.read rec_readline rec_read turns_of resp).
Proof. unfold HttpClient.read. consumes. Qed.

#[local] Hint Resolve response_read_consumes : consumes.

Lemma read_http_res_only_consumes w :
  only_consumes w (snd (read_http_res w)).
Proof.
  unfold read_http_res.
  assert (H : keeps rec_consumed
                (resp <- begin rec_readline turns_of ;;
                 HttpClient.read rec_readline rec_read turns_of resp ;;
                 gets recorded)) by consumes.
  specialize (H (mkRec (_obj w) [])).
  destruct ((resp <- begin rec_readline turns_of ;;
             HttpClient.read rec_readline rec_read turns_of resp ;;
             gets recorded) (mkRec (_obj w) [])) as [o r'].
  cbn [snd] in *. unfold rec_consumed in H. cbn [fp] in H.
  split; [exact H | split; reflexivity].
Qed.

(** *** One response after another *)

Lemma respond_wf m rest e t h l rec :
  well_formed m = true ->
  within_limits m = true ->
  expects_body m = true ->
  (resp <- begin rec_readline turns_of ;;
   HttpClient.read rec_readline rec_read turns_of resp ;;
   gets recorded)
    (mkRec (mkSock (render m ++ rest) e false t h l) rec)
  = (Ret (rec ++ render m),
     mkRec (mkSock rest e false t h l) (rec ++ render m)).
Proof.
  unfold well_formed, within_limits. intros Hwf Hlim Hexp.
  apply andb_true_iff in Hwf. destruct Hwf as [Hwf Hfr].
  apply andb_true_iff in Hlim. destruct Hlim as [Hlim Hblim].
  pose proof (wf_head_intro m Hwf Hlim) as Hhead.
  unfold render. rewrite <- app_assoc.
  destruct (body m) as [content | cs z x tr] eqn:Hbody.
  - destruct (head_length_fixed m content Hbody Hfr Hexp) as (H100 & Hch & Hlen).
    erewrite bind_Ret by (apply begin_wf; assumption).
    unfold HttpClient.read. cbn [chunked length_]. rewrite Hch, Hlen.
    cbn [render_body].
    erewrite bind_Ret by apply safe_read_exact.
    unfold gets. cbn [recorded]. rewrite <- !app_assoc. reflexivity.
  - unfold framing_syntax in Hfr. rewrite Hbody in Hfr.
    repeat (apply andb_true_iff in Hfr; destruct Hfr as [Hfr ?]).
    rename Hfr into Hch, H into Htr, H0 into Hx, H1 into Hz, H2 into Hne,
      H3 into Hcs.
    repeat (apply andb_true_iff in Hblim; destruct Hblim as [Hblim ?]).
    rename Hblim into Hcfit, H into Htfit, H0 into Hzfit.
    unfold expects_body in Hexp. rewrite Hbody in Hexp.
    apply negb_true_iff in Hexp. apply Z.eqb_neq in Hexp.
    erewrite bind_Ret by (apply begin_wf; assumption).
    unfold HttpClient.read. cbn [chunked]. rewrite Hch.
    pose proof (read_chunked_wf e t h l rest z x tr) as Hloop.
    assert (Hzne : z <> []) by (destruct z; discriminate).
    assert (Htr' : forallb wf_field tr = true)
      by (unfold wf_field; apply forallb_both; assumption).
    assert (Hcs' : forallb wf_chunk cs = true)
      by (unfold wf_chunk; apply forallb_both; assumption).
    specialize (Hloop Hzne Hz Hx Hzfit Htr' cs).
    erewrite bind_Ret.
    2:{ unfold with_turns, turns_of. cbn [fp pending].
        apply (Hloop _ None [] [] (rec ++ render_head m) at_start Hcs').
        cbn [app render_body]. repeat rewrite length_app.
        pose proof (concat_map_length render_chunk cs render_chunk_length).
        lia. }
    unfold gets. cbn [recorded app]. rewrite <- !app_assoc. reflexivity.
Qed.

Lemma read_http_res_twice m1 m2 rest e t h l ad c :
  well_formed_response m1 = true -> within_limits m1 = true ->
  well_formed_response m2 = true -> within_limits m2 = true ->
  (first <- read_http_res ;;
   second <- read_http_res ;;
   ret (first, second))
    (mkFlush (mkSock (render m1 ++ render m2 ++ rest) e false t h l) ad c)
  = (Ret (render m1, render m2), mkFlush (mkSock rest e false t h l) ad c).
Proof.
  intros Hw1 Hl1 Hw2 Hl2.
  destruct (response_expects_body m1 Hw1) as [Hs1 He1].
  destruct (response_expects_body m2 Hw2) as [Hs2 He2].
  rewrite (bind_Ret _ _ _ _ _
             (read_http_res_wf m1 (render m2 ++ rest) e t h l ad c Hs1 Hl1 He1)).
  rewrite (bind_Ret _ _ _ _ _
             (read_http_res_wf m2 rest e t h l ad c Hs2 Hl2 He2)).
  reflexivity.
Qed.

(** *** Interim responses *)

Lemma interim_parts m :
  interim m = true ->
  status_syntax m = true
  /\ fits (render_status_line m) = true
  /\ forallb wf_field (fields m) = true
  /\ (length (fields m) < _MAXHEADERS)%nat
  /\ digits_value 10 (code m) = 100%Z.
Proof.
  unfold interim. intros H.
  apply andb_true_iff in H. destruct H as [H H100].
  apply andb_true_iff in H. destruct H as [Hwf Hlim].
  apply Z.eqb_eq in H100.
  pose proof (wf_head_intro m Hwf Hlim) as Hhead. unfold wf_head in Hhead.
  apply andb_true_iff in Hhead. destruct Hhead as [Hhead Hcount].
  apply andb_true_iff in Hhead. destruct Hhead as [Hhead Hfs].
  apply andb_true_iff in Hhead. destruct Hhead as [Hst Hfit].
  apply Nat.ltb_lt in Hcount. auto.
Qed.

Lemma render_head_nonempty m : (1 <= length (render_head m))%nat.
Proof.
  unfold render_head, render_status_line. repeat rewrite length_app.
  cbn [length]. lia.
Qed.

Lemma read_final_status_skips e t h l m tail :
  status_syntax m = true ->
  fits (render_status_line m) = true ->
  digits_value 10 (code m) <> 100%Z ->
  forall ms turns rec,
  forallb interim ms = true ->
  (length ms < turns)%nat ->
  read_final_status rec_readline turns
    (mkRec (mkSock (concat (map render_head ms)
                    ++ render_status_line m ++ tail) e false t h l) rec)
  = (Ret (version m, digits_value 10 (code m)),
     mkRec (mkSock tail e false t h l)
       (rec ++ concat (map render_head ms) ++ render_status_line m)).
Proof.
  intros Hst Hfit Hfinal. induction ms as [|m0 ms IH]; intros turns rec Hms Hturns.
  - destruct turns as [|k]; [cbn in Hturns; lia|].
    cbn [read_final_status map concat app].
    erewrite bind_Ret by (apply read_status_wf; assumption).
    cbn [snd]. destruct (Z.eqb_spec (digits_value 10 (code m)) 100);
      [contradiction|]. reflexivity.
  - cbn [forallb] in Hms. apply andb_true_iff in Hms. destruct Hms as [Hm0 Hms].
    destruct (interim_parts m0 Hm0) as (Hst0 & Hfit0 & Hfs0 & Hcount0 & H100).
    destruct turns as [|k]; [cbn in Hturns; lia|].
    cbn [length] in Hturns.
    cbn [read_final_status map concat].
    rewrite <- app_assoc. rewrite render_head_split.
    erewrite bind_Ret by (apply read_status_wf; assumption).
    cbn [snd]. rewrite H100. cbn [Z.eqb Pos.eqb].
    unfold _read_headers.
    erewrite bind_Ret by (apply read_header_lines_wf; assumption).
    rewrite IH by (assumption || lia).
    f_equal. f_equal. unfold render_head. rewrite <- !app_assoc. reflexivity.
Qed.

Lemma length_concat_heads ms :
  (length ms <= length (concat (map render_head ms)))%nat.
Proof.
  induction ms as [|m ms IH]; cbn [map concat length]; [lia|].
  rewrite length_app. pose proof (render_head_nonempty m). lia.
Qed.

Lemma begin_skips_interim e t h l rec ms m rest :
  forallb interim ms = true ->
  wf_head m = true ->
  digits_value 10 (code m) <> 100%Z ->
  begin rec_readline turns_of
    (mkRec (mkSock (concat (map render_head ms) ++ render_head m ++ rest)
              e false t h l) rec)
  = begin rec_readline turns_of
      (mkRec (mkSock (render_head m ++ rest) e false t h l)
         (rec ++ concat (map render_head ms))).
Proof.
  intros Hms Hhead Hfinal.
  pose proof Hhead as Hh. unfold wf_head in Hh.
  apply andb_true_iff in Hh. destruct Hh as [Hh _].
  apply andb_true_iff in Hh. destruct Hh as [Hh _].
  apply andb_true_iff in Hh. destruct Hh as [Hst Hfit].
  rewrite !render_head_split.
  unfold begin.
  erewrite bind_Ret.
  2:{ unfold with_turns, turns_of. cbn [fp pending].
      apply (read_final_status_skips e t h l m _ Hst Hfit Hfinal ms);
        [exact Hms|].
      rewrite length_app. pose proof (length_concat_heads ms). lia. }
  symmetry.
  erewrite bind_Ret.
  2:{ unfold with_turns, turns_of. cbn [fp pending].
      apply (read_final_status_skips e t h l m _ Hst Hfit Hfinal []);
        [reflexivity | cbn; lia]. }
  cbn [map concat app]. repeat rewrite <- app_assoc. reflexivity.
Qed.

Lemma read_http_res_interim ms m rest e t h l ad c :
  forallb interim ms = true ->
  well_formed_response m = true ->
  within_limits m = true ->
  read_http_res
    (mkFlush (mkSock (concat (map render_head ms) ++ render m ++ rest)
                e false t h l) ad c)
  = (Ret (concat (map render_head ms) ++ render m),
     mkFlush (mkSock rest e false t h l) ad c).
Proof.
  intros Hms Hw Hlim.
  destruct (response_expects_body m Hw) as [Hs He].
  pose proof Hs as Hs'. unfold well_formed in Hs'.
  apply andb_true_iff in Hs'. destruct Hs' as [Hwf _].
  pose proof Hlim as Hlim'. unfold within_limits in Hlim'.
  apply andb_true_iff in Hlim'. destruct Hlim' as [Hhl _].
  pose proof (wf_head_intro m Hwf Hhl) as Hhead.
  assert (Hfinal : digits_value 10 (code m) <> 100%Z).
  { unfold well_formed_response in Hw. apply andb_true_iff in Hw.
    destruct Hw as [_ Hb]. apply negb_true_iff in Hb. unfold bodiless in Hb.
    intros E. rewrite E in Hb. discriminate. }
  pose proof (respond_wf m rest e t h l (concat (map render_head ms)) Hs Hlim He)
    as Hr.
  unfold read_http_res. cbn [_obj _auto_drain _closed].
  unfold render at 1. rewrite <- app_assoc.
  assert (Hpipe :
    (resp <- begin rec_readline turns_of ;;
     HttpClient.read rec_readline rec_read turns_of resp ;;
     gets recorded)
      (mkRec (mkSock (concat (map render_head ms)
                      ++ render_head m ++ render_body (body m) ++ rest)
                e false t h l) [])
    = (Ret (concat (map render_head ms) ++ render m),
       mkRec (mkSock rest e false t h l)
         (concat (map render_head ms) ++ render m))).
  { unfold bind at 1.
    rewrite (begin_skips_interim e t h l [] ms m _ Hms Hhead Hfinal).
    cbn [app]. unfold render in Hr. rewrite <- app_assoc in Hr.
    unfold bind at 1 in Hr. exact Hr. }
  rewrite Hpipe. reflexivity.
Qed.

(** *** A stream that does not start with a status line *)

Lemma startswith_takewhile q pre : forall s,
  startswith pre (takewhile q s) = true -> startswith pre s = true.
Proof.
  induction pre as [|x pre IH]; intros s H; [reflexivity|].
  destruct s as [|y s]; [discriminate|]. cbn [takewhile] in H.
  destruct (q y); [|discriminate]. cbn [startswith] in *.
  apply andb_true_iff in H. destruct H as [Hx H].
  rewrite Hx. cbn. apply IH. exact H.
Qed.

Lemma split_status_version pre line :
  pre <> [] ->
  startswith pre (lstrip str_isspace line) = false ->
  startswith pre (fst (split_status line)) = false.
Proof.
  intros Hpre H. unfold split_status.
  assert (Hnil : startswith pre [] = false)
    by (destruct pre; [congruence | reflexivity]).
  assert (Htw : startswith pre
                  (takewhile (fun b => negb (str_isspace b))
                     (lstrip str_isspace line)) = false).
  { destruct (startswith pre
                (takewhile (fun b => negb (str_isspace b))
                   (lstrip str_isspace line))) eqn:E; [|reflexivity].
    apply startswith_takewhile in E. congruence. }
  destruct (lstrip str_isspace
              (dropwhile (fun b => negb (str_isspace b))
                 (lstrip str_isspace line))) as [|b s2]; [exact Hnil|].
  destruct (lstrip str_isspace
              (dropwhile (fun b0 => negb (str_isspace b0)) (b :: s2)));
    exact Htw.
Qed.

Lemma read_http_res_no_status_line p e t h l ad c line rest done :
  next_line p = (line, rest, done) ->
  done || e = true ->
  fits line = true ->
  startswith (lit "HTTP/") (lstrip str_isspace line) = false ->
  read_http_res (mkFlush (mkSock p e false t h l) ad c)
  = (Exc (match line with [] => RemoteDisconnected | _ => BadStatusLine end),
     mkFlush (mkSock rest e false t h l) ad c).
Proof.
  intros Hline Hdone Hfit Hstart.
  unfold read_http_res. cbn [_obj _auto_drain _closed].
  assert (Hst : _read_status rec_readline (mkRec (mkSock p e false t h l) [])
                = (Exc (match line with
                        | [] => RemoteDisconnected
                        | _ => BadStatusLine
                        end),
                   mkRec (mkSock rest e false t h l) ([] ++ line))).
  { unfold _read_status.
    rewrite (bind_Ret _ _ _ _ _
               (rec_readline_next p e t h l [] line rest done Hline Hdone)).
    unfold fits in Hfit. apply Z.leb_le in Hfit.
    destruct (Z.gtb_spec (len line) _MAXLINE) as [Hgt|_]; [lia|].
    destruct line as [|b line']; [reflexivity|].
    pose proof (split_status_version (lit "HTTP/") (b :: line')
                  ltac:(discriminate) Hstart) as Hv.
    destruct (split_status (b :: line')) as [version text]. cbn [fst] in Hv.
    rewrite Hv. reflexivity. }
  assert (Hbegin : begin rec_readline turns_of (mkRec (mkSock p e false t h l) [])
                   = (Exc (match line with
                           | [] => RemoteDisconnected
                           | _ => BadStatusLine
                           end),
                      mkRec (mkSock rest e false t h l) ([] ++ line))).
  { unfold begin. apply bind_Exc.
    unfold with_turns, turns_of. cbn [read_final_status].
    apply bind_Exc. exact Hst. }
  rewrite (bind_Exc _ _ _ _ _ Hbegin). reflexivity.
Qed.

Lemma read_http_res_nothing_pending e t h l ad c :
  let w := mkFlush (mkSock [] e false t h l) ad c in
  (e = true -> read_http_res w = (Exc RemoteDisconnected, w))
  /\ (e = false -> t = None -> read_http_res w = (Hang, w))
  /\ (e = false -> forall d, t = Some d -> d <> 0%Z ->
      read_http_res w = (Exc TimeoutError, w)).
Proof.
  intros w. subst w. repeat split.
  - intros ->.
    apply (read_http_res_no_status_line [] true t h l ad c [] [] false);
      vm_compute; reflexivity.
  - intros -> ->. unfold read_http_res. cbn [_obj _auto_drain _closed].
    assert (Hl : rec_readline (_MAXLINE + 1) (mkRec (mkSock [] false false None h l) [])
                 = (Hang, mkRec (mkSock [] false false None h l) [])).
    { unfold rec_readline, bind, on_fp, sock_readline.
      cbn [fp closed pending at_eof].
      replace (take_line _ []) with (([] : bytes), ([] : bytes), false)
        by (vm_compute; reflexivity).
      reflexivity. }
    unfold begin, with_turns, turns_of. cbn [fp pending length read_final_status].
    unfold _read_status. unfold bind at 1 2 3 4. rewrite Hl. reflexivity.
  - intros -> d -> Hd. unfold read_http_res. cbn [_obj _auto_drain _closed].
    apply Z.eqb_neq in Hd.
    assert (Hl : rec_readline (_MAXLINE + 1)
                   (mkRec (mkSock [] false false (Some d) h l) [])
                 = (Exc TimeoutError,
                    mkRec (mkSock [] false false (Some d) h l) [])).
    { unfold rec_readline, bind, on_fp, sock_readline.
      cbn [fp closed pending at_eof].
      replace (take_line _ []) with (([] : bytes), ([] : bytes), false)
        by (vm_compute; reflexivity).
      cbn. rewrite Hd. reflexivity. }
    unfold begin, with_turns, turns_of. cbn [fp pending length read_final_status].
    unfold _read_status. unfold bind at 1 2 3 4. rewrite Hl. reflexivity.
Qed.

(** *** A [Content-Length] that is no length *)

Lemma read_http_res_length_ignored m v rest t h l ad c :
  well_formed_head m = true ->
  head_within_limits m = true ->
  bodiless (digits_value 10 (code m)) = false ->
  says_chunked (fields m) = false ->
  get (lit "content-length") (pairs (fields m)) = Some v ->
  match py_int int_str_space 10 v with
  | Some n => (n <? 0)%Z
  | None => true
  end = true ->
  read_http_res (mkFlush (mkSock (render_head m ++ rest) true false t h l) ad c)
  = (Ret (render_head m ++ rest), mkFlush (mkSock [] true false t h l) ad c).
Proof.
  intros Hwf Hlim Hbl Hch Hget Hv.
  pose proof (wf_head_intro m Hwf Hlim) as Hhead.
  assert (H100 : digits_value 10 (code m) <> 100%Z).
  { intros E. unfold bodiless in Hbl. rewrite E in Hbl. discriminate. }
  assert (Hlen : head_length m = None).
  { unfold head_length. rewrite Hbl, Hch, Hget.
    destruct v as [|b v']; [reflexivity|].
    destruct (py_int int_str_space 10 (b :: v')) as [n|]; [|reflexivity].
    rewrite Hv. reflexivity. }
  assert (Hbegin := begin_wf true t h l [] m rest Hhead H100).
  rewrite Hch, Hlen in Hbegin. cbn [app] in Hbegin.
  unfold read_http_res. cbn [_obj _auto_drain _closed].
  erewrite bind_Ret by exact Hbegin.
  unfold HttpClient.read. cbn [chunked length_].
  erewrite bind_Ret by (apply rec_read_all; lia).
  reflexivity.
Qed.

(** *** The shape of what [read] and [readline] return *)

Lemma take_line_shape : forall s cap line rest done,
  take_line cap s = (line, rest, done) ->
  (exists content,
      no_LF content = true /\ (line = content \/ line = content ++ [LF]))
  /\ match cap with Some n => (length line <= n)%nat | None => True end.
Proof.
  induction s as [|b s IH]; intros cap line rest done H.
  - destruct cap as [[|n]|]; inversion H; subst;
      (split; [exists []; auto | cbn; try lia; exact I]).
  - destruct cap as [[|n]|]; cbn [take_line] in H.
    + inversion H; subst. split; [exists []; auto | cbn; lia].
    + destruct (Byte.eqb b LF) eqn:Eb.
      * inversion H; subst. apply Byte.byte_dec_bl in Eb. subst b.
        split; [exists []; split; [reflexivity | right; reflexivity]
               | cbn; lia].
      * cbn [option_map pred] in H.
        destruct (take_line (Some n) s) as [[l0 r0] d0] eqn:E.
        inversion H; subst.
        destruct (IH _ _ _ _ E) as [(content & Hc & Hl) Hn].
        split.
        -- exists (b :: content). split.
           ++ unfold no_LF in *. cbn [forallb]. rewrite Eb, Hc. reflexivity.
           ++ destruct Hl as [-> | ->]; [left | right]; reflexivity.
        -- cbn [length]. lia.
    + destruct (Byte.eqb b LF) eqn:Eb.
      * inversion H; subst. apply Byte.byte_dec_bl in Eb. subst b.
        split; [exists []; split; [reflexivity | right; reflexivity]
               | exact I].
      * cbn [option_map] in H.
        destruct (take_line None s) as [[l0 r0] d0] eqn:E.
        inversion H; subst.
        destruct (IH _ _ _ _ E) as [(content & Hc & Hl) _].
        split; [|exact I].
        exists (b :: content). split.
        -- unfold no_LF in *. cbn [forallb]. rewrite Eb, Hc. reflexivity.
        -- destruct Hl as [-> | ->]; [left | right]; reflexivity.
Qed.

Lemma readline_shape limit w v w' :
  Sock.readline limit w = (Ret v, w') ->
  exists line content,
    v = PBytes line
    /\ pending (_obj w) = line ++ pending (_obj w')
    /\ w' = mkFlush (with_pending (pending (_obj w')) (_obj w))
              (_auto_drain w) (_closed w)
    /\ no_LF content = true
    /\ (line = content \/ line = content ++ [LF])
    /\ ((0 <= limit)%Z -> (len line <= limit)%Z).
Proof.
  unfold Sock.readline, on_obj. intros H.
  destruct (sock_readline limit (_obj w)) as [o f'] eqn:E.
  inversion H; subst. clear H.
  unfold sock_readline in E.
  destruct (closed (_obj w)); [discriminate|].
  destruct (take_line (if (limit <? 0)%Z then None else Some (Z.to_nat limit))
              (pending (_obj w))) as [[line rest] done] eqn:Et.
  pose proof (take_line_split _ _ _ _ _ Et) as Hsplit.
  destruct (take_line_shape _ _ _ _ _ Et) as [(content & Hc & Hl) Hcap].
  assert (Hres : v = PBytes line /\ f' = with_pending rest (_obj w)).
  { destruct (done || at_eof (_obj w)).
    - inversion E. auto.
    - unfold starved in E. cbn [timeout with_pending] in E.
      destruct (timeout (_obj w)) as [d|]; [destruct (d =? 0)%Z|];
        inversion E; auto. }
  destruct Hres as [Ho Hf]. subst v f'.
  exists line, content. cbn [_obj pending with_pending].
  repeat split; auto.
  intros Hlim. destruct (Z.ltb_spec limit 0) as [Hneg|_]; [lia|].
  unfold len. lia.
Qed.

Lemma read_shape n w out w' :
  Sock.read n w = (Ret (PBytes out), w') ->
  pending (_obj w) = out ++ pending (_obj w')
  /\ w' = mkFlush (with_pending (pending (_obj w')) (_obj w))
            (_auto_drain w) (_closed w)
  /\ ((0 <= n)%Z -> (len out <= n)%Z).
Proof.
  unfold Sock.read, on_obj. intros H.
  destruct (sock_read n (_obj w)) as [o f'] eqn:E.
  inversion H; subst. clear H.
  pose proof (sock_read_Ret _ _ _ _ E) as (Hc & Hf & Hp).
  cbn [_obj]. split; [exact Hp|]. split; [rewrite Hf at 1; reflexivity|].
  intros Hn. unfold sock_read in E. rewrite Hc in E.
  destruct (Z.ltb_spec n 0) as [Hneg|_]; [lia|].
  destruct (pending (_obj w)) as [|b p].
  - destruct ((n =? 0)%Z || at_eof (_obj w)).
    + inversion E. unfold len. cbn. lia.
    + unfold starved in E.
      destruct (timeout (_obj w)) as [d|]; [destruct (d =? 0)%Z|];
        discriminate.
  - inversion E. unfold len. rewrite length_firstn. lia.
Qed.

(** *** Scopes and finalisers *)

Lemma sock_close_ends w :
  exists w', close w = (Ret tt, w') /\ _closed w' = true
             /\ (_closed w = false -> closed (_obj w') = true).
Proof.
  destruct (_closed w) eqn:Hc.
  - exists w. rewrite (sock_closed_close w Hc). repeat split; auto.
    discriminate.
  - eexists. rewrite (sock_close_spec w Hc). repeat split.
Qed.

Lemma sock_with_closes {A} (body : M FlushProxy A) w o w1 :
  body w = (o, w1) ->
  o <> Hang -> o <> Fuel ->
  exists w2,
    SockMethods.with_ body w = (o, w2)
    /\ _closed w2 = true
    /\ (_closed w1 = false -> closed (_obj w2) = true).
Proof.
  intros Hb Hh Hf.
  unfold SockMethods.with_, SockMethods.__enter__, SockMethods.__exit__.
  unfold bind at 1. cbn [ret]. unfold try_finally. rewrite Hb.
  destruct (sock_close_ends w1) as (w2 & Hcl & Hc2 & Hfile). exists w2.
  destruct o as [a|e| |]; try congruence;
    unfold bind; rewrite Hcl; auto.
Qed.

Lemma sock_del_returns w :
  exists w', SockMethods.__del__ w = (Ret tt, w') /\ _closed w' = true.
Proof.
  destruct (sock_close_ends w) as (w' & Hcl & Hc & _). exists w'.
  unfold SockMethods.__del__, try_except. rewrite Hcl. auto.
Qed.

End SockMethodFacts.

(** ** Starting a child *)

Module SpawnFacts.
Import MonadFacts Proc Spawn.

Lemma all_to_bytes_length : forall args bs,
  all_to_bytes args = Some bs -> length bs = length args.
Proof.
  induction args as [|a args IH]; intros bs H; cbn in H.
  - inversion H. reflexivity.
  - destruct (_to_bytes a); [|discriminate].
    destruct (all_to_bytes args) as [bs'|]; [|discriminate].
    inversion H. cbn. f_equal. apply IH. reflexivity.
Qed.

(** *** [basename] *)

Lemma takewhile_dropwhile (q : byte -> bool) : forall s,
  takewhile q s ++ dropwhile q s = s.
Proof.
  induction s as [|b s IH]; [reflexivity|]. cbn.
  destruct (q b); [cbn; rewrite IH|]; reflexivity.
Qed.

Lemma takewhile_forall (q : byte -> bool) : forall s,
  forallb q (takewhile q s) = true.
Proof.
  induction s as [|b s IH]; [reflexivity|]. cbn.
  destruct (q b) eqn:E; [cbn; rewrite E, IH|]; reflexivity.
Qed.

Lemma dropwhile_head (q : byte -> bool) : forall s b rest,
  dropwhile q s = b :: rest -> q b = false.
Proof.
  induction s as [|c s IH]; intros b rest H; [discriminate|]. cbn in H.
  destruct (q c) eqn:E; [eapply IH; eassumption|].
  inversion H; subst. exact E.
Qed.

Lemma basename_spec p :
  forallb (fun b => negb (Byte.eqb b slash)) (basename p) = true
  /\ exists dir,
       p = dir ++ basename p
       /\ (dir = [] \/ exists d, dir = d ++ [slash]).
Proof.
  unfold basename. set (q := fun b => negb (Byte.eqb b slash)).
  split.
  - rewrite HttpFacts.forallb_rev. apply takewhile_forall.
  - exists (rev (dropwhile q (rev p))). split.
    + rewrite <- rev_app_distr, takewhile_dropwhile, rev_involutive.
      reflexivity.
    + destruct (dropwhile q (rev p)) as [|b rest] eqn:E; [left; reflexivity|].
      right. exists (rev rest). cbn [rev]. f_equal. f_equal.
      apply dropwhile_head in E. unfold q in E.
      apply negb_false_iff in E. apply Byte.byte_dec_bl in E. exact E.
Qed.

Lemma basename_plain p :
  forallb (fun b => negb (Byte.eqb b slash)) p = true -> basename p = p.
Proof.
  intros H. unfold basename.
  rewrite <- (rev_involutive p) at 2. f_equal.
  rewrite <- HttpFacts.forallb_rev in H.
  induction (rev p) as [|b s IH]; [reflexivity|]. cbn in H |- *.
  apply andb_true_iff in H. destruct H as [Hb Hs]. rewrite Hb, IH; auto.
Qed.

(** *** What [ex] asks for *)

Lemma ex_starts path args argv0 env auto_drain o bin_path first rest
    p stdin stdout stderr :
  _to_bytes path = Some bin_path ->
  match argv0 with
  | Some a => _to_bytes a
  | None => Some (basename bin_path)
  end = Some first ->
  all_to_bytes args = Some rest ->
  Popen o (mkLaunch (Argv (first :: rest)) (Some bin_path) false
             (env_or_environ env o))
  = Started p stdin stdout stderr ->
  ex path args argv0 env auto_drain o
  = (Proxy (fresh p stdin stdout stderr auto_drain),
     mkOs (environ o) (Popen o)
       (started o
        ++ [mkLaunch (Argv (first :: rest)) (Some bin_path) false
              (env_or_environ env o)])).
Proof.
  intros Hpath Hfirst Hrest Hp. unfold ex. rewrite Hpath.
  assert (Hall : all_to_bytes
                   (match argv0 with
                    | Some a => a
                    | None => Bytes (basename bin_path)
                    end :: args) = Some (first :: rest)).
  { cbn [all_to_bytes]. destruct argv0 as [a|]; cbn [_to_bytes].
    - rewrite Hfirst, Hrest. reflexivity.
    - inversion Hfirst; subst. rewrite Hrest. reflexivity. }
  rewrite Hall. unfold spawn. rewrite Hp. reflexivity.
Qed.

Lemma wine_exec_starts path args env auto_drain o bin_path rest
    p stdin stdout stderr :
  _to_bytes path = Some bin_path ->
  all_to_bytes args = Some rest ->
  Popen o (mkLaunch (Argv (lit "wine" :: bin_path :: rest)) (Some (lit "wine"))
             false (env_or_environ env o))
  = Started p stdin stdout stderr ->
  wine_exec path args env auto_drain o
  = (Proxy (fresh p stdin stdout stderr auto_drain),
     mkOs (environ o) (Popen o)
       (started o
        ++ [mkLaunch (Argv (lit "wine" :: bin_path :: rest))
              (Some (lit "wine")) false (env_or_environ env o)])).
Proof.
  intros Hpath Hrest Hp. unfold wine_exec.
  apply (ex_starts _ _ None env auto_drain o (lit "wine") (lit "wine")
           (bin_path :: rest) p stdin stdout stderr).
  - reflexivity.
  - reflexivity.
  - cbn [all_to_bytes]. rewrite Hpath, Hrest. reflexivity.
  - exact Hp.
Qed.

(** *** Null bytes *)

Lemma sh_nul cmd env auto_drain o :
  refuses_nul o ->
  env_legal (env_or_environ env o) = true ->
  existsb (N.eqb 0) cmd = true ->
  sh cmd env auto_drain o = (ProcessError, o).
Proof.
  intros Hos Henv Hnul. unfold sh, spawn.
  rewrite (Hos (mkLaunch (Shell cmd) None true (env_or_environ env o)) Henv);
    [reflexivity|].
  unfold nul_in. cbn. rewrite Hnul. reflexivity.
Qed.

Lemma ex_nul path args argv0 env auto_drain o bin_path first rest :
  refuses_nul o ->
  env_legal (env_or_environ env o) = true ->
  _to_bytes path = Some bin_path ->
  match argv0 with
  | Some a => _to_bytes a
  | None => Some (basename bin_path)
  end = Some first ->
  all_to_bytes args = Some rest ->
  existsb has_nul (bin_path :: first :: rest) = true ->
  ex path args argv0 env auto_drain o = (ProcessError, o).
Proof.
  intros Hos Henv Hpath Hfirst Hrest Hnul. unfold ex. rewrite Hpath.
  assert (Hall : all_to_bytes
                   (match argv0 with
                    | Some a => a
                    | None => Bytes (basename bin_path)
                    end :: args) = Some (first :: rest)).
  { cbn [all_to_bytes]. destruct argv0 as [a|]; cbn [_to_bytes].
    - rewrite Hfirst, Hrest. reflexivity.
    - inversion Hfirst; subst. rewrite Hrest. reflexivity. }
  rewrite Hall. unfold spawn.
  rewrite (Hos (mkLaunch (Argv (first :: rest)) (Some bin_path) false
                  (env_or_environ env o)) Henv); [reflexivity|].
  unfold nul_in. cbn [l_args l_executable existsb].
  cbn [existsb] in Hnul. apply orb_true_iff in Hnul.
  destruct Hnul as [H | H]; rewrite H; [apply orb_true_r | reflexivity].
Qed.

(** *** What cannot be encoded *)

Lemma all_to_bytes_none : forall args,
  existsb (fun a => match _to_bytes a with None => true | Some _ => false end)
    args = true ->
  all_to_bytes args = None.
Proof.
  induction args as [|a args IH]; intros H; [discriminate|].
  cbn in H |- *. destruct (_to_bytes a); [|reflexivity].
  cbn in H. rewrite (IH H). reflexivity.
Qed.

Lemma ex_unencodable path args argv0 env auto_drain o :
  existsb (fun a => match _to_bytes a with None => true | Some _ => false end)
    (path :: match argv0 with Some a => [a] | None => [] end ++ args) = true ->
  ex path args argv0 env auto_drain o = (Raises UnicodeEncodeError, o).
Proof.
  intros H. unfold ex. cbn [existsb] in H.
  destruct (_to_bytes path) as [bin_path|]; [|reflexivity].
  cbn [orb] in H.
  rewrite all_to_bytes_none; [reflexivity|].
  destruct argv0 as [a|]; cbn [app existsb] in H |- *; [exact H|].
  cbn [_to_bytes orb]. exact H.
Qed.

End SpawnFacts.

(** ** Opening a socket *)

Module OpenFacts.
Import Net.

Lemma open_after_app : forall l1 l2 b,
  open_after b (l1 ++ l2) = open_after (open_after b l1) l2.
Proof.
  induction l1 as [|op l1 IH]; intros l2 b; [reflexivity|].
  destruct op; cbn; apply IH.
Qed.

(** *** [nolpy.sock.sock_open] *)

Lemma sock_open_invalid u timeout auto_drain verify n :
  port u <> BadPort ->
  hostname u = None \/ port u = NoPort ->
  Open.sock_open u timeout auto_drain verify n
  = (Open.SocketURLError InvalidURL, n).
Proof.
  intros Hbad H. unfold Open.sock_open.
  destruct (port u) as [|p|]; [reflexivity | | contradiction].
  destruct H as [-> | H]; [reflexivity | discriminate].
Qed.

Lemma sock_open_opens u timeout auto_drain verify n host p :
  hostname u = Some host ->
  port u = Port p ->
  connect_answer n = None ->
  nodelay_answer n = None ->
  (is_tls (scheme u) = true -> handshake_answer n = None) ->
  is_tls (scheme u) || is_tcp (scheme u) = true ->
  Open.sock_open u timeout auto_drain verify n
  = (Open.Opened (Sock.mkFlush (makefile timeout n) auto_drain false),
     did ([Connect host p timeout; SetNoDelay]
          ++ (if is_tls (scheme u) then [Handshake host verify] else [])
          ++ [MakeFile]) n).
Proof.
  intros Hh Hp Hc Hn Hs Hscheme. unfold Open.sock_open, Open.secure_and_wrap.
  rewrite Hp, Hh, Hc, Hn. cbn [handshake_answer did].
  destruct (is_tls (scheme u)) eqn:Et.
  - rewrite (Hs eq_refl). unfold did. cbn. rewrite <- app_assoc. reflexivity.
  - cbn in Hscheme. rewrite Hscheme. unfold did. cbn.
    rewrite <- app_assoc. reflexivity.
Qed.

Lemma sock_open_unsupported u timeout auto_drain verify n host p :
  hostname u = Some host ->
  port u = Port p ->
  connect_answer n = None ->
  nodelay_answer n = None ->
  is_tls (scheme u) || is_tcp (scheme u) = false ->
  Open.sock_open u timeout auto_drain verify n
  = (Open.SocketURLError UnsupportedScheme,
     did [Connect host p timeout; SetNoDelay; CloseSock; CloseSock] n).
Proof.
  intros Hh Hp Hc Hn Hscheme. unfold Open.sock_open, Open.secure_and_wrap.
  rewrite Hp, Hh, Hc, Hn. cbn [handshake_answer did].
  apply orb_false_iff in Hscheme. destruct Hscheme as [-> ->].
  unfold did. cbn. rewrite <- app_assoc. reflexivity.
Qed.

Lemma sock_open_leaves_none_open u timeout auto_drain verify n r n' :
  Open.sock_open u timeout auto_drain verify n = (r, n') ->
  nodelay_answer n = None ->
  (forall e, handshake_answer n = Some (Other e) -> is_Exception e = true) ->
  exists new,
    ops n' = ops n ++ new
    /\ open_after false new
       = match r with Open.Opened _ => true | _ => false end.
Proof.
  unfold Open.sock_open, Open.secure_and_wrap. intros H Hn He.
  destruct (port u) as [|p|];
    try (inversion H; subst; exists []; rewrite app_nil_r; auto; fail).
  destruct (hostname u) as [host|];
    try (inversion H; subst; exists []; rewrite app_nil_r; auto; fail).
  destruct (connect_answer n) as [e|].
  { inversion H; subst. eexists. split; [reflexivity|].
    destruct (is_OSError e); reflexivity. }
  rewrite Hn in H. cbn [scheme handshake_answer did] in H.
  destruct (is_tls (scheme u)).
  - destruct (handshake_answer n) as [[|e]|] eqn:Eh.
    + inversion H; subst. cbn [ops did]. rewrite <- app_assoc.
      eexists. split; [reflexivity|]. reflexivity.
    + rewrite (He e eq_refl) in H. inversion H; subst.
      cbn [ops did]. rewrite <- app_assoc.
      eexists. split; [reflexivity|]. reflexivity.
    + inversion H; subst. cbn [ops did]. rewrite <- app_assoc.
      eexists. split; [reflexivity|]. reflexivity.
  - destruct (is_tcp (scheme u)); cbn [negb] in H; inversion H; subst;
      cbn [ops did]; rewrite <- app_assoc;
      (eexists; split; [reflexivity|]; reflexivity).
Qed.

(** *** [pysock_url.sock_open] *)

Lemma pysock_open_invalid {A} u timeout (body : M Sock.sockfile A) n :
  port u <> BadPort ->
  hostname u = None \/ port u = NoPort \/ port u = Port 0 ->
  PysockUrl.sock_open u timeout body n
  = (PysockUrl.SocketURLError InvalidURL, (n, None)).
Proof.
  intros Hbad H. unfold PysockUrl.sock_open.
  destruct (port u) as [|p|]; [reflexivity | | contradiction].
  destruct (hostname u) as [host|]; [|reflexivity].
  destruct H as [H | [H | H]]; try discriminate.
  inversion H; subst. reflexivity.
Qed.

Lemma yield_closes {A} (body : M Sock.sockfile A) f n r n' f' :
  PysockUrl.yield_ body f n = (r, (n', f')) ->
  r <> PysockUrl.Blocked ->
  ops n' = ops n ++ [CloseFile; CloseSock]
  /\ (exists g, f' = Some g /\ Sock.closed g = true)
  /\ r = match fst (body f) with
         | Ret a => PysockUrl.Done a
         | Exc e => PysockUrl.Raises e
         | _ => PysockUrl.Blocked
         end.
Proof.
  unfold PysockUrl.yield_. intros H Hr.
  destruct (body f) as [[a|e| |] g]; inversion H; subst; try congruence;
    (split; [reflexivity|]; split; [eexists; split; reflexivity | reflexivity]).
Qed.

Lemma pysock_open_leaves_none_open {A} u timeout (body : M Sock.sockfile A)
    n r n' f' :
  PysockUrl.sock_open u timeout body n = (r, (n', f')) ->
  r <> PysockUrl.Blocked ->
  (exists new, ops n' = ops n ++ new /\ open_after false new = false)
  /\ match f' with
     | Some g => Sock.closed g = true
     | None => True
     end.
Proof.
  unfold PysockUrl.sock_open. intros H Hr.
  assert (Hnone : forall m, ops m = ops n ->
            exists new, ops m = ops n ++ new /\ open_after false new = false).
  { intros m Hm. exists []. rewrite app_nil_r. auto. }
  destruct (port u) as [|p|];
    try (inversion H; subst; split; [apply Hnone; reflexivity | exact I]).
  destruct (hostname u) as [host|];
    try (inversion H; subst; split; [apply Hnone; reflexivity | exact I]).
  destruct (p =? 0)%Z;
    try (inversion H; subst; split; [apply Hnone; reflexivity | exact I]).
  destruct (connect_answer n) as [e|].
  { inversion H; subst. split; [|exact I].
    eexists. split; [reflexivity|]. reflexivity. }
  cbn [handshake_answer did] in H.
  destruct (is_tls (scheme u)).
  - destruct (handshake_answer n) as [[|e]|] eqn:Eh.
    + inversion H; subst. split; [|exact I]. cbn [ops did].
      rewrite <- app_assoc. eexists. split; [reflexivity|]. reflexivity.
    + inversion H; subst. split; [|exact I]. cbn [ops did].
      rewrite <- app_assoc. eexists. split; [reflexivity|]. reflexivity.
    + destruct (yield_closes _ _ _ _ _ _ H Hr) as (Hops & (g & -> & Hg) & _).
      split; [|exact Hg]. rewrite Hops. cbn [ops did].
      rewrite <- !app_assoc. eexists. split; [reflexivity|]. reflexivity.
  - destruct (is_tcp (scheme u)); cbn [negb] in H.
    + destruct (yield_closes _ _ _ _ _ _ H Hr) as (Hops & (g & -> & Hg) & _).
      split; [|exact Hg]. rewrite Hops. cbn [ops did].
      rewrite <- !app_assoc. eexists. split; [reflexivity|]. reflexivity.
    + inversion H; subst. split; [|exact I]. cbn [ops did].
      rewrite <- app_assoc. eexists. split; [reflexivity|]. reflexivity.
Qed.

Lemma pysock_open_runs_body {A} u timeout (body : M Sock.sockfile A) n host p :
  hostname u = Some host ->
  port u = Port p ->
  p <> 0%Z ->
  connect_answer n = None ->
  is_tls (scheme u) = false ->
  is_tcp (scheme u) = true ->
  fst (PysockUrl.sock_open u timeout body n)
  = match fst (body (makefile timeout n)) with
    | Ret a => PysockUrl.Done a
    | Exc e => PysockUrl.Raises e
    | _ => PysockUrl.Blocked
    end.
Proof.
  intros Hh Hp Hp0 Hc Htls Htcp. unfold PysockUrl.sock_open.
  rewrite Hp, Hh, Hc, Htls, Htcp. apply Z.eqb_neq in Hp0. rewrite Hp0.
  cbn [negb]. unfold PysockUrl.yield_.
  destruct (body (makefile timeout n)) as [[a|e| |] g]; reflexivity.
Qed.

End OpenFacts.

(** * More of what the code does *)

(** ** The multiplexer *)

(** X1.  Whatever becomes ready and however [print] ends, each output
    stream of the child has given up a run of its coming answers, and its
    sink has received exactly the data among them, in order, each piece
    written once and flushed: standard output to [sys.stdout], standard
    error to [sys.stderr]. *)
Theorem print_forwards_what_it_reads script w :
  ProcMethods.forwards w (snd (Proc.print script w)).
Proof. apply ProcMethodFacts.print_forwards. Qed.

(** X2.  [print] only reads: it leaves the standard input, the child and
    the flags of the wrapper as they are, closes no stream and writes to
    none. *)
Theorem print_reads_and_nothing_else script w :
  ProcMethods.only_reads w (snd (Proc.print script w)).
Proof. apply ProcMethodFacts.print_only_reads. Qed.

(** X3.  On an open wrapper whose standard output is a blocking pipe with
    nothing to come, [read(n)] for a positive [n] blocks; once [print] has
    run, whatever became ready, the same [read(n)] returns [None]. *)
Theorem read_returns_None_after_print script n w f :
  (0 < n)%Z ->
  Proc._closed w = false ->
  Proc._stdout w = Some f ->
  Proc.usable f = true ->
  Proc.nonblocking f = false ->
  Proc.feed f = [] ->
  fst (Proc.read n w) = Hang
  /\ fst (Proc.read n (snd (Proc.print script w))) = Ret PNone.
Proof. apply ProcMethodFacts.read_after_print. Qed.

Lemma read_returns_None_after_print_witness :
  fst (Proc.read 4096%Z (Sample.child [] [])) = Hang
  /\ fst (Proc.read 4096
            (snd (Proc.print [[Proc.Stdout]] (Sample.child [] []))))
     = Ret PNone.
Proof.
  apply (read_returns_None_after_print [[Proc.Stdout]] 4096%Z
           (Sample.child [] []) (Sample.pipe []));
    first [reflexivity | lia].
Defined.

(** ** Closing a [ProcessProxy] *)

(** X4.  On an open wrapper whose file objects still have their
    descriptors, and whose reads raise nothing but [IOError]s and
    [ValueError]s, [close] returns normally.  It drains first when
    [auto_drain] is set; then every stream there is has been closed, the
    closed flag is set, and the child has been sent nothing if it had
    exited, [SIGTERM] if it goes within the wait, and [SIGTERM] and then
    [SIGKILL] if it does not. *)
Theorem close_shuts_and_signals w :
  Proc._closed w = false ->
  ProcMethods.intact (Proc._stdin w) = true ->
  ProcMethods.intact (Proc._stdout w) = true ->
  ProcMethods.intact (Proc.stderr w) = true ->
  Proc.read_errors_within Proc.IOError_or_ValueError (Proc._stdout w) = true ->
  Proc.read_errors_within Proc.IOError_or_ValueError (Proc.stderr w) = true ->
  Proc.close w
  = (Ret tt,
     ProcMethods.after_close
       (if Proc._auto_drain w then Proc.drained w else w)).
Proof.
  intros Hc _ _ _ Hout Herr. apply ProcMethodFacts.close_open; assumption.
Qed.

Lemma close_shuts_and_signals_witness :
  Proc.close (Sample.child [Proc.Gives (lit "out")] [])
  = (Ret tt,
     ProcMethods.after_close
       (Proc.drained (Sample.child [Proc.Gives (lit "out")] []))).
Proof.
  apply (close_shuts_and_signals (Sample.child [Proc.Gives (lit "out")] []));
    reflexivity.
Defined.

(** X5.  [close] never blocks, and [__del__] neither blocks nor raises an
    [Exception]: the wrapper may be dropped without a [close] of one's
    own. *)
Theorem del_is_quiet w :
  fst (Proc.close w) <> Hang
  /\ fst (Proc.close w) <> Fuel
  /\ (fst (ProcMethods.__del__ w) = Ret tt
      \/ exists e, fst (ProcMethods.__del__ w) = Exc e
                   /\ is_Exception e = false).
Proof.
  split; [|split].
  - destruct (ProcMethodFacts.close_ends w) as [H | (e & H & _)];
      rewrite H; discriminate.
  - destruct (ProcMethodFacts.close_ends w) as [H | (e & H & _)];
      rewrite H; discriminate.
  - apply ProcMethodFacts.del_ends.
Qed.

(** X6.  [with p: body] ends as the body does, with its result or its
    exception, and leaves the wrapper closed, provided that the body
    comes back, that it leaves the file objects with their descriptors,
    and that the reads of the drain raise nothing but [IOError]s and
    [ValueError]s. *)
Theorem with_leaves_the_wrapper_closed (A : Type)
    (body : M Proc.ProcessProxy A) w o w1 :
  body w = (o, w1) ->
  o <> Hang -> o <> Fuel ->
  ProcMethods.intact (Proc._stdin w1) = true ->
  ProcMethods.intact (Proc._stdout w1) = true ->
  ProcMethods.intact (Proc.stderr w1) = true ->
  Proc.read_errors_within Proc.IOError_or_ValueError (Proc._stdout w1) = true ->
  Proc.read_errors_within Proc.IOError_or_ValueError (Proc.stderr w1) = true ->
  exists w2,
    ProcMethods.with_ body w = (o, w2) /\ Proc._closed w2 = true.
Proof.
  intros Hb Hh Hf _ _ _ Hout Herr.
  eapply ProcMethodFacts.with_closes; eassumption.
Qed.

Lemma with_leaves_the_wrapper_closed_witness :
  exists w2,
    ProcMethods.with_ (Proc.write (Bytes (lit "x"))) (Sample.child [] [])
    = (Ret 1%Z, w2)
    /\ Proc._closed w2 = true.
Proof.
  apply (with_leaves_the_wrapper_closed Z (Proc.write (Bytes (lit "x")))
           (Sample.child [] []) (Ret 1%Z)
           (snd (Proc.write (Bytes (lit "x")) (Sample.child [] []))));
    first [reflexivity | discriminate].
Defined.

(** ** Reading HTTP responses *)

(** X7.  Whatever is pending and however it ends, [read_http_res] does
    nothing to the connection but take bytes from the front of what is
    pending: it closes nothing, writes nothing, and leaves the timeout
    and the flags of the wrapper as they are. *)
Theorem read_http_res_only_takes_bytes w :
  SockMethods.only_consumes w (snd (Sock.read_http_res w)).
Proof. apply SockMethodFacts.read_http_res_only_consumes. Qed.

(** X8.  Two well-formed responses within the limits, one behind the
    other on the same connection, are returned by two calls of
    [read_http_res], each call the bytes of one, and what follows them
    stays unread. *)
Theorem read_http_res_one_after_another m1 m2 rest e t h l ad c :
  Wire.well_formed_response m1 = true -> Wire.within_limits m1 = true ->
  Wire.well_formed_response m2 = true -> Wire.within_limits m2 = true ->
  (first <- Sock.read_http_res ;;
   second <- Sock.read_http_res ;;
   ret (first, second))
    (Sock.mkFlush
       (Sock.mkSock (Wire.render m1 ++ Wire.render m2 ++ rest) e false t h l)
       ad c)
  = (Ret (Wire.render m1, Wire.render m2),
     Sock.mkFlush (Sock.mkSock rest e false t h l) ad c).
Proof. apply SockMethodFacts.read_http_res_twice. Qed.

Lemma read_http_res_one_after_another_witness :
  (first <- Sock.read_http_res ;;
   second <- Sock.read_http_res ;;
   ret (first, second))
    (Sample.arrived
       (Wire.render Sample.ten_bytes ++ Wire.render Sample.hello_chunked
        ++ lit "NEXT") false)
  = (Ret (Wire.render Sample.ten_bytes, Wire.render Sample.hello_chunked),
     Sample.arrived (lit "NEXT") false).
Proof.
  unfold Sample.arrived.
  apply (read_http_res_one_after_another Sample.ten_bytes Sample.hello_chunked);
    vm_compute; reflexivity.
Defined.

(** X9.  Interim responses of status 100 in front of a well-formed
    response are read along with it: [read_http_res] returns their heads
    and the response as one sequence of bytes. *)
Theorem read_http_res_includes_interim_responses ms m rest e t h l ad c :
  forallb SockMethods.interim ms = true ->
  Wire.well_formed_response m = true ->
  Wire.within_limits m = true ->
  Sock.read_http_res
    (Sock.mkFlush
       (Sock.mkSock (concat (map Wire.render_head ms) ++ Wire.render m ++ rest)
          e false t h l) ad c)
  = (Ret (concat (map Wire.render_head ms) ++ Wire.render m),
     Sock.mkFlush (Sock.mkSock rest e false t h l) ad c).
Proof. apply SockMethodFacts.read_http_res_interim. Qed.

Lemma read_http_res_includes_interim_responses_witness :
  Sock.read_http_res
    (Sample.arrived
       (concat (map Wire.render_head [Cases.continue_; Cases.continue_])
        ++ Wire.render Sample.hello_chunked ++ lit "NEXT") false)
  = (Ret (concat (map Wire.render_head [Cases.continue_; Cases.continue_])
          ++ Wire.render Sample.hello_chunked),
     Sample.arrived (lit "NEXT") false).
Proof.
  unfold Sample.arrived.
  apply (read_http_res_includes_interim_responses
           [Cases.continue_; Cases.continue_] Sample.hello_chunked);
    vm_compute; reflexivity.
Defined.

(** X10.  When the first line of what is pending is there as a whole
    (ended by its line feed or by the peer closing), is no longer than
    65536 bytes and, blanks in front left out, does not start with
    [HTTP/], [read_http_res] raises [BadStatusLine], or
    [RemoteDisconnected] if the line is empty because the peer has
    closed, and has taken that line and no more.  With nothing pending on
    a connection that is still open it waits for ever, or raises
    [TimeoutError] when the socket has a timeout other than 0. *)
Theorem read_http_res_without_a_status_line :
  (forall p e t h l ad c line rest done,
      Wire.next_line p = (line, rest, done) ->
      done || e = true ->
      Wire.fits line = true ->
      startswith (lit "HTTP/") (lstrip str_isspace line) = false ->
      Sock.read_http_res (Sock.mkFlush (Sock.mkSock p e false t h l) ad c)
      = (Exc (match line with
              | [] => RemoteDisconnected
              | _ => BadStatusLine
              end),
         Sock.mkFlush (Sock.mkSock rest e false t h l) ad c))
  /\ (forall h l ad c,
         Sock.read_http_res
           (Sock.mkFlush (Sock.mkSock [] false false None h l) ad c)
         = (Hang, Sock.mkFlush (Sock.mkSock [] false false None h l) ad c))
  /\ (forall d h l ad c,
         d <> 0%Z ->
         Sock.read_http_res
           (Sock.mkFlush (Sock.mkSock [] false false (Some d) h l) ad c)
         = (Exc TimeoutError,
            Sock.mkFlush (Sock.mkSock [] false false (Some d) h l) ad c)).
Proof.
  split; [|split].
  - apply SockMethodFacts.read_http_res_no_status_line.
  - intros h l ad c.
    apply (proj1 (proj2 (SockMethodFacts.read_http_res_nothing_pending
                           false None h l ad c))); reflexivity.
  - intros d h l ad c Hd.
    apply (proj2 (proj2 (SockMethodFacts.read_http_res_nothing_pending
                           false (Some d) h l ad c)) eq_refl d eq_refl Hd).
Qed.

Lemma read_http_res_without_a_status_line_witness :
  Sock.read_http_res (Sample.arrived (lit "SSH-2.0-OpenSSH" ++ CRLF ++ lit "x") false)
  = (Exc BadStatusLine, Sample.arrived (lit "x") false)
  /\ Sock.read_http_res (Sample.arrived [] true)
     = (Exc RemoteDisconnected, Sample.arrived [] true)
  /\ Sock.read_http_res (Sample.arrived [] false)
     = (Exc TimeoutError, Sample.arrived [] false).
Proof.
  unfold Sample.arrived. split; [|split].
  - apply (proj1 read_http_res_without_a_status_line
             (lit "SSH-2.0-OpenSSH" ++ CRLF ++ lit "x") false (Some 10%Z) false []
             true false (lit "SSH-2.0-OpenSSH" ++ CRLF) (lit "x") true);
      vm_compute; reflexivity.
  - apply (proj1 read_http_res_without_a_status_line
             [] true (Some 10%Z) false [] true false [] [] false);
      vm_compute; reflexivity.
  - apply (proj2 (proj2 read_http_res_without_a_status_line)). discriminate.
Defined.

(** X11.  A [Content-Length] that is no number, or a negative one, is
    left out of account: when the response is not chunked and its status
    allows a body, the body runs to the end of the connection, and
    [read_http_res] returns the head and everything behind it once the
    peer has closed. *)
Theorem read_http_res_ignores_a_bad_length m v rest t h l ad c :
  Wire.well_formed_head m = true ->
  Wire.head_within_limits m = true ->
  Wire.bodiless (Wire.digits_value 10 (Wire.code m)) = false ->
  Wire.says_chunked (Wire.fields m) = false ->
  HttpClient.get (lit "content-length") (Wire.pairs (Wire.fields m)) = Some v ->
  match py_int int_str_space 10 v with
  | Some n => (n <? 0)%Z
  | None => true
  end = true ->
  Sock.read_http_res
    (Sock.mkFlush (Sock.mkSock (Wire.render_head m ++ rest) true false t h l)
       ad c)
  = (Ret (Wire.render_head m ++ rest),
     Sock.mkFlush (Sock.mkSock [] true false t h l) ad c).
Proof. apply SockMethodFacts.read_http_res_length_ignored. Qed.

Lemma read_http_res_ignores_a_bad_length_witness :
  Sock.read_http_res
    (Sample.arrived (Wire.render_head Cases.minus_five ++ lit "helloNEXT") true)
  = (Ret (Wire.render_head Cases.minus_five ++ lit "helloNEXT"),
     Sample.arrived [] true).
Proof.
  unfold Sample.arrived.
  apply (read_http_res_ignores_a_bad_length Cases.minus_five (lit "-5"));
    vm_compute; reflexivity.
Defined.

(** ** Reading from a [FlushProxy] *)

(** X12.  What [readline] returns is the front of what was pending, and
    what it leaves is the rest; the line has no line feed but, at most,
    as its last byte, and is no longer than a limit that is not
    negative. *)
Theorem readline_returns_one_line limit w v w' :
  Sock.readline limit w = (Ret v, w') ->
  exists line content,
    v = PBytes line
    /\ Sock.pending (Sock._obj w) = line ++ Sock.pending (Sock._obj w')
    /\ w' = Sock.mkFlush
              (Sock.with_pending (Sock.pending (Sock._obj w')) (Sock._obj w))
              (Sock._auto_drain w) (Sock._closed w)
    /\ Wire.no_LF content = true
    /\ (line = content \/ line = content ++ [LF])
    /\ ((0 <= limit)%Z -> (len line <= limit)%Z).
Proof. apply SockMethodFacts.readline_shape. Qed.

Lemma readline_returns_one_line_witness :
  exists line content,
    PBytes (lit "ab" ++ [LF]) = PBytes line
    /\ Sock.pending (Sock._obj (Sample.arrived (lit "ab" ++ LF :: lit "cd") false))
       = line ++ Sock.pending (Sock._obj (Sample.arrived (lit "cd") false))
    /\ Sample.arrived (lit "cd") false
       = Sock.mkFlush
           (Sock.with_pending
              (Sock.pending (Sock._obj (Sample.arrived (lit "cd") false)))
              (Sock._obj (Sample.arrived (lit "ab" ++ LF :: lit "cd") false)))
           (Sock._auto_drain (Sample.arrived (lit "ab" ++ LF :: lit "cd") false))
           (Sock._closed (Sample.arrived (lit "ab" ++ LF :: lit "cd") false))
    /\ Wire.no_LF content = true
    /\ (line = content \/ line = content ++ [LF])
    /\ ((0 <= -1)%Z -> (len line <= -1)%Z).
Proof.
  apply (readline_returns_one_line (-1)
           (Sample.arrived (lit "ab" ++ LF :: lit "cd") false)
           (PBytes (lit "ab" ++ [LF])) (Sample.arrived (lit "cd") false)).
  vm_compute; reflexivity.
Defined.

(** X13.  The bytes that [read] returns are the front of what was
    pending, what it leaves is the rest, and for [n] that is not
    negative there are no more than [n] of them. *)
Theorem read_returns_the_front n w out w' :
  Sock.read n w = (Ret (PBytes out), w') ->
  Sock.pending (Sock._obj w) = out ++ Sock.pending (Sock._obj w')
  /\ w' = Sock.mkFlush
            (Sock.with_pending (Sock.pending (Sock._obj w')) (Sock._obj w))
            (Sock._auto_drain w) (Sock._closed w)
  /\ ((0 <= n)%Z -> (len out <= n)%Z).
Proof. apply SockMethodFacts.read_shape. Qed.

Lemma read_returns_the_front_witness :
  Sock.pending (Sock._obj (Sample.arrived (lit "hello") false))
  = lit "he" ++ Sock.pending (Sock._obj (Sample.arrived (lit "llo") false))
  /\ Sample.arrived (lit "llo") false
     = Sock.mkFlush
         (Sock.with_pending
            (Sock.pending (Sock._obj (Sample.arrived (lit "llo") false)))
            (Sock._obj (Sample.arrived (lit "hello") false)))
         (Sock._auto_drain (Sample.arrived (lit "hello") false))
         (Sock._closed (Sample.arrived (lit "hello") false))
  /\ ((0 <= 2)%Z -> (len (lit "he") <= 2)%Z).
Proof.
  apply (read_returns_the_front 2%Z (Sample.arrived (lit "hello") false)
           (lit "he") (Sample.arrived (lit "llo") false)).
  vm_compute; reflexivity.
Defined.

(** ** Closing a [FlushProxy] *)

(** X14.  [close] of a [FlushProxy] always returns normally and leaves
    the closed flag set; so [__del__] returns normally, and [with s: body]
    ends as the body does and leaves the wrapper closed, with the socket
    file closed when the body had not closed the wrapper itself. *)
Theorem flushproxy_scopes_close :
  (forall w, exists w',
      SockMethods.__del__ w = (Ret tt, w') /\ Sock._closed w' = true)
  /\ (forall (A : Type) (body : M Sock.FlushProxy A) w o w1,
         body w = (o, w1) ->
         o <> Hang -> o <> Fuel ->
         exists w2,
           SockMethods.with_ body w = (o, w2)
           /\ Sock._closed w2 = true
           /\ (Sock._closed w1 = false -> Sock.closed (Sock._obj w2) = true)).
Proof.
  split.
  - apply SockMethodFacts.sock_del_returns.
  - intros A body w o w1. apply SockMethodFacts.sock_with_closes.
Qed.

Lemma flushproxy_scopes_close_witness :
  exists w2,
    SockMethods.with_ (Sock.read 2%Z) (Sample.arrived (lit "hello") false)
    = (Ret (PBytes (lit "he")), w2)
    /\ Sock._closed w2 = true
    /\ (Sock._closed (Sample.arrived (lit "llo") false) = false ->
        Sock.closed (Sock._obj w2) = true).
Proof.
  apply (proj2 flushproxy_scopes_close pyval (Sock.read 2%Z)
           (Sample.arrived (lit "hello") false) (Ret (PBytes (lit "he")))
           (Sample.arrived (lit "llo") false));
    first [reflexivity | discriminate].
Defined.

(** ** Starting a child *)

(** X15.  When its arguments can be encoded and [Popen] starts the
    child, [ex] has asked for exactly one child, without a shell, with
    the path as executable and with the given [argv0], or else the last
    component of the path, in front of the arguments; it returns an open
    wrapper over the pipes of that child.  The last component of a path
    has no slash in it, and the path is that component behind nothing or
    behind something that ends in a slash. *)
Theorem ex_starts_the_path_with_its_arguments :
  (forall path args argv0 env auto_drain o bin_path first rest
          p stdin stdout stderr,
      Spawn._to_bytes path = Some bin_path ->
      match argv0 with
      | Some a => Spawn._to_bytes a
      | None => Some (Spawn.basename bin_path)
      end = Some first ->
      Spawn.all_to_bytes args = Some rest ->
      Spawn.Popen o
        (Spawn.mkLaunch (Spawn.Argv (first :: rest)) (Some bin_path) false
           (Spawn.env_or_environ env o))
      = Spawn.Started p stdin stdout stderr ->
      Spawn.ex path args argv0 env auto_drain o
      = (Spawn.Proxy (Spawn.fresh p stdin stdout stderr auto_drain),
         Spawn.mkOs (Spawn.environ o) (Spawn.Popen o)
           (Spawn.started o
            ++ [Spawn.mkLaunch (Spawn.Argv (first :: rest)) (Some bin_path)
                  false (Spawn.env_or_environ env o)])))
  /\ (forall p,
         forallb (fun b => negb (Byte.eqb b Spawn.slash)) (Spawn.basename p)
         = true
         /\ exists dir,
              p = dir ++ Spawn.basename p
              /\ (dir = [] \/ exists d, dir = d ++ [Spawn.slash])).
Proof.
  split.
  - apply SpawnFacts.ex_starts.
  - apply SpawnFacts.basename_spec.
Qed.

Lemma ex_starts_the_path_with_its_arguments_witness :
  Spawn.ex (Str [47; 98; 105; 110; 47; 108; 115]%N) [Bytes (lit "-d"); ByteArray (lit "/")]
    None (Some []) true Cases.an_os
  = (Spawn.Proxy
       (Spawn.fresh (Proc.mkPopen None true []) Cases.a_pipe Cases.a_pipe
          Cases.a_pipe true),
     Spawn.mkOs (Spawn.environ Cases.an_os) (Spawn.Popen Cases.an_os)
       (Spawn.started Cases.an_os
        ++ [Spawn.mkLaunch (Spawn.Argv [lit "ls"; lit "-d"; lit "/"])
              (Some (lit "/bin/ls")) false
              (Spawn.env_or_environ (Some []) Cases.an_os)])).
Proof.
  apply (proj1 ex_starts_the_path_with_its_arguments
           (Str [47; 98; 105; 110; 47; 108; 115]%N)
           [Bytes (lit "-d"); ByteArray (lit "/")] None (Some []) true
           Cases.an_os (lit "/bin/ls") (lit "ls") [lit "-d"; lit "/"]);
    vm_compute; reflexivity.
Defined.

(** X16.  [wine_exec] runs [wine], found by its name, with the path as
    its first argument and the other arguments behind it. *)
Theorem wine_exec_puts_wine_in_front
    path args env auto_drain o bin_path rest p stdin stdout stderr :
  Spawn._to_bytes path = Some bin_path ->
  Spawn.all_to_bytes args = Some rest ->
  Spawn.Popen o
    (Spawn.mkLaunch (Spawn.Argv (lit "wine" :: bin_path :: rest))
       (Some (lit "wine")) false (Spawn.env_or_environ env o))
  = Spawn.Started p stdin stdout stderr ->
  Spawn.wine_exec path args env auto_drain o
  = (Spawn.Proxy (Spawn.fresh p stdin stdout stderr auto_drain),
     Spawn.mkOs (Spawn.environ o) (Spawn.Popen o)
       (Spawn.started o
        ++ [Spawn.mkLaunch (Spawn.Argv (lit "wine" :: bin_path :: rest))
              (Some (lit "wine")) false (Spawn.env_or_environ env o)])).
Proof. apply SpawnFacts.wine_exec_starts. Qed.

Lemma wine_exec_puts_wine_in_front_witness :
  Spawn.wine_exec (Bytes (lit "a.exe")) [Bytes (lit "/q")] None false Cases.an_os
  = (Spawn.Proxy
       (Spawn.fresh (Proc.mkPopen None true []) Cases.a_pipe Cases.a_pipe
          Cases.a_pipe false),
     Spawn.mkOs (Spawn.environ Cases.an_os) (Spawn.Popen Cases.an_os)
       (Spawn.started Cases.an_os
        ++ [Spawn.mkLaunch (Spawn.Argv [lit "wine"; lit "a.exe"; lit "/q"])
              (Some (lit "wine")) false
              (Spawn.env_or_environ None Cases.an_os)])).
Proof.
  apply (wine_exec_puts_wine_in_front (Bytes (lit "a.exe")) [Bytes (lit "/q")]
           None false Cases.an_os (lit "a.exe") [lit "/q"]);
    vm_compute; reflexivity.
Defined.

(** X17.  Where [Popen] refuses null bytes as CPython's does, a null
    byte in the command of [sh], or in the path, the [argv0] or an
    argument of [ex], ends in a [ProcessError], and no child has been
    started. *)
Theorem a_null_byte_is_a_ProcessError o :
  Spawn.refuses_nul o ->
  (forall cmd env auto_drain,
      Spawn.env_legal (Spawn.env_or_environ env o) = true ->
      existsb (N.eqb 0) cmd = true ->
      Spawn.sh cmd env auto_drain o = (Spawn.ProcessError, o))
  /\ (forall path args argv0 env auto_drain bin_path first rest,
         Spawn.env_legal (Spawn.env_or_environ env o) = true ->
         Spawn._to_bytes path = Some bin_path ->
         match argv0 with
         | Some a => Spawn._to_bytes a
         | None => Some (Spawn.basename bin_path)
         end = Some first ->
         Spawn.all_to_bytes args = Some rest ->
         existsb Spawn.has_nul (bin_path :: first :: rest) = true ->
         Spawn.ex path args argv0 env auto_drain o = (Spawn.ProcessError, o)).
Proof.
  intros Hos. split.
  - intros cmd env auto_drain. apply SpawnFacts.sh_nul. exact Hos.
  - intros path args argv0 env auto_drain bin_path first rest.
    apply SpawnFacts.ex_nul. exact Hos.
Qed.

Lemma a_null_byte_is_a_ProcessError_witness :
  Spawn.sh [101; 0; 99]%N None true Cases.an_os
  = (Spawn.ProcessError, Cases.an_os)
  /\ Spawn.ex (Bytes (lit "/bin/ls")) [Str [45; 0]%N] None None true Cases.an_os
     = (Spawn.ProcessError, Cases.an_os).
Proof.
  assert (Hos : Spawn.refuses_nul Cases.an_os).
  { intros l Henv Hnul. cbn. rewrite Henv, Hnul. reflexivity. }
  split.
  - apply (proj1 (a_null_byte_is_a_ProcessError Cases.an_os Hos));
      vm_compute; reflexivity.
  - apply (proj2 (a_null_byte_is_a_ProcessError Cases.an_os Hos)
             (Bytes (lit "/bin/ls")) [Str [45; 0]%N] None None true
             (lit "/bin/ls") (lit "ls") [[x2d; x00]]);
      vm_compute; reflexivity.
Defined.

(** X18.  A string of [ex] with a character above 255, be it the path,
    the [argv0] or an argument, raises [UnicodeEncodeError] before
    [Popen] is called: it is not turned into a [ProcessError], and
    nothing is started. *)
Theorem ex_raises_on_what_it_cannot_encode path args argv0 env auto_drain o :
  existsb
    (fun a => match Spawn._to_bytes a with None => true | Some _ => false end)
    (path :: match argv0 with Some a => [a] | None => [] end ++ args) = true ->
  Spawn.ex path args argv0 env auto_drain o = (Spawn.Raises UnicodeEncodeError, o).
Proof. apply SpawnFacts.ex_unencodable. Qed.

Lemma ex_raises_on_what_it_cannot_encode_witness :
  Spawn.ex (Bytes (lit "/bin/echo")) [Str [8364]%N] None None true Cases.an_os
  = (Spawn.Raises UnicodeEncodeError, Cases.an_os).
Proof.
  apply (ex_raises_on_what_it_cannot_encode (Bytes (lit "/bin/echo"))
           [Str [8364]%N] None None true Cases.an_os).
  vm_compute; reflexivity.
Defined.

(** ** Opening a socket *)

(** X19.  [nolpy.sock.sock_open] on a URL without a host or without a
    port raises [SocketURLError] before anything is asked of the
    network. *)
Theorem sock_open_refuses_a_url_without_host_or_port
    u timeout auto_drain verify n :
  Net.port u <> Net.BadPort ->
  Net.hostname u = None \/ Net.port u = Net.NoPort ->
  Open.sock_open u timeout auto_drain verify n
  = (Open.SocketURLError Net.InvalidURL, n).
Proof. apply OpenFacts.sock_open_invalid. Qed.

Lemma sock_open_refuses_a_url_without_host_or_port_witness :
  Open.sock_open (Net.mkUrl (lit "tcp") (Some (lit "invalid-url")) Net.NoPort)
    10%Z true false Cases.a_net
  = (Open.SocketURLError Net.InvalidURL, Cases.a_net).
Proof.
  apply (sock_open_refuses_a_url_without_host_or_port
           (Net.mkUrl (lit "tcp") (Some (lit "invalid-url")) Net.NoPort)).
  - discriminate.
  - right. reflexivity.
Defined.

(** X20.  When [TCP_NODELAY] can be set, [nolpy.sock.sock_open] leaves a
    connection open if and only if it returns a wrapper: whenever it
    fails with an [Exception], be it before, in or after the
    connection, no connection it has made is left open. *)
Theorem sock_open_leaves_no_connection_behind
    u timeout auto_drain verify n r n' :
  Open.sock_open u timeout auto_drain verify n = (r, n') ->
  Net.nodelay_answer n = None ->
  (forall e, Net.handshake_answer n = Some (Net.Other e) ->
             is_Exception e = true) ->
  exists new,
    Net.ops n' = Net.ops n ++ new
    /\ Net.open_after false new
       = match r with Open.Opened _ => true | _ => false end.
Proof. apply OpenFacts.sock_open_leaves_none_open. Qed.

Lemma sock_open_leaves_no_connection_behind_witness :
  exists new,
    Net.ops (snd (Open.sock_open Cases.gopher_url 10%Z true false Cases.a_net))
    = Net.ops Cases.a_net ++ new
    /\ Net.open_after false new
       = match fst (Open.sock_open Cases.gopher_url 10%Z true false Cases.a_net)
         with Open.Opened _ => true | _ => false end.
Proof.
  apply (sock_open_leaves_no_connection_behind Cases.gopher_url 10%Z true false
           Cases.a_net).
  - reflexivity.
  - reflexivity.
  - intros e H. discriminate H.
Defined.

(** X21.  [nolpy.sock.sock_open] looks at the scheme only when the
    connection is made: for a scheme other than [tcp], [tls] and [ssl] it
    connects, closes the connection, and raises [SocketURLError]. *)
Theorem sock_open_connects_before_it_checks_the_scheme
    u timeout auto_drain verify n host p :
  Net.hostname u = Some host ->
  Net.port u = Net.Port p ->
  Net.connect_answer n = None ->
  Net.nodelay_answer n = None ->
  Net.is_tls (Net.scheme u) || Net.is_tcp (Net.scheme u) = false ->
  Open.sock_open u timeout auto_drain verify n
  = (Open.SocketURLError Net.UnsupportedScheme,
     Net.did [Net.Connect host p timeout; Net.SetNoDelay;
              Net.CloseSock; Net.CloseSock] n).
Proof. apply OpenFacts.sock_open_unsupported. Qed.

Lemma sock_open_connects_before_it_checks_the_scheme_witness :
  Open.sock_open Cases.gopher_url 10%Z true false Cases.a_net
  = (Open.SocketURLError Net.UnsupportedScheme,
     Net.did [Net.Connect (lit "example.com") 70%Z 10%Z; Net.SetNoDelay;
              Net.CloseSock; Net.CloseSock] Cases.a_net).
Proof.
  apply (sock_open_connects_before_it_checks_the_scheme Cases.gopher_url 10%Z
           true false Cases.a_net (lit "example.com") 70%Z);
    reflexivity.
Defined.

(** X22.  For [tcp], [tls] and [ssl], in any case of letters, when the
    connection is made, [nolpy.sock.sock_open] returns an open wrapper
    over the socket file with the given [auto_drain]; for [tls] and
    [ssl] the handshake has been done, verifying the peer only when
    [verify] is set.  On that wrapper [drain] reads nothing, so that
    [close] discards nothing of what is pending even with [auto_drain]. *)
Theorem sock_open_returns_an_open_wrapper
    u timeout auto_drain verify n host p :
  Net.hostname u = Some host ->
  Net.port u = Net.Port p ->
  Net.connect_answer n = None ->
  Net.nodelay_answer n = None ->
  (Net.is_tls (Net.scheme u) = true -> Net.handshake_answer n = None) ->
  Net.is_tls (Net.scheme u) || Net.is_tcp (Net.scheme u) = true ->
  let w := Sock.mkFlush (Net.makefile timeout n) auto_drain false in
  Open.sock_open u timeout auto_drain verify n
  = (Open.Opened w,
     Net.did ([Net.Connect host p timeout; Net.SetNoDelay]
              ++ (if Net.is_tls (Net.scheme u)
                  then [Net.Handshake host verify] else [])
              ++ [Net.MakeFile]) n)
  /\ Sock.drain w = (Ret tt, w)
  /\ Sock.pending (Sock._obj (snd (Sock.close w))) = Net.incoming n.
Proof.
  intros Hh Hp Hc Hn Hs Hscheme w. split; [|split].
  - apply OpenFacts.sock_open_opens; assumption.
  - rewrite SockFacts.sock_drain_spec. reflexivity.
  - rewrite (SockFacts.sock_close_spec w eq_refl). subst w.
    destruct auto_drain; reflexivity.
Qed.

Lemma sock_open_returns_an_open_wrapper_witness :
  Open.sock_open (Net.mkUrl (lit "TLS") (Some (lit "example.com")) (Net.Port 443%Z))
    10%Z true false Cases.a_net
  = (Open.Opened (Sock.mkFlush (Net.makefile 10%Z Cases.a_net) true false),
     Net.did [Net.Connect (lit "example.com") 443%Z 10%Z; Net.SetNoDelay;
              Net.Handshake (lit "example.com") false; Net.MakeFile]
       Cases.a_net).
Proof.
  apply (sock_open_returns_an_open_wrapper
           (Net.mkUrl (lit "TLS") (Some (lit "example.com")) (Net.Port 443%Z))
           10%Z true false Cases.a_net (lit "example.com") 443%Z);
    reflexivity.
Defined.

(** X23.  [pysock_url.sock_open] refuses a URL without a host, without a
    port or with port 0 before anything is asked of the network, whereas
    [nolpy.sock.sock_open] takes port 0 for a port. *)
Theorem pysock_sock_open_refuses_port_zero :
  (forall (A : Type) u timeout (body : M Sock.sockfile A) n,
      Net.port u <> Net.BadPort ->
      Net.hostname u = None \/ Net.port u = Net.NoPort
      \/ Net.port u = Net.Port 0%Z ->
      PysockUrl.sock_open u timeout body n
      = (PysockUrl.SocketURLError Net.InvalidURL, (n, None)))
  /\ (forall u timeout auto_drain verify n host,
         Net.hostname u = Some host ->
         Net.port u = Net.Port 0%Z ->
         Net.connect_answer n = None ->
         Net.nodelay_answer n = None ->
         Net.is_tls (Net.scheme u) = false ->
         Net.is_tcp (Net.scheme u) = true ->
         fst (Open.sock_open u timeout auto_drain verify n)
         = Open.Opened
             (Sock.mkFlush (Net.makefile timeout n) auto_drain false)).
Proof.
  split.
  - intros A u timeout body n. apply OpenFacts.pysock_open_invalid.
  - intros u timeout auto_drain verify n host Hh Hp Hc Hn Htls Htcp.
    rewrite (OpenFacts.sock_open_opens u timeout auto_drain verify n host 0%Z
               Hh Hp Hc Hn);
      [reflexivity | congruence | rewrite Htls, Htcp; reflexivity].
Qed.

Lemma pysock_sock_open_refuses_port_zero_witness :
  PysockUrl.sock_open Cases.port0_url 10%Z (Sock.sock_read 5%Z) Cases.a_net
  = (PysockUrl.SocketURLError Net.InvalidURL, (Cases.a_net, None))
  /\ fst (Open.sock_open Cases.port0_url 10%Z true false Cases.a_net)
     = Open.Opened (Sock.mkFlush (Net.makefile 10%Z Cases.a_net) true false).
Proof.
  split.
  - apply (proj1 pysock_sock_open_refuses_port_zero pyval Cases.port0_url).
    + discriminate.
    + right. right. reflexivity.
  - apply (proj2 pysock_sock_open_refuses_port_zero Cases.port0_url 10%Z true
             false Cases.a_net (lit "example.com"));
      reflexivity.
Defined.

(** X24.  However a [with pysock_url.sock_open(url) as f: body] ends, if
    it ends at all, no connection it has made is left open, and the file
    object, if one was made, is closed. *)
Theorem pysock_sock_open_closes_on_every_path (A : Type)
    u timeout (body : M Sock.sockfile A) n r n' f' :
  PysockUrl.sock_open u timeout body n = (r, (n', f')) ->
  r <> PysockUrl.Blocked ->
  (exists new,
      Net.ops n' = Net.ops n ++ new /\ Net.open_after false new = false)
  /\ match f' with
     | Some g => Sock.closed g = true
     | None => True
     end.
Proof. apply OpenFacts.pysock_open_leaves_none_open. Qed.

Lemma pysock_sock_open_closes_on_every_path_witness :
  (exists new,
      Net.ops (fst (snd (PysockUrl.sock_open Cases.tcp_url 10%Z
                           (Sock.sock_write (lit "x") ;;
            (raise KeyboardInterrupt : M Sock.sockfile unit))
                           Cases.a_net)))
      = Net.ops Cases.a_net ++ new
      /\ Net.open_after false new = false)
  /\ match snd (snd (PysockUrl.sock_open Cases.tcp_url 10%Z
                       (Sock.sock_write (lit "x") ;;
            (raise KeyboardInterrupt : M Sock.sockfile unit))
                       Cases.a_net))
     with
     | Some g => Sock.closed g = true
     | None => True
     end.
Proof.
  apply (pysock_sock_open_closes_on_every_path unit Cases.tcp_url 10%Z
           (Sock.sock_write (lit "x") ;;
            (raise KeyboardInterrupt : M Sock.sockfile unit)) Cases.a_net
           (PysockUrl.Raises KeyboardInterrupt)).
  - reflexivity.
  - discriminate.
Defined.

(** X25.  When the URL is good and the connection is made, a
    [with pysock_url.sock_open(url) as f: body] over [tcp] ends as the
    body does on the socket file: with its result, with its exception,
    or not at all. *)
Theorem pysock_sock_open_ends_as_the_body (A : Type)
    u timeout (body : M Sock.sockfile A) n host p :
  Net.hostname u = Some host ->
  Net.port u = Net.Port p ->
  p <> 0%Z ->
  Net.connect_answer n = None ->
  Net.is_tls (Net.scheme u) = false ->
  Net.is_tcp (Net.scheme u) = true ->
  fst (PysockUrl.sock_open u timeout body n)
  = match fst (body (Net.makefile timeout n)) with
    | Ret a => PysockUrl.Done a
    | Exc e => PysockUrl.Raises e
    | _ => PysockUrl.Blocked
    end.
Proof. apply OpenFacts.pysock_open_runs_body. Qed.

Lemma pysock_sock_open_ends_as_the_body_witness :
  fst (PysockUrl.sock_open Cases.tcp_url 10%Z (Sock.sock_read 5%Z) Cases.a_net)
  = PysockUrl.Done (PBytes (lit "hello")).
Proof.
  apply (pysock_sock_open_ends_as_the_body pyval Cases.tcp_url 10%Z
           (Sock.sock_read 5%Z) Cases.a_net (lit "example.com") 80%Z);
    first [reflexivity | discriminate].
Defined.
